(** * Tyco (tyco-js): a shallow embedding of the parser's core and its properties

    The development follows the TypeScript sources: [source.ts]
    (SourceFragment, coerceContentToFragments) and [parser.ts] (the
    utilities on strings and comments, TycoValue, TycoArray, TycoInstance,
    TycoReference, TycoStruct, TycoContext, and of TycoLexer the record,
    [fromPath], the include branch of [process] and [loadSingleString]).

    - JavaScript strings are sequences of UTF-16 code units; they are
      modelled as lists of code units ([N]).
    - JavaScript numbers are modelled by [Number]: NaN, the two infinities,
      or a finite rational (every finite double is one; the two zeros are
      one value, as [String] and [JSON.stringify] print them).  An integer
      becomes a number by [round_double], the rounding of binary64.
    - A method that can throw returns an [Outcome]; the objects it mutates
      are passed in and returned.  The location that a TycoError carries is
      not modelled.
    - Value nodes own their children (the arguments of a reference, the
      elements of an array, the attributes of an instance), so a node is a
      tree.  The pointers that do not own, [parent] and the instance a
      resolved reference points to, are handles into the context.
    - The rest of the lexer (globals, struct blocks, arrays, multi-line
      strings) is not modelled: [process] takes what it does with a line
      that is no include as a parameter, and the contexts of the examples
      are built with the operations the lexer calls ([createInstance],
      [setGlobalAttr]). *)

From stdpp Require Import gmap list.
From Stdlib Require Import ZArith NArith QArith Qround Lia Ascii.
From Stdlib Require String DecimalString.
Import String.StringSyntax.

#[local] Set Warnings "-register-all".

Local Open Scope Z_scope.

(** ** JavaScript strings *)

Abbreviation jsstring := (list N).

(** Code units of an ASCII literal. *)
Definition js (s : String.string) : jsstring :=
  map N_of_ascii (String.list_ascii_of_string s).
Arguments js s%_string_scope.

Definition LF : N := 10%N.
Definition CR : N := 13%N.

(** [s.startsWith(p)] *)
Fixpoint startsWith (s p : jsstring) {struct p} : bool :=
  match p, s with
  | [], _ => true
  | _ :: _, [] => false
  | a :: p', b :: s' => if N.eqb a b then startsWith s' p' else false
  end.

(** [s.endsWith(p)] *)
Definition endsWith (s p : jsstring) : bool :=
  startsWith (rev s) (rev p).

Definition jslength (s : jsstring) : Z := Z.of_nat (length s).

(** ** JavaScript numbers *)

Inductive Number : Type :=
| NaN
| NegInf
| PosInf
| Fin (q : Q).

Definition Qltb (a b : Q) : bool := negb (Qle_bool b a).

(** [a < b] on numbers; any comparison with NaN is false. *)
Definition num_ltb (a b : Number) : bool :=
  match a, b with
  | NaN, _ | _, NaN => false
  | _, NegInf => false
  | NegInf, _ => true
  | PosInf, _ => false
  | Fin _, PosInf => true
  | Fin x, Fin y => Qltb x y
  end.

(** [Math.max(a, b)] and [Math.min(a, b)]: NaN if an argument is NaN. *)
Definition Math_max (a b : Number) : Number :=
  match a, b with
  | NaN, _ | _, NaN => NaN
  | _, _ => if num_ltb a b then b else a
  end.

Definition Math_min (a b : Number) : Number :=
  match a, b with
  | NaN, _ | _, NaN => NaN
  | _, _ => if num_ltb b a then b else a
  end.

Definition isNaN (a : Number) : bool :=
  match a with NaN => true | _ => false end.

Definition ofZ (z : Z) : Number := Fin (inject_Z z).

(** [ToIntegerOrInfinity] of ECMAScript: NaN is 0, finite numbers are
    truncated toward zero. *)
Inductive IntOrInf : Type :=
| MinusInf
| PlusInf
| Int (z : Z).

Definition Qtrunc (q : Q) : Z :=
  if Qle_bool 0 q then Qfloor q else Qceiling q.

Definition ToIntegerOrInfinity (a : Number) : IntOrInf :=
  match a with
  | NaN => Int 0
  | NegInf => MinusInf
  | PosInf => PlusInf
  | Fin q => Int (Qtrunc q)
  end.

(** The relative index of [String.prototype.slice]: negative indices count
    from the end, everything is clamped into [0, len]. *)
Definition relative_index (len : Z) (i : IntOrInf) : Z :=
  match i with
  | MinusInf => 0
  | PlusInf => len
  | Int z => if z <? 0 then Z.max (len + z) 0 else Z.min z len
  end.

(** [s.substring]-like extraction of the code units in [from, to). *)
Definition extract (s : jsstring) (from to : Z) : jsstring :=
  firstn (Z.to_nat (to - from)) (skipn (Z.to_nat from) s).

(** [s.slice(start, end)] of ECMAScript, [end] possibly undefined. *)
Definition String_slice (s : jsstring) (start : Number) (end_ : option Number)
  : jsstring :=
  let len := jslength s in
  let from := relative_index len (ToIntegerOrInfinity start) in
  let to := match end_ with
            | None => len
            | Some e => relative_index len (ToIntegerOrInfinity e)
            end in
  if to <=? from then [] else extract s from to.

(** ** source.ts: SourceFragment *)

Record SourceFragment : Type := mkSourceFragment {
  text : jsstring;
  row : Z;
  column : Z;
  source : option jsstring;
  lineText : jsstring
}.

Record SourceFragmentInit : Type := mkInit {
  init_row : option Z;
  init_column : option Z;
  init_source : option jsstring;
  init_lineText : option jsstring
}.

(** [text.replace(/\r?\n$/, '')] *)
Definition strip_final_newline (s : jsstring) : jsstring :=
  match rev s with
  | 10%N :: 13%N :: r => rev r
  | 10%N :: r => rev r
  | _ => s
  end.

(** The constructor. *)
Definition new_SourceFragment (t : jsstring) (init : SourceFragmentInit)
  : SourceFragment :=
  {| text := t;
     row := default 1 (init_row init);
     column := default 1 (init_column init);
     source := init_source init;
     lineText := default (strip_final_newline t) (init_lineText init) |}.

(** [clamp(value, min, max)] *)
Definition clamp (value min max : Number) : Number :=
  if isNaN value then min else Math_min (Math_max value min) max.

(** One turn of the loop of [advance] on the code unit [ch]. *)
Definition advance_char (ch : N) (rc : Z * Z) : Z * Z :=
  let '(r, c) := rc in
  if N.eqb ch LF then (r + 1, 1)
  else if N.eqb ch CR then (r, 1)
  else (r, c + 1).

(** The loop [for (i = 0; i < length; i += 1)] of [advance]; [rest] is the
    text from index [i] on.  [length] never exceeds the length of the text,
    so the loop ends before [rest] is exhausted. *)
Fixpoint advance_loop (rest : jsstring) (i : Z) (length : Number)
  (rc : Z * Z) : Z * Z :=
  if num_ltb (ofZ i) length then
    match rest with
    | [] => rc
    | ch :: rest' => advance_loop rest' (i + 1) length (advance_char ch rc)
    end
  else rc.

Definition advance (f : SourceFragment) (offset : Number) : Z * Z :=
  let length := Math_min (Math_max offset (ofZ 0)) (ofZ (jslength (text f))) in
  advance_loop (text f) 0 length (row f, column f).

Definition actualStart (f : SourceFragment) (start : option Number) : Number :=
  clamp (default (ofZ 0) start) (ofZ 0) (ofZ (jslength (text f))).

Definition actualEnd (f : SourceFragment) (start end_ : option Number)
  : Number :=
  clamp (default (ofZ (jslength (text f))) end_)
        (actualStart f start) (ofZ (jslength (text f))).

(** [slice(start = 0, end?)] *)
Definition slice (f : SourceFragment) (start end_ : option Number)
  : SourceFragment :=
  let a := actualStart f start in
  let b := actualEnd f start end_ in
  let newText := String_slice (text f) a (Some b) in
  let '(r, c) := advance f a in
  new_SourceFragment newText
    {| init_row := Some r; init_column := Some c;
       init_source := source f; init_lineText := Some (lineText f) |}.

(** [withText(text)] *)
Definition withText (f : SourceFragment) (t : jsstring) : SourceFragment :=
  new_SourceFragment t
    {| init_row := Some (row f); init_column := Some (column f);
       init_source := source f; init_lineText := Some (lineText f) |}.

(** The position rule as the specification words it: a newline moves to the
    next row and resets the column, every other character moves one column
    to the right. *)
Definition spec_advance_char (ch : N) (rc : Z * Z) : Z * Z :=
  let '(r, c) := rc in
  if N.eqb ch LF then (r + 1, 1) else (r, c + 1).

Definition consumed (step : N -> Z * Z -> Z * Z) (s : jsstring) (rc : Z * Z)
  : Z * Z :=
  fold_left (fun acc ch => step ch acc) s rc.

(** ** Errors and outcomes

    The code throws [TycoError] with a message; the kinds below name the
    raise sites.  Where the specification names a kind for a message its
    name is used; the remaining sites keep a name of their own.  The two
    last constructors of [Error] are exceptions of the JavaScript runtime
    itself. *)

Inductive ErrorKind : Type :=
| FileAccess               (* Can only load path if is a regular file *)
| Malformatted             (* Malformatted config file *)
| InvalidComment           (* Invalid characters in comments *)
| MissingColon             (* Schema attribute missing trailing colon *)
| DuplicateGlobal          (* Duplicate global attribute *)
| DuplicateAttr            (* Duplicate attribute found for <a> in T *)
| SchemaAfterInit          (* Can not add schema attributes after initial construction *)
| PrimaryKeyOnArray        (* Cannot set a primary key on an array *)
| StrayColon               (* Colon : found in content - enclose in quotes *)
| BadDelimiter             (* Bad delim *)
| UnclosedString           (* Unclosed triple quote / single-line string *)
| UnknownAttr              (* Cannot access <attr> *)
| UnknownReference         (* Unable to find reference of T(key) *)
| DuplicatePrimaryKey      (* <key> already found for T *)
| MissingAttr              (* Invalid attribute <a> for T *)
| PositionalAfterKeyword   (* Can not use positional values after keyed values *)
| ExpectedArray            (* Array expected for ... / Expected array for ... *)
| InvalidBool              (* Boolean ... not in (true, false) *)
| InvalidNumber            (* named by the specification; no raise site *)
| DoubleRender             (* Rendered multiple times *)
| UnresolvedReferenceInTemplate (* Reference T not resolved for template access *)
| ParentOverflow           (* Traversing parents hit base instance *)
| UntemplatableType        (* Can not templatize objects other than strings or ints *)
| AttributesNotSet         (* Attributes not set *)
| UnknownType              (* Unknown type of <typeName> *)
| BadTypeName              (* Bad type name for reference *)
| TypeMismatch             (* Expected T for ... and instead have ... *)
| StructExpected           (* T expected for <content>, likely needs T(<content>) *)
| ArraySchemaExpected      (* Schema for ... needs to indicate array with [] *)
| EmptyTemplate            (* Empty template content *)
| ShouldNotHappen.         (* This should not happen: T in defaults *)

Inductive Error : Type :=
| TycoError (k : ErrorKind)
| TypeError
| RangeError.

(** What a call does: it returns, or it throws.  [OutOfFuel] is the answer of
    the few functions that are evaluated with a bound on the depth of their
    recursion (following resolved references, following [#include]) when the
    bound is reached: no outcome of the call is known at that bound. *)
Inductive Outcome (A : Type) : Type :=
| Ok (a : A)
| Throw (e : Error)
| OutOfFuel.
Arguments Ok {A} a.
Arguments Throw {A} e.
Arguments OutOfFuel {A}.

Definition bind {A B} (m : Outcome A) (k : A -> Outcome B) : Outcome B :=
  match m with
  | Ok a => k a
  | Throw e => Throw e
  | OutOfFuel => OutOfFuel
  end.

Notation "'let!' x ':=' m 'in' k" := (bind m (fun x => k))
  (at level 10, x pattern, m at level 200, k at level 200,
   format "'[v' 'let!'  x  ':='  m  'in' '/' k ']'").

Definition fail {A} (k : ErrorKind) : Outcome A := Throw (TycoError k).

(** [for (x of l) { acc = f(acc, x) }] with exceptions. *)
Definition foldM {A S} (f : S -> A -> Outcome S) : list A -> S -> Outcome S :=
  fix go l s :=
    match l with
    | [] => Ok s
    | x :: l' => let! s' := f s x in go l' s'
    end.

Definition mapM {A B} (f : A -> Outcome B) : list A -> Outcome (list B) :=
  fix go l :=
    match l with
    | [] => Ok []
    | x :: l' => let! y := f x in let! ys := go l' in Ok (y :: ys)
    end.

(** A property that is [null], [undefined] or holds a value. *)
Inductive JSOpt (A : Type) : Type :=
| JNull
| JUndefined
| JVal (a : A).
Arguments JNull {A}.
Arguments JUndefined {A}.
Arguments JVal {A} a.

(** ** More of the String object *)

Definition jseqb (a b : jsstring) : bool := bool_decide (a = b).

(** [s.substring(a, b)]: both indices clamped into [0, length], swapped when
    out of order. *)
Definition substring (s : jsstring) (a b : Z) : jsstring :=
  let len := jslength s in
  let a' := Z.min (Z.max a 0) len in
  let b' := Z.min (Z.max b 0) len in
  extract s (Z.min a' b') (Z.max a' b').

(** White space and line terminators ([\s], [trim], [parseInt]). *)
Definition isWhiteSpace (c : N) : bool :=
  existsb (N.eqb c) [9; 10; 11; 12; 13; 32; 160; 5760; 8232; 8233; 8239;
                     8287; 12288; 65279]%N
  || ((8192 <=? c) && (c <=? 8202))%N.

Fixpoint trimStart (s : jsstring) : jsstring :=
  match s with
  | c :: s' => if isWhiteSpace c then trimStart s' else s
  | [] => []
  end.

Definition trimEnd (s : jsstring) : jsstring := rev (trimStart (rev s)).
Definition trim (s : jsstring) : jsstring := trimEnd (trimStart s).

Definition isDigit (c : N) : bool := ((48 <=? c) && (c <=? 57))%N.

(** [s.padEnd(6, '0').slice(0, 6)] *)
Definition pad6 (s : jsstring) : jsstring := firstn 6 (s ++ js "000000").

(** ** The platform

    [os.EOL], and the two conversions between strings and doubles that are
    not integers: [parseFloat], and [String(x)] for a finite [x] that is
    not an integer below 10^21. *)
Class Platform : Type := {
  EOL : jsstring;
  parseFloat : jsstring -> Number;
  float_toString : Q -> jsstring
}.

(** ** parseInt and Number to string *)

(** The value of a code unit as a digit: 0-9, a-z and A-Z. *)
Definition digit_value (c : N) : option Z :=
  if ((48 <=? c) && (c <=? 57))%N then Some (Z.of_N c - 48)
  else if ((97 <=? c) && (c <=? 122))%N then Some (Z.of_N c - 87)
  else if ((65 <=? c) && (c <=? 90))%N then Some (Z.of_N c - 55)
  else None.

Definition is_radix_digit (R : Z) (c : N) : bool :=
  match digit_value c with
  | Some d => d <? R
  | None => false
  end.

(** The longest prefix of radix-[R] digits. *)
Fixpoint radix_prefix (R : Z) (s : jsstring) : jsstring :=
  match s with
  | c :: s' => if is_radix_digit R c then c :: radix_prefix R s' else []
  | [] => []
  end.

Definition radix_value (R : Z) (ds : jsstring) : Z :=
  fold_left (fun acc c => acc * R + default 0 (digit_value c)) ds 0.

(** The Number value of a mathematical integer: the nearest double, and of
    two doubles at the same distance the one with the even significand
    ([roundTiesToEven]); from 2^1024 - 2^970 on it is an infinity.  A double
    has 53 significant bits: [e] is the exponent of the last of them, [q]
    the significand cut there and [r] what was cut. *)
Definition round_double (z : Z) : Number :=
  let a := Z.abs z in
  let e := Z.max 0 (Z.log2 a - 52) in
  let q := a / 2 ^ e in
  let r := a mod 2 ^ e in
  let q' := if 2 * r <? 2 ^ e then q
            else if 2 ^ e <? 2 * r then q + 1
            else if Z.even q then q else q + 1 in
  let m := q' * 2 ^ e in
  if 2 ^ 1024 <=? m then (if z <? 0 then NegInf else PosInf)
  else Fin (inject_Z (Z.sgn z * m)).

(** What [round_double] is to compute, in the words of IEEE 754 for
    binary64.  The integers that are doubles are the [m * 2^e] with a
    significand [m] below 2^53 and [e] up to 971; the doubles that are not
    integers are below 2^52 in magnitude, and every integer up to 2^53 is a
    double, so the double nearest to an integer is an integer.  [r] is the
    Number value of [z] when it is the double nearest to [z], the one with
    an even significand when two doubles are equally near, and an infinity
    from 2^1024 - 2^970 on. *)
Definition is_double (d : Z) : Prop :=
  exists m e, 0 <= m < 2 ^ 53 /\ 0 <= e <= 971 /\ Z.abs d = m * 2 ^ e.

Definition even_double (d : Z) : Prop :=
  exists m e, 2 ^ 52 <= m < 2 ^ 53 /\ 0 <= e <= 971 /\
              Z.abs d = m * 2 ^ e /\ Z.even m = true.

Definition Number_value (z : Z) (r : Number) : Prop :=
  if Z.abs z <? 2 ^ 1024 - 2 ^ 970 then
    exists d,
      r = ofZ d /\ is_double d /\
      forall d', is_double d' -> d' <> d ->
        Z.abs (d - z) < Z.abs (d' - z) \/
        Z.abs (d - z) = Z.abs (d' - z) /\ even_double d
  else r = if z <? 0 then NegInf else PosInf.

(** [a * b] for a sign [a] (1 or -1) and a number. *)
Definition sign_times (a : Z) (b : Number) : Number :=
  match b with
  | NaN => NaN
  | PosInf => if a <? 0 then NegInf else PosInf
  | NegInf => if a <? 0 then PosInf else NegInf
  | Fin q => Fin (inject_Z a * q)
  end.

(** The built-in [parseInt(string, radix)] of ECMAScript for a radix from
    2 to 36: leading white space is skipped, then one sign, then (radix 16
    only) one [0x] or [0X]; the longest run of digits of the radix is the
    magnitude, and an empty run gives NaN.  [parseInt_run] is the sign and
    the run.  The result is the sign times the Number value of the
    magnitude, a double: above 2^53 the magnitude is rounded.  (For radix 10
    ECMAScript lets an implementation replace the digits after the 20th by
    zeros before rounding; V8 rounds the exact magnitude, as here.) *)
Definition parseInt_run (s : jsstring) (R : Z) : Z * jsstring :=
  let s1 := trimStart s in
  let '(sign, s2) :=
    match s1 with
    | c :: r => if N.eqb c 45 then (-1, r)
                else if N.eqb c 43 then (1, r) else (1, s1)
    | [] => (1, s1)
    end in
  let s3 :=
    if R =? 16 then
      match s2 with
      | z :: x :: r =>
          if N.eqb z 48 && (N.eqb x 120 || N.eqb x 88) then r else s2
      | _ => s2
      end
    else s2 in
  (sign, radix_prefix R s3).

Definition parseInt (s : jsstring) (R : Z) : Number :=
  let '(sign, ds) := parseInt_run s R in
  match ds with
  | [] => NaN
  | _ => sign_times sign (round_double (radix_value R ds))
  end.

Definition decimal_of_Z (z : Z) : jsstring :=
  js (DecimalString.NilZero.string_of_int (Z.to_int z)).

Definition is_small_integer (q : Q) : bool :=
  (Z.rem (Qnum q) (Zpos (Qden q)) =? 0)
  && (Z.abs (Qnum q / Zpos (Qden q)) <? 10 ^ 21).

(** Whether the Number value of the integer [c] is the integer [v]. *)
Definition rounds_to (c v : Z) : bool :=
  match round_double c with
  | Fin q => Qeq_bool q (inject_Z v)
  | _ => false
  end.

(** The digits of [String(v)] for an integer [0 <= v < 10^21]
    (Number::toString of ECMAScript, with its note on the choice of the
    digits): the digits [s] and the zeros after them are those of an integer
    [s * 10^j] whose Number value is [v], with as few digits [s] as there
    can be, that is with [j] as large as can be; of two such integers the
    one nearer to [v], and at the same distance the one with [s] even.  The
    nearest multiples of [10^j] are the one below [v], [lo], and the one
    above, [hi].  Up to 2^53 the integer is [v] itself. *)
Fixpoint shortest_round_trip (j : nat) (v : Z) : Z :=
  let p := 10 ^ Z.of_nat j in
  let lo := v / p * p in
  let hi := lo + p in
  let ok_lo := (0 <? lo) && rounds_to lo v in
  let ok_hi := rounds_to hi v in
  if ok_lo && ok_hi then
    if v - lo <? hi - v then lo
    else if hi - v <? v - lo then hi
    else if Z.even (lo / p) then lo else hi
  else if ok_lo then lo
  else if ok_hi then hi
  else match j with
       | O => v
       | S j' => shortest_round_trip j' v
       end.

(** [String(n)] for a number. *)
Definition Number_toString `{Platform} (n : Number) : jsstring :=
  match n with
  | NaN => js "NaN"
  | PosInf => js "Infinity"
  | NegInf => js "-Infinity"
  | Fin q =>
      if is_small_integer q then
        let z := Qnum q / Zpos (Qden q) in
        decimal_of_Z (Z.sgn z * shortest_round_trip 21 (Z.abs z))
      else float_toString q
  end.

(** ** JavaScript values

    The values that [rendered], [toJSON] and [toObject] produce.  A
    TycoInstance object is named by the struct it was declared in and its
    index in that struct's [instances]: [mappedInstances] and the
    [rendered] of a resolved reference hold such a handle, never a copy. *)

Definition InstanceRef : Type := jsstring * nat.

Inductive JSValue : Type :=
| VUndefined
| VNull
| VBool (b : bool)
| VNum (n : Number)
| VStr (s : jsstring)
| VSymbol                       (* the UNRENDERED symbol *)
| VArr (elems : list JSValue)
| VObj (proto : option JSValue) (props : list (jsstring * JSValue))
| VObjectPrototype              (* Object.prototype *)
| VTycoInstance (r : InstanceRef).

Definition UNRENDERED : JSValue := VSymbol.

Definition is_VNull (v : JSValue) : bool :=
  match v with VNull => true | _ => false end.

(** [{}] *)
Definition empty_object : JSValue := VObj (Some VObjectPrototype) [].

(** Ordered maps: a JavaScript [Map] with string keys, and the own
    properties of an object whose keys are not array indices.  [set] keeps
    the position of a key that is present and appends a new one. *)
Section OrderedMap.
Context {K V : Type} `{EqDecision K}.

Fixpoint map_get (m : list (K * V)) (k : K) : option V :=
  match m with
  | [] => None
  | (k', v) :: m' => if bool_decide (k' = k) then Some v else map_get m' k
  end.

Fixpoint map_set (m : list (K * V)) (k : K) (v : V) : list (K * V) :=
  match m with
  | [] => [(k, v)]
  | (k', v') :: m' =>
      if bool_decide (k' = k) then (k, v) :: m' else (k', v') :: map_set m' k v
  end.

Definition map_has (m : list (K * V)) (k : K) : bool :=
  match map_get m k with Some _ => true | None => false end.

Definition map_keys (m : list (K * V)) : list K := m.*1.
Definition map_values (m : list (K * V)) : list V := m.*2.

End OrderedMap.

Definition is_object (v : JSValue) : bool :=
  match v with
  | VArr _ | VObj _ _ | VObjectPrototype | VTycoInstance _ => true
  | _ => false
  end.

(** Whether the [__proto__] accessor of Object.prototype is reached from
    the object [v] along its prototype chain. *)
Fixpoint reaches_Object_prototype (v : JSValue) : bool :=
  match v with
  | VObjectPrototype | VArr _ | VTycoInstance _ => true
  | VObj (Some w) _ => reaches_Object_prototype w
  | _ => false
  end.

Definition proto_key : jsstring := js "__proto__".

(** [o[key] = v] on a plain object.  Every key is an own data property,
    but [__proto__]: while it is not an own property and Object.prototype is
    on the chain, the assignment runs the accessor, which replaces the
    prototype when [v] is an object or null and does nothing otherwise. *)
Definition obj_set (o : JSValue) (key : jsstring) (v : JSValue) : JSValue :=
  match o with
  | VObj proto props =>
      if jseqb key proto_key && negb (map_has props key)
         && reaches_Object_prototype o
      then
        match v with
        | VNull => VObj None props
        | _ => if is_object v then VObj (Some v) props else o
        end
      else VObj proto (map_set props key v)
  | _ => o
  end.

(** The own property [key] of a plain object. *)
Definition own_property (o : JSValue) (key : jsstring) : option JSValue :=
  match o with
  | VObj _ props => map_get props key
  | _ => None
  end.

(** [o[key]] for the keys the parser writes: the own property, and for
    [__proto__] without an own property the prototype that the accessor
    returns. *)
Definition obj_get (o : JSValue) (key : jsstring) : option JSValue :=
  match o with
  | VObj proto props =>
      match map_get props key with
      | Some v => Some v
      | None =>
          if jseqb key proto_key && reaches_Object_prototype o
          then Some (default VNull proto)
          else None
      end
  | _ => None
  end.

Section WithPlatform.
Context `{Platform}.

(** [ToString(v)]; it throws on a symbol. *)
Fixpoint ToString (v : JSValue) : Outcome jsstring :=
  match v with
  | VUndefined => Ok (js "undefined")
  | VNull => Ok (js "null")
  | VBool true => Ok (js "true")
  | VBool false => Ok (js "false")
  | VNum n => Ok (Number_toString n)
  | VStr s => Ok s
  | VSymbol => Throw TypeError
  | VArr elems =>
      (fix join (l : list JSValue) : Outcome jsstring :=
         match l with
         | [] => Ok []
         | x :: l' =>
             let! sx := match x with
                        | VUndefined | VNull => Ok []
                        | _ => ToString x
                        end in
             match l' with
             | [] => Ok sx
             | _ => let! r := join l' in Ok (sx ++ js "," ++ r)
             end
         end) elems
  | VObj _ _ | VObjectPrototype | VTycoInstance _ => Ok (js "[object Object]")
  end.

(** [String(v)]: as [ToString], but a symbol is described. *)
Definition String_of (v : JSValue) : Outcome jsstring :=
  match v with
  | VSymbol => Ok (js "Symbol(unrendered)")
  | _ => ToString v
  end.

(** [l.join(sep)]: undefined and null elements are empty. *)
Fixpoint Array_join (l : list JSValue) (sep : jsstring) : Outcome jsstring :=
  match l with
  | [] => Ok []
  | x :: l' =>
      let! sx := match x with
                 | VUndefined | VNull => Ok []
                 | _ => ToString x
                 end in
      match l' with
      | [] => Ok sx
      | _ => let! r := Array_join l' sep in Ok (sx ++ sep ++ r)
      end
  end.

End WithPlatform.

(** ** Value nodes *)

(** The handle of a container: a global, or an instance declared in a
    struct, then the attributes and array indices that lead to the node. *)
Inductive Root : Type :=
| RGlobal (name : jsstring)
| RInstance (r : InstanceRef).

Inductive Step : Type :=
| SField (name : jsstring)
| SIndex (i : nat).

Definition Path : Type := Root * list Step.

(** The [parent] property: [null], the [globals] Map, or a TycoInstance. *)
Inductive ParentRef : Type :=
| PNull
| PGlobals
| PNode (p : Path).

(** The schema properties every node carries. *)
Record Meta : Type := mkMeta {
  attrName : JSOpt jsstring;
  isNullable : option bool;
  isArray : option bool;
  parent : ParentRef
}.

Definition new_Meta : Meta :=
  {| attrName := JNull; isNullable := None; isArray := None; parent := PNull |}.

Record TycoValue : Type := mkTycoValue {
  content : jsstring;
  typeName : JSOpt jsstring;
  meta : Meta;
  isLiteralStr : bool;
  rendered : JSValue
}.

(** [new TycoValue(context, content)] *)
Definition new_TycoValue (c : jsstring) : TycoValue :=
  {| content := c; typeName := JNull; meta := new_Meta;
     isLiteralStr := false; rendered := UNRENDERED |}.

Inductive Node : Type :=
| NValue (v : TycoValue)
| NArray (tn : JSOpt jsstring) (m : Meta) (elems : list Node)
| NInstance (tn : jsstring) (m : Meta) (instKwargs : list (jsstring * Node))
| NReference (tn : jsstring) (m : Meta) (instArgs : list Node)
             (target : option InstanceRef).

(** The argument of [applySchemaInfo]: an object with some of the four
    keys; [None] is an absent key. *)
Record SchemaInfo : Type := mkSchemaInfo {
  kw_typeName : option (JSOpt jsstring);
  kw_attrName : option (JSOpt jsstring);
  kw_isNullable : option bool;
  kw_isArray : option bool
}.

Definition assign_meta (kw : SchemaInfo) (m : Meta) : Meta :=
  {| attrName := default (attrName m) (kw_attrName kw);
     isNullable := match kw_isNullable kw with
                   | Some b => Some b | None => isNullable m end;
     isArray := match kw_isArray kw with
                | Some b => Some b | None => isArray m end;
     parent := parent m |}.

Definition BASE_TYPES : list jsstring :=
  [js "str"; js "int"; js "bool"; js "float"; js "decimal"; js "date";
   js "time"; js "datetime"].

Definition is_base_type (t : JSOpt jsstring) : bool :=
  match t with
  | JVal s => bool_decide (s ∈ BASE_TYPES)
  | _ => false
  end.

Definition is_null {A} (x : JSOpt A) : bool :=
  match x with JNull => true | _ => false end.

Definition is_true (b : option bool) : bool :=
  match b with Some true => true | _ => false end.

(** [TycoValue.applySchemaInfo] *)
Definition TycoValue_applySchemaInfo (kw : SchemaInfo) (v : TycoValue)
  : Outcome TycoValue :=
  let v := {| content := content v;
              typeName := default (typeName v) (kw_typeName kw);
              meta := assign_meta kw (meta v);
              isLiteralStr := isLiteralStr v;
              rendered := rendered v |} in
  if is_true (isArray (meta v))
     && negb (is_true (isNullable (meta v)) && jseqb (content v) (js "null"))
  then fail ExpectedArray
  else if negb (is_null (typeName v)) && negb (is_base_type (typeName v))
  then fail StructExpected
  else Ok v.

Definition item_SchemaInfo (tn : JSOpt jsstring) (m : Meta) : SchemaInfo :=
  {| kw_typeName := if is_null tn then None else Some tn;
     kw_attrName := if is_null (attrName m) then None else Some (attrName m);
     kw_isNullable := Some false;
     kw_isArray := Some false |}.

(** The typeName test of [TycoInstance.applySchemaInfo] and
    [TycoReference.applySchemaInfo]. *)
Definition same_typeName (tn : jsstring) (kw : SchemaInfo) : bool :=
  match kw_typeName kw with
  | None => true
  | Some (JVal t) => jseqb tn t
  | Some _ => false
  end.

(** [applySchemaInfo] of the four classes. *)
Fixpoint applySchemaInfo (kw : SchemaInfo) (n : Node) : Outcome Node :=
  match n with
  | NValue v => let! v' := TycoValue_applySchemaInfo kw v in Ok (NValue v')
  | NArray tn m elems =>
      let tn' := default tn (kw_typeName kw) in
      let m' := assign_meta kw m in
      let! elems' := mapM (applySchemaInfo (item_SchemaInfo tn' m')) elems in
      if bool_decide (isArray m' = Some false) then fail ArraySchemaExpected
      else Ok (NArray tn' m' elems')
  | NInstance tn m kws =>
      if negb (same_typeName tn kw) then fail TypeMismatch
      else
        let m' := assign_meta kw m in
        if is_true (isArray m') then fail ExpectedArray
        else Ok (NInstance tn m' kws)
  | NReference tn m args target =>
      if negb (same_typeName tn kw) then fail TypeMismatch
      else
        let m' := assign_meta kw m in
        if is_true (isArray m') then fail ExpectedArray
        else Ok (NReference tn m' args target)
  end.

(** ** Literals of time and datetime *)

Definition COLON : N := 58%N.
Definition DOT : N := 46%N.

(** [/^\d{2}:\d{2}:\d{2}$/] *)
Definition is_hms (s : jsstring) : bool :=
  match s with
  | [a; b; c1; d; e; c2; f; g] =>
      isDigit a && isDigit b && N.eqb c1 COLON && isDigit d && isDigit e
      && N.eqb c2 COLON && isDigit f && isDigit g
  | _ => false
  end.

(** [/^\d+$/] *)
Definition is_digits (s : jsstring) : bool :=
  match s with
  | [] => false
  | _ => forallb isDigit s
  end.

(** [normalizeTimeLiteral] *)
Definition normalizeTimeLiteral (value : jsstring) : jsstring :=
  let trimmed := trim value in
  let base := firstn 8 trimmed in
  if is_hms base then
    match skipn 8 trimmed with
    | [] => base
    | c :: rawFraction =>
        if N.eqb c DOT && is_digits rawFraction
        then base ++ [DOT] ++ pad6 rawFraction
        else trimmed
    end
  else trimmed.

(** The text before and after the first occurrence of [c], if any. *)
Fixpoint split_first (c : N) (s : jsstring) : option (jsstring * jsstring) :=
  match s with
  | [] => None
  | x :: s' =>
      if N.eqb x c then Some ([], s')
      else match split_first c s' with
           | Some (a, b) => Some (x :: a, b)
           | None => None
           end
  end.

(** The text before and after the last occurrence of [c], if any. *)
Definition split_last (c : N) (s : jsstring) : option (jsstring * jsstring) :=
  match split_first c (rev s) with
  | Some (a, b) => Some (rev b, rev a)
  | None => None
  end.

(** [/([+-]\d{2}:\d{2})$/] on the last six code units. *)
Definition is_tz (s : jsstring) : bool :=
  match s with
  | [sg; a; b; c; d; e] =>
      (N.eqb sg 43 || N.eqb sg 45) && isDigit a && isDigit b
      && N.eqb c COLON && isDigit d && isDigit e
  | _ => false
  end.

Definition drop_last (n : nat) (s : jsstring) : jsstring :=
  firstn (length s - n) s.

Definition take_last (n : nat) (s : jsstring) : jsstring :=
  skipn (length s - n) s.

(** [normalizeDateTimeLiteral] *)
Definition normalizeDateTimeLiteral (value : jsstring) : jsstring :=
  let normalized := trim value in
  let normalized :=
    match split_first 32 normalized with
    | Some (a, b) => a ++ js "T" ++ b
    | None => normalized
    end in
  let '(tz, normalized) :=
    if endsWith normalized (js "Z") then (js "+00:00", drop_last 1 normalized)
    else if is_tz (take_last 6 normalized)
         then (take_last 6 normalized, drop_last 6 normalized)
         else ([], normalized) in
  let normalized :=
    match split_last DOT normalized with
    | Some (a, fraction) =>
        if is_digits fraction then a ++ [DOT] ++ pad6 fraction else normalized
    | None => normalized
    end in
  normalized ++ tz.

(** ** TycoValue *)

Definition set_rendered (v : TycoValue) (lit : bool) (r : JSValue) : TycoValue :=
  {| content := content v; typeName := typeName v; meta := meta v;
     isLiteralStr := lit; rendered := r |}.

Section Rendering.
Context `{Platform}.

(** The branch for [str] of [renderBaseContent]: the content without its
    delimiters. *)
Definition strip_delimiters (c : jsstring) : jsstring :=
  if startsWith c (js "'''") || startsWith c [34; 34; 34]%N then
    let c := substring c 3 (jslength c - 3) in
    if startsWith c EOL then substring c (jslength EOL) (jslength c) else c
  else if startsWith c (js "'") || startsWith c [34%N] then
    substring c 1 (jslength c - 1)
  else c.

(** The branch for [int] of [renderBaseContent]: [split_sign] is the test
    for a leading sign, [split_base] the tests for a prefix, and [int_parts]
    the [sign], the [base] and the [digits] handed to [parseInt]. *)
Definition split_sign (c : jsstring) : Z * jsstring :=
  if startsWith c (js "-") || startsWith c (js "+")
  then (if startsWith c (js "-") then -1 else 1, substring c 1 (jslength c))
  else (1, c).

Definition split_base (digits : jsstring) : Z * jsstring :=
  match digits with
  | z :: x :: r =>
      if N.eqb z 48 && (N.eqb x 120 || N.eqb x 88) then (16, r)
      else if N.eqb z 48 && (N.eqb x 111 || N.eqb x 79) then (8, r)
      else if N.eqb z 48 && (N.eqb x 98 || N.eqb x 66) then (2, r)
      else (10, digits)
  | _ => (10, digits)
  end.

Definition int_parts (c : jsstring) : Z * Z * jsstring :=
  let '(sign, digits) := split_sign c in
  let '(base, digits) := split_base digits in
  (sign, base, digits).

Definition render_int (c : jsstring) : Number :=
  let '(sign, base, digits) := int_parts c in
  sign_times sign (parseInt digits base).

(** [TycoValue.renderBaseContent] *)
Definition TycoValue_renderBaseContent (v : TycoValue) : Outcome TycoValue :=
  if is_null (typeName v) || is_null (attrName (meta v))
     || bool_decide (isNullable (meta v) = None)
     || bool_decide (isArray (meta v) = None)
  then fail AttributesNotSet
  else
    let c := content v in
    let lit := isLiteralStr v in
    if is_true (isNullable (meta v)) && jseqb c (js "null")
    then Ok (set_rendered v lit VNull)
    else
      match typeName v with
      | JVal t =>
          if jseqb t (js "str") then
            Ok (set_rendered v (startsWith c (js "'")) (VStr (strip_delimiters c)))
          else if jseqb t (js "int") then
            Ok (set_rendered v lit (VNum (render_int c)))
          else if jseqb t (js "float") then
            Ok (set_rendered v lit (VNum (parseFloat c)))
          else if jseqb t (js "decimal") then
            Ok (set_rendered v lit (VNum (parseFloat c)))
          else if jseqb t (js "bool") then
            if jseqb c (js "true") then Ok (set_rendered v lit (VBool true))
            else if jseqb c (js "false") then Ok (set_rendered v lit (VBool false))
            else fail InvalidBool
          else if jseqb t (js "date") then
            Ok (set_rendered v lit (VStr c))
          else if jseqb t (js "time") then
            Ok (set_rendered v lit (VStr (normalizeTimeLiteral c)))
          else if jseqb t (js "datetime") then
            Ok (set_rendered v lit (VStr (normalizeDateTimeLiteral c)))
          else fail UnknownType
      | _ => fail UnknownType
      end.

(** [renderBaseContent] of the four classes; a reference does nothing. *)
Fixpoint renderBaseContent (n : Node) : Outcome Node :=
  match n with
  | NValue v => let! v' := TycoValue_renderBaseContent v in Ok (NValue v')
  | NArray tn m elems =>
      let! elems' := mapM renderBaseContent elems in Ok (NArray tn m elems')
  | NInstance tn m kws =>
      let! kws' := mapM (fun '(a, i) =>
                           let! i' := renderBaseContent i in Ok (a, i')) kws in
      Ok (NInstance tn m kws')
  | NReference _ _ _ _ => Ok n
  end.

End Rendering.

#[global] Instance JSOpt_eq_dec {A} `{EqDecision A} : EqDecision (JSOpt A).
Proof. solve_decision. Defined.

(** ** Structs, the lexer record and the context *)

(** The properties of a TycoLexer: the fragments not yet consumed, the path
    of its file and the defaults of the structs it declared. *)
Record TycoLexer : Type := mkLexer {
  lines : list SourceFragment;
  path : option jsstring;
  defaults : list (jsstring * list (jsstring * Node))
}.

Record TycoStruct : Type := mkStruct {
  struct_typeName : jsstring;
  attrTypes : list (jsstring * jsstring);
  primaryKeys : list jsstring;
  nullableKeys : gset jsstring;
  arrayKeys : gset jsstring;
  instances : list Node;
  mappedInstances : gmap jsstring nat   (* key -> index in [instances] *)
}.

Record TycoContext : Type := mkContext {
  pathCache : gmap jsstring TycoLexer;
  structs : list (jsstring * TycoStruct);
  globals : list (jsstring * Node)
}.

Definition set_instances (s : TycoStruct) (l : list Node) : TycoStruct :=
  {| struct_typeName := struct_typeName s; attrTypes := attrTypes s;
     primaryKeys := primaryKeys s; nullableKeys := nullableKeys s;
     arrayKeys := arrayKeys s; instances := l;
     mappedInstances := mappedInstances s |}.

Definition set_mappedInstances (s : TycoStruct) (m : gmap jsstring nat)
  : TycoStruct :=
  {| struct_typeName := struct_typeName s; attrTypes := attrTypes s;
     primaryKeys := primaryKeys s; nullableKeys := nullableKeys s;
     arrayKeys := arrayKeys s; instances := instances s;
     mappedInstances := m |}.

Definition set_structs (ctx : TycoContext) (l : list (jsstring * TycoStruct))
  : TycoContext :=
  {| pathCache := pathCache ctx; structs := l; globals := globals ctx |}.

Definition set_globals (ctx : TycoContext) (l : list (jsstring * Node))
  : TycoContext :=
  {| pathCache := pathCache ctx; structs := structs ctx; globals := l |}.

Definition set_pathCache (ctx : TycoContext) (c : gmap jsstring TycoLexer)
  : TycoContext :=
  {| pathCache := c; structs := structs ctx; globals := globals ctx |}.

(** ** Handles *)

Definition node_meta (n : Node) : Meta :=
  match n with
  | NValue v => meta v
  | NArray _ m _ | NInstance _ m _ | NReference _ m _ _ => m
  end.

Definition node_typeName (n : Node) : JSOpt jsstring :=
  match n with
  | NValue v => typeName v
  | NArray tn _ _ => tn
  | NInstance tn _ _ | NReference tn _ _ _ => JVal tn
  end.

Fixpoint node_at (n : Node) (steps : list Step) : option Node :=
  match steps with
  | [] => Some n
  | SField a :: r =>
      match n with
      | NInstance _ _ kws =>
          match map_get kws a with
          | Some c => node_at c r
          | None => None
          end
      | _ => None
      end
  | SIndex i :: r =>
      match n with
      | NArray _ _ elems =>
          match elems !! i with
          | Some c => node_at c r
          | None => None
          end
      | _ => None
      end
  end.

Definition instance_at (ctx : TycoContext) (r : InstanceRef) : option Node :=
  match map_get (structs ctx) r.1 with
  | Some s => instances s !! r.2
  | None => None
  end.

Definition root_at (ctx : TycoContext) (r : Root) : option Node :=
  match r with
  | RGlobal g => map_get (globals ctx) g
  | RInstance i => instance_at ctx i
  end.

Definition lookup_path (ctx : TycoContext) (p : Path) : option Node :=
  match root_at ctx p.1 with
  | Some n => node_at n p.2
  | None => None
  end.

(** The node at the end of [steps] replaced by its image under [f]. *)
Fixpoint node_update (f : Node -> Node) (steps : list Step) (n : Node) : Node :=
  match steps with
  | [] => f n
  | SField a :: r =>
      match n with
      | NInstance tn m kws =>
          NInstance tn m
            (map (fun '(k, c) =>
                    if bool_decide (k = a) then (k, node_update f r c)
                    else (k, c)) kws)
      | _ => n
      end
  | SIndex i :: r =>
      match n with
      | NArray tn m elems => NArray tn m (alter (node_update f r) i elems)
      | _ => n
      end
  end.

Definition update_path (ctx : TycoContext) (p : Path) (f : Node -> Node)
  : TycoContext :=
  match p.1 with
  | RGlobal g =>
      set_globals ctx
        (map (fun '(k, c) =>
                if bool_decide (k = g) then (k, node_update f p.2 c)
                else (k, c)) (globals ctx))
  | RInstance (tn, i) =>
      set_structs ctx
        (map (fun '(k, s) =>
                if bool_decide (k = tn)
                then (k, set_instances s
                           (alter (node_update f p.2) i (instances s)))
                else (k, s)) (structs ctx))
  end.

(** What the variable [obj] of a template lookup holds. *)
Inductive Obj : Type :=
| ONull
| OUndefined
| OGlobals            (* the [globals] Map of the context *)
| ONode (n : Node).

(** The object a [parent] property points to.  The handles that [setParent]
    stores always name a node; a handle that names none reads as
    undefined. *)
Definition deref (ctx : TycoContext) (p : ParentRef) : Obj :=
  match p with
  | PNull => ONull
  | PGlobals => OGlobals
  | PNode p =>
      match lookup_path ctx p with
      | Some n => ONode n
      | None => OUndefined
      end
  end.

(** [obj.parent] *)
Definition obj_parent (ctx : TycoContext) (o : Obj) : Outcome Obj :=
  match o with
  | ONull | OUndefined => Throw TypeError
  | OGlobals => Ok OUndefined
  | ONode n => Ok (deref ctx (parent (node_meta n)))
  end.

(** The getter [rendered] of the four classes. *)
Fixpoint node_rendered (n : Node) : JSValue :=
  match n with
  | NValue v => rendered v
  | NArray _ _ elems => VArr (map node_rendered elems)
  | NInstance _ _ kws =>
      fold_left (fun o '(a, i) => obj_set o a (node_rendered i)) kws
                empty_object
  | NReference tn _ _ target =>
      match target with
      | Some r => VTycoInstance r
      | None => UNRENDERED
      end
  end.

(** ** Escape sequences *)

Definition BACKSLASH : N := 92%N.

Definition basic_escape (c : N) : option N :=
  if N.eqb c 92 then Some 92%N
  else if N.eqb c 34 then Some 34%N
  else if N.eqb c 98 then Some 8%N
  else if N.eqb c 116 then Some 9%N
  else if N.eqb c 110 then Some 10%N
  else if N.eqb c 102 then Some 12%N
  else if N.eqb c 114 then Some 13%N
  else None.

(** The first replacement of [subEscapeSequences]: the two-character basic
    escapes, scanned from the left. *)
Fixpoint sub_basic (s : jsstring) : jsstring :=
  match s with
  | [] => []
  | x :: tl =>
      match tl with
      | c :: rest =>
          match (if N.eqb x BACKSLASH then basic_escape c else None) with
          | Some r => r :: sub_basic rest
          | None => x :: sub_basic tl
          end
      | [] => [x]
      end
  end.

Definition isHex (c : N) : bool := is_radix_digit 16 c.

(** [String.fromCodePoint(cp)] *)
Definition fromCodePoint (cp : Z) : Outcome jsstring :=
  if cp <=? 65535 then Ok [Z.to_N cp]
  else if cp <=? 1114111
  then Ok [Z.to_N (55296 + (cp - 65536) / 1024);
           Z.to_N (56320 + (cp - 65536) mod 1024)]
  else Throw RangeError.

(** The second replacement: [\uXXXX] and [\UXXXXXXXX]. *)
Fixpoint sub_unicode (s : jsstring) : Outcome jsstring :=
  match s with
  | [] => Ok []
  | x :: tl =>
      let skip := let! r := sub_unicode tl in Ok (x :: r) in
      match tl with
      | u :: h1 :: h2 :: h3 :: h4 :: r4 =>
          if N.eqb x BACKSLASH && N.eqb u 117
             && forallb isHex [h1; h2; h3; h4]
          then
            let! c := fromCodePoint (radix_value 16 [h1; h2; h3; h4]) in
            let! r := sub_unicode r4 in Ok (c ++ r)
          else
            match r4 with
            | h5 :: h6 :: h7 :: h8 :: r8 =>
                if N.eqb x BACKSLASH && N.eqb u 85
                   && forallb isHex [h1; h2; h3; h4; h5; h6; h7; h8]
                then
                  let! c := fromCodePoint
                              (radix_value 16 [h1; h2; h3; h4; h5; h6; h7; h8]) in
                  let! r := sub_unicode r8 in Ok (c ++ r)
                else skip
            | _ => skip
            end
      | _ => skip
      end
  end.

(** The third replacement, [/\\\s*\r?\n\s*/g] by nothing: a backslash and
    the whole run of white space after it go when the run holds a newline.
    [pending] is the run read after a backslash and whether it held one. *)
Definition flush_continuation (pending : option (jsstring * bool)) : jsstring :=
  match pending with
  | Some (w, lf) => if lf then [] else BACKSLASH :: w
  | None => []
  end.

Fixpoint sub_continuation (pending : option (jsstring * bool)) (s : jsstring)
  : jsstring :=
  match s with
  | [] => flush_continuation pending
  | c :: rest =>
      let start :=
        if N.eqb c BACKSLASH then sub_continuation (Some ([], false)) rest
        else c :: sub_continuation None rest in
      match pending with
      | Some (w, lf) =>
          if isWhiteSpace c
          then sub_continuation (Some (w ++ [c], lf || N.eqb c LF)) rest
          else flush_continuation pending ++ start
      | None => start
      end
  end.

(** [subEscapeSequences] *)
Definition subEscapeSequences (c : jsstring) : Outcome jsstring :=
  let! escaped := sub_unicode (sub_basic c) in
  Ok (sub_continuation None escaped).

(** ** Templates *)

Definition isWordChar (c : N) : bool :=
  isDigit c || ((97 <=? c) && (c <=? 122))%N || ((65 <=? c) && (c <=? 90))%N
  || N.eqb c 95.

Definition isTemplateChar (c : N) : bool := isWordChar c || N.eqb c DOT.

Definition LBRACE : N := 123%N.
Definition RBRACE : N := 125%N.

(** [s.replace(/\{([\w\.]+)\}/g, f)]: [pending] is the run of [\w.] read
    after an opening brace.  Such a run holds no brace, so when it does not
    end in a closing brace the search resumes at the character that ended
    it. *)
Fixpoint replace_templates (f : jsstring -> Outcome jsstring)
  (pending : option jsstring) (s : jsstring) : Outcome jsstring :=
  match s with
  | [] =>
      match pending with
      | Some run => Ok (LBRACE :: run)
      | None => Ok []
      end
  | c :: rest =>
      let start :=
        if N.eqb c LBRACE then replace_templates f (Some []) rest
        else let! r := replace_templates f None rest in Ok (c :: r) in
      match pending with
      | Some run =>
          if isTemplateChar c then replace_templates f (Some (run ++ [c])) rest
          else if N.eqb c RBRACE && negb (bool_decide (run = []))
          then let! r := f run in
               let! tl := replace_templates f None rest in Ok (r ++ tl)
          else let! tl := start in Ok (LBRACE :: run ++ tl)
      | None => start
      end
  end.

(** [s.split('.')] *)
Fixpoint split_dots (cur : jsstring) (s : jsstring) : list jsstring :=
  match s with
  | [] => [cur]
  | c :: rest =>
      if N.eqb c DOT then cur :: split_dots [] rest
      else split_dots (cur ++ [c]) rest
  end.

Definition is_truthy_name (t : JSOpt jsstring) : bool :=
  match t with
  | JVal (_ :: _) => true
  | _ => false
  end.

Section Templates.
Context `{Platform}.
Variable ctx : TycoContext.

(** [tryGetAttr(target, attr)]; [None] is undefined. *)
Definition tryGetAttr (target : Obj) (attr : jsstring) : Outcome (option Node) :=
  match target with
  | OGlobals => Ok (map_get (globals ctx) attr)
  | ONode (NReference tn _ _ target) =>
      match target with
      | None => fail UnresolvedReferenceInTemplate
      | Some r =>
          match instance_at ctx r with
          | Some (NInstance _ _ kws) => Ok (map_get kws attr)
          | _ => Throw TypeError
          end
      end
  | ONode (NInstance _ _ kws) => Ok (map_get kws attr)
  | _ => Ok None
  end.

(** The loop over the leading dots: one parent per dot. *)
Fixpoint hop_parents (varPath : jsstring) (obj : Obj) : Outcome (jsstring * Obj) :=
  match varPath with
  | c :: rest =>
      if N.eqb c DOT then
        let! obj' := obj_parent ctx obj in
        match obj' with
        | ONull => fail ParentOverflow
        | _ => hop_parents rest obj'
        end
      else Ok (varPath, obj)
  | [] => Ok (varPath, obj)
  end.

(** The loop [while (queue.length > 0)] with [queue = attr :: rest]. *)
Fixpoint walk_queue (firstSegment : jsstring) (attr : jsstring)
  (rest : list jsstring) (obj : Obj) : Outcome Obj :=
  let! value := tryGetAttr obj attr in
  match value with
  | Some n =>
      match rest with
      | [] => Ok (ONode n)
      | attr' :: rest' => walk_queue firstSegment attr' rest' (ONode n)
      end
  | None =>
      match rest with
      | second :: rest' =>
          walk_queue firstSegment (attr ++ [DOT] ++ second) rest' obj
      | [] =>
          if jseqb attr (js "global") && jseqb firstSegment (js "global")
          then Ok OGlobals
          else fail UnknownAttr
      end
  end.

Definition obj_typeName (o : Obj) : JSOpt jsstring :=
  match o with
  | ONode n => node_typeName n
  | _ => JUndefined
  end.

Definition obj_rendered (o : Obj) : JSValue :=
  match o with
  | ONode n => node_rendered n
  | _ => VUndefined
  end.

(** The callback [templateRender] of [renderTemplates] for a value whose
    parent is [par]. *)
Definition templateRender (par : ParentRef) (templateVar : jsstring)
  : Outcome jsstring :=
  let obj := deref ctx par in
  let! (varPath, obj) :=
    if startsWith templateVar (js "..")
    then hop_parents (substring templateVar 1 (jslength templateVar)) obj
    else Ok (templateVar, obj) in
  match (match varPath with [] => [] | _ => split_dots [] varPath end) with
  | [] => fail EmptyTemplate
  | firstSegment :: rest =>
      let! obj := walk_queue firstSegment firstSegment rest obj in
      if is_truthy_name (obj_typeName obj)
         && negb (bool_decide (obj_typeName obj = JVal (js "str"))
                  || bool_decide (obj_typeName obj = JVal (js "int")))
      then fail UntemplatableType
      else String_of (obj_rendered obj)
  end.

(** [TycoValue.renderTemplates] *)
Definition TycoValue_renderTemplates (v : TycoValue) : Outcome TycoValue :=
  if negb (bool_decide (typeName v = JVal (js "str"))) || isLiteralStr v
  then Ok v
  else if is_true (isNullable (meta v)) && is_VNull (rendered v)
  then Ok v
  else
    match rendered v with
    | VStr s =>
        let! r := replace_templates (templateRender (parent (meta v))) None s in
        let! r := subEscapeSequences r in
        Ok (set_rendered v (isLiteralStr v) (VStr r))
    | _ => Throw TypeError
    end.

End Templates.

(** ** setParent *)

Definition set_parent (m : Meta) (p : ParentRef) : Meta :=
  {| attrName := attrName m; isNullable := isNullable m;
     isArray := isArray m; parent := p |}.

Definition TycoValue_setParent (v : TycoValue) (p : ParentRef) : TycoValue :=
  {| content := content v; typeName := typeName v;
     meta := set_parent (meta v) p;
     isLiteralStr := isLiteralStr v; rendered := rendered v |}.

(** [setParent(parent)] of the four classes; [self] is the handle of the
    node itself.  The elements of an array get the parent of the array. *)
Fixpoint setParent (self : Path) (par : ParentRef) (n : Node) : Node :=
  match n with
  | NValue v => NValue (TycoValue_setParent v par)
  | NReference tn m args t => NReference tn (set_parent m par) args t
  | NArray tn m elems =>
      NArray tn (set_parent m par)
        ((fix go (i : nat) (l : list Node) : list Node :=
            match l with
            | [] => []
            | c :: l' =>
                setParent (self.1, self.2 ++ [SIndex i]) par c :: go (S i) l'
            end) 0%nat elems)
  | NInstance tn m kws =>
      NInstance tn (set_parent m par)
        (map (fun '(a, c) =>
                (a, setParent (self.1, self.2 ++ [SField a]) (PNode self) c))
             kws)
  end.

(** [l] with the index of each element. *)
Definition indexed {A} (l : list A) : list (nat * A) :=
  zip (seq 0 (length l)) l.

(** ** TycoStruct *)

Definition is_falsy_name (t : JSOpt jsstring) : bool := negb (is_truthy_name t).

Section Structs.
Context `{Platform}.

(** [primaryKeys.map(k => kwargs.get(k).rendered)]; reading [rendered] of
    undefined is a TypeError. *)
Definition primary_values {K} `{EqDecision K} (wrap : jsstring -> K)
  (pks : list jsstring) (kws : list (K * Node)) : Outcome (list JSValue) :=
  mapM (fun k => match map_get kws (wrap k) with
                 | Some n => Ok (node_rendered n)
                 | None => Throw TypeError
                 end) pks.

(** The key of an instance: the rendered primary-key attributes joined
    with [\0]. *)
Definition instance_key (pks : list jsstring) (inst : Node) : Outcome jsstring :=
  match inst with
  | NInstance _ _ kws =>
      let! vals := primary_values id pks kws in Array_join vals [0%N]
  | _ => Throw TypeError
  end.

(** One turn of the loop of [loadPrimaryKeys]. *)
Definition index_instance (pks : list jsstring) (m : gmap jsstring nat)
  (entry : nat * Node) : Outcome (gmap jsstring nat) :=
  let! key := instance_key pks entry.2 in
  match m !! key with
  | Some _ => fail DuplicatePrimaryKey
  | None => Ok (<[key := entry.1]> m)
  end.

(** [TycoStruct.loadPrimaryKeys] *)
Definition loadPrimaryKeys (s : TycoStruct) : Outcome TycoStruct :=
  match primaryKeys s with
  | [] => Ok s
  | pks =>
      let! m := foldM (index_instance pks) (indexed (instances s))
                      (mappedInstances s) in
      Ok (set_mappedInstances s m)
  end.

(** The state of the loop of [loadReference]: [kwargsOnly], [instKwargs]
    (whose keys may be undefined) and the arguments already processed. *)
Definition RefLoop : Type :=
  bool * list (JSOpt jsstring * Node) * list Node.

Definition struct_typeOf (s : TycoStruct) (a : JSOpt jsstring)
  : JSOpt jsstring :=
  match a with
  | JVal k => match map_get (attrTypes s) k with
              | Some t => JVal t
              | None => JUndefined
              end
  | _ => JUndefined
  end.

Definition in_keys (ks : gset jsstring) (a : JSOpt jsstring) : bool :=
  match a with
  | JVal k => bool_decide (k ∈ ks)
  | _ => false
  end.

Definition schema_of (s : TycoStruct) (a : JSOpt jsstring) : SchemaInfo :=
  {| kw_typeName := Some (struct_typeOf s a);
     kw_attrName := Some a;
     kw_isNullable := Some (in_keys (nullableKeys s) a);
     kw_isArray := Some (in_keys (arrayKeys s) a) |}.

(** One turn of the loop of [loadReference] on argument [i]. *)
Definition reference_arg (s : TycoStruct) (st : RefLoop) (entry : nat * Node)
  : Outcome RefLoop :=
  let '(kwargsOnly, instKwargs, done) := st in
  let '(i, attr) := entry in
  let! (a, kwargsOnly) :=
    if is_falsy_name (attrName (node_meta attr)) then
      if kwargsOnly then fail PositionalAfterKeyword
      else Ok (match primaryKeys s !! i with
               | Some k => JVal k
               | None => JUndefined
               end, kwargsOnly)
    else Ok (attrName (node_meta attr), true) in
  let! attr := applySchemaInfo (schema_of s a) attr in
  let! attr := renderBaseContent attr in
  Ok (kwargsOnly, map_set instKwargs a attr, done ++ [attr]).

(** The first part of [loadReference]: the arguments as the loop leaves
    them, and the key joined from their rendered values. *)
Definition reference_key (s : TycoStruct) (instArgs : list Node)
  : Outcome (list Node * jsstring) :=
  let! (_, instKwargs, args) :=
    foldM (reference_arg s) (indexed instArgs) (false, [], []) in
  let! vals := primary_values JVal (primaryKeys s) instKwargs in
  let! key := Array_join vals [0%N] in
  Ok (args, key).

(** [TycoStruct.loadReference]: the arguments as the call leaves them and
    the index of the instance found. *)
Definition loadReference (s : TycoStruct) (instArgs : list Node)
  : Outcome (list Node * nat) :=
  let! (args, key) := reference_key s instArgs in
  match mappedInstances s !! key with
  | None => fail UnknownReference
  | Some i => Ok (args, i)
  end.

(** [TycoReference.renderReferences] *)
Definition TycoReference_renderReferences (ctx : TycoContext)
  (tn : jsstring) (m : Meta) (instArgs : list Node)
  (target : option InstanceRef) : Outcome Node :=
  match target with
  | Some _ => fail DoubleRender
  | None =>
      match map_get (structs ctx) tn with
      | None => fail BadTypeName
      | Some s =>
          let! (args, i) := loadReference s instArgs in
          Ok (NReference tn m args (Some (tn, i)))
      end
  end.

Definition map_kwargs (f : Node -> Outcome Node) (kws : list (jsstring * Node))
  : Outcome (list (jsstring * Node)) :=
  mapM (fun '(a, i) => let! i' := f i in Ok (a, i')) kws.

(** [renderReferences] of the four classes. *)
Fixpoint renderReferences (ctx : TycoContext) (n : Node) : Outcome Node :=
  match n with
  | NValue _ => Ok n
  | NArray tn m elems =>
      let! elems' := mapM (renderReferences ctx) elems in
      Ok (NArray tn m elems')
  | NInstance tn m kws =>
      let! kws' := mapM (fun '(a, i) =>
                           let! i' := renderReferences ctx i in Ok (a, i')) kws in
      Ok (NInstance tn m kws')
  | NReference tn m args target =>
      TycoReference_renderReferences ctx tn m args target
  end.

(** [renderTemplates] of the four classes, on the node at handle [p].  The
    node is walked along [shape], its state when the call starts; each value
    is read from, and written back to, the context as it is at that time, so
    that a template sees what earlier values have become. *)
Fixpoint renderTemplates (shape : Node) (p : Path) (ctx : TycoContext)
  : Outcome TycoContext :=
  match shape with
  | NValue _ =>
      match lookup_path ctx p with
      | Some (NValue v) =>
          let! v' := TycoValue_renderTemplates ctx v in
          Ok (update_path ctx p (fun _ => NValue v'))
      | _ => Throw TypeError
      end
  | NArray _ _ elems =>
      (fix go (i : nat) (l : list Node) (ctx : TycoContext)
         : Outcome TycoContext :=
         match l with
         | [] => Ok ctx
         | c :: l' =>
             let! ctx := renderTemplates c (p.1, p.2 ++ [SIndex i]) ctx in
             go (S i) l' ctx
         end) 0%nat elems ctx
  | NInstance _ _ kws =>
      (fix go (l : list (jsstring * Node)) (ctx : TycoContext)
         : Outcome TycoContext :=
         match l with
         | [] => Ok ctx
         | (a, c) :: l' =>
             let! ctx := renderTemplates c (p.1, p.2 ++ [SField a]) ctx in
             go l' ctx
         end) kws ctx
  | NReference _ _ _ _ => Ok ctx
  end.

(** ** TycoContext: the render pipeline *)

Definition map_instances (f : Node -> Outcome Node) (s : TycoStruct)
  : Outcome TycoStruct :=
  let! l := mapM f (instances s) in Ok (set_instances s l).

Definition map_structs (f : TycoStruct -> Outcome TycoStruct)
  (l : list (jsstring * TycoStruct)) : Outcome (list (jsstring * TycoStruct)) :=
  mapM (fun '(k, s) => let! s' := f s in Ok (k, s')) l.

Definition Context_setParents (ctx : TycoContext) : TycoContext :=
  let g := map (fun '(a, attr) => (a, setParent (RGlobal a, []) PGlobals attr))
               (globals ctx) in
  let ss := map (fun '(k, s) =>
                   (k, set_instances s
                         (map (fun '(i, inst) =>
                                 setParent (RInstance (k, i), []) PNull inst)
                              (indexed (instances s)))))
                (structs ctx) in
  set_structs (set_globals ctx g) ss.

Definition Context_renderBaseContent (ctx : TycoContext) : Outcome TycoContext :=
  let! g := map_kwargs renderBaseContent (globals ctx) in
  let! ss := map_structs (map_instances renderBaseContent) (structs ctx) in
  Ok (set_structs (set_globals ctx g) ss).

Definition Context_loadPrimaryKeys (ctx : TycoContext) : Outcome TycoContext :=
  let! ss := map_structs loadPrimaryKeys (structs ctx) in
  Ok (set_structs ctx ss).

(** No call of [renderReferences] changes what [loadReference] reads of a
    struct (its schema and [mappedInstances]), so every reference is
    resolved against the structs as the phase found them. *)
Definition Context_renderReferences (ctx : TycoContext) : Outcome TycoContext :=
  let! g := map_kwargs (renderReferences ctx) (globals ctx) in
  let! ss := map_structs (map_instances (renderReferences ctx)) (structs ctx) in
  Ok (set_structs (set_globals ctx g) ss).

Definition Context_renderTemplates (ctx : TycoContext) : Outcome TycoContext :=
  let! ctx := foldM (fun ctx '(a, attr) => renderTemplates attr (RGlobal a, []) ctx)
                    (globals ctx) ctx in
  foldM (fun ctx '(k, s) =>
           foldM (fun ctx '(i, inst) =>
                    renderTemplates inst (RInstance (k, i), []) ctx)
                 (indexed (instances s)) ctx)
        (structs ctx) ctx.

(** [TycoContext.renderContent] *)
Definition renderContent (ctx : TycoContext) : Outcome TycoContext :=
  let ctx := Context_setParents ctx in
  let! ctx := Context_renderBaseContent ctx in
  let! ctx := Context_loadPrimaryKeys ctx in
  let! ctx := Context_renderReferences ctx in
  Context_renderTemplates ctx.

(** ** Serialization *)

(** [toJSON] of the four classes.  A resolved reference answers with the
    [toJSON] of its instance; [fuel] bounds the depth of the calls. *)
Fixpoint toJSON (fuel : nat) (ctx : TycoContext) (n : Node) : Outcome JSValue :=
  match fuel with
  | O => OutOfFuel
  | S fuel' =>
      match n with
      | NValue v => Ok (rendered v)
      | NArray _ _ elems =>
          let! l := mapM (toJSON fuel' ctx) elems in Ok (VArr l)
      | NInstance _ _ kws =>
          foldM (fun o '(a, i) =>
                   let! j := toJSON fuel' ctx i in Ok (obj_set o a j))
                kws empty_object
      | NReference _ _ _ target =>
          match target with
          | None => Throw TypeError
          | Some r =>
              match instance_at ctx r with
              | Some inst => toJSON fuel' ctx inst
              | None => Throw TypeError
              end
          end
      end
  end.

(** The callback of [struct.instances.map] in [toObject]. *)
Definition instance_entry (fuel : nat) (ctx : TycoContext) (instance : Node)
  : Outcome JSValue :=
  match instance with
  | NInstance _ _ kws =>
      foldM (fun entry '(fieldName, value) =>
               let! j := toJSON fuel ctx value in Ok (obj_set entry fieldName j))
            kws empty_object
  | _ => Throw TypeError
  end.

(** The first loop of [toObject]: the globals. *)
Definition globals_object (fuel : nat) (ctx : TycoContext) : Outcome JSValue :=
  foldM (fun result '(name, attr) =>
           let! j := toJSON fuel ctx attr in Ok (obj_set result name j))
        (globals ctx) empty_object.

(** One turn of the second loop of [toObject]. *)
Definition struct_entry (fuel : nat) (ctx : TycoContext) (result : JSValue)
  (entry : jsstring * TycoStruct) : Outcome JSValue :=
  match primaryKeys entry.2 with
  | [] => Ok result
  | _ =>
      let! l := mapM (instance_entry fuel ctx) (instances entry.2) in
      Ok (obj_set result entry.1 (VArr l))
  end.

(** [TycoContext.toObject] *)
Definition toObject (fuel : nat) (ctx : TycoContext) : Outcome JSValue :=
  let! result := globals_object fuel ctx in
  foldM (struct_entry fuel ctx) (structs ctx) result.

End Structs.

(** ** Declaring instances and globals *)

(** [makeCopy] of the four classes.  The copy of a value keeps its schema
    properties; the copies of the other classes start without them. *)
Fixpoint makeCopy (n : Node) : Node :=
  match n with
  | NValue v =>
      NValue {| content := content v; typeName := typeName v;
                meta := set_parent (meta v) PNull;
                isLiteralStr := false; rendered := UNRENDERED |}
  | NArray _ _ elems => NArray JNull new_Meta (map makeCopy elems)
  | NInstance tn _ kws =>
      NInstance tn new_Meta (map (fun '(a, i) => (a, makeCopy i)) kws)
  | NReference tn _ args _ => NReference tn new_Meta (map makeCopy args) None
  end.

Definition set_attrName (n : Node) (a : JSOpt jsstring) : Node :=
  let upd m := {| attrName := a; isNullable := isNullable m;
                  isArray := isArray m; parent := parent m |} in
  match n with
  | NValue v =>
      NValue {| content := content v; typeName := typeName v;
                meta := upd (meta v);
                isLiteralStr := isLiteralStr v; rendered := rendered v |}
  | NArray tn m elems => NArray tn (upd m) elems
  | NInstance tn m kws => NInstance tn (upd m) kws
  | NReference tn m args t => NReference tn (upd m) args t
  end.

(** One turn of the first loop of [createInlineInstance]. *)
Definition instance_arg (s : TycoStruct)
  (st : bool * list (JSOpt jsstring * Node)) (entry : nat * Node)
  : Outcome (bool * list (JSOpt jsstring * Node)) :=
  let '(kwargsOnly, instKwargs) := st in
  let '(i, attr) := entry in
  let! (attr, kwargsOnly) :=
    if is_falsy_name (attrName (node_meta attr)) then
      if kwargsOnly then fail PositionalAfterKeyword
      else Ok (set_attrName attr
                 (match map_keys (attrTypes s) !! i with
                  | Some k => JVal k
                  | None => JUndefined
                  end), kwargsOnly)
    else Ok (attr, true) in
  Ok (kwargsOnly, map_set instKwargs (attrName (node_meta attr)) attr).

(** One turn of the loop of [resolveCompleteKwargs]. *)
Definition complete_attr (s : TycoStruct)
  (instKwargs : list (JSOpt jsstring * Node))
  (defaultKwargs : list (jsstring * Node))
  (completeKwargs : list (jsstring * Node)) (a : jsstring)
  : Outcome (list (jsstring * Node)) :=
  let! attr :=
    match map_get instKwargs (JVal a) with
    | Some attr => Ok attr
    | None =>
        match map_get defaultKwargs a with
        | Some val => Ok (makeCopy val)
        | None => fail MissingAttr
        end
    end in
  let! attr := applySchemaInfo (schema_of s (JVal a)) attr in
  Ok (map_set completeKwargs a attr).

(** [TycoStruct.resolveCompleteKwargs] *)
Definition resolveCompleteKwargs (s : TycoStruct)
  (instKwargs : list (JSOpt jsstring * Node))
  (defaultKwargs : list (jsstring * Node)) : Outcome (list (jsstring * Node)) :=
  foldM (complete_attr s instKwargs defaultKwargs) (map_keys (attrTypes s)) [].

(** [TycoStruct.createInlineInstance] *)
Definition createInlineInstance (s : TycoStruct) (instArgs : list Node)
  (defaultKwargs : list (jsstring * Node)) : Outcome Node :=
  let! (_, instKwargs) :=
    foldM (instance_arg s) (indexed instArgs) (false, []) in
  let! completeKwargs := resolveCompleteKwargs s instKwargs defaultKwargs in
  Ok (NInstance (struct_typeName s) new_Meta completeKwargs).

(** [TycoStruct.createInstance] *)
Definition createInstance (s : TycoStruct) (instArgs : list Node)
  (defaultKwargs : list (jsstring * Node)) : Outcome TycoStruct :=
  let! inst := createInlineInstance s instArgs defaultKwargs in
  Ok (set_instances s (instances s ++ [inst])).

(** [new TycoContext()] *)
Definition new_TycoContext : TycoContext :=
  {| pathCache := ∅; structs := []; globals := [] |}.

(** [new TycoStruct(context, typeName)] *)
Definition new_TycoStruct (tn : jsstring) : TycoStruct :=
  {| struct_typeName := tn; attrTypes := []; primaryKeys := [];
     nullableKeys := ∅; arrayKeys := ∅; instances := [];
     mappedInstances := ∅ |}.

(** [TycoContext.setGlobalAttr] *)
Definition setGlobalAttr (ctx : TycoContext) (a : jsstring) (attr : Node)
  : Outcome TycoContext :=
  if map_has (globals ctx) a then fail DuplicateGlobal
  else Ok (set_globals ctx (map_set (globals ctx) a attr)).

(** [TycoContext.addStruct] *)
Definition addStruct (ctx : TycoContext) (tn : jsstring) : TycoContext :=
  set_structs ctx (map_set (structs ctx) tn (new_TycoStruct tn)).

(** ** source.ts: coerceContentToFragments *)

(** [content.replace(/\r\n/g, '\n')] *)
Fixpoint normalize_newlines (s : jsstring) : jsstring :=
  match s with
  | [] => []
  | x :: tl =>
      match tl with
      | y :: rest =>
          if N.eqb x CR && N.eqb y LF then LF :: normalize_newlines rest
          else x :: normalize_newlines tl
      | [] => [x]
      end
  end.

(** The loop of [coerceContentToFragments] over the normalized content:
    [cur] is the line read so far, from index [start] on. *)
Fixpoint fragments_loop (src : option jsstring) (row : Z) (cur : jsstring)
  (s : jsstring) : list SourceFragment :=
  match s with
  | [] =>
      match cur with
      | [] => []
      | _ => [new_SourceFragment cur (mkInit (Some row) (Some 1) src (Some cur))]
      end
  | c :: rest =>
      if N.eqb c LF then
        new_SourceFragment (cur ++ [LF]) (mkInit (Some row) (Some 1) src (Some cur))
        :: fragments_loop src (row + 1) [] rest
      else fragments_loop src row (cur ++ [c]) rest
  end.

Definition coerceContentToFragments (content : jsstring)
  (src : option jsstring) : list SourceFragment :=
  fragments_loop src 1 [] (normalize_newlines content).

(** ** TycoLexer: fromPath and the include branch of process *)

Definition isLineTerminator (c : N) : bool :=
  N.eqb c 10 || N.eqb c 13 || N.eqb c 8232 || N.eqb c 8233.

Fixpoint span_ws (s : jsstring) : jsstring * jsstring :=
  match s with
  | c :: rest =>
      if isWhiteSpace c then let '(w, r) := span_ws rest in (c :: w, r)
      else ([], s)
  | [] => ([], [])
  end.

(** The match of the include pattern on [line.text.trimEnd()]: the text
    [#include], white space, then the path, which starts at a character that
    is not white space and runs to the end without a line terminator. *)
Definition include_match (t : jsstring) : option jsstring :=
  let t := trimEnd t in
  if startsWith t (js "#include") then
    let '(w, p) := span_ws (skipn 8 t) in
    match w, p with
    | _ :: _, _ :: _ =>
        if forallb (fun c => negb (isLineTerminator c)) p then Some p else None
    | _, _ => None
    end
  else None.

Definition new_TycoLexer (ls : list SourceFragment) (p : option jsstring)
  : TycoLexer :=
  {| lines := ls; path := p; defaults := [] |}.

Definition set_lines (l : TycoLexer) (ls : list SourceFragment) : TycoLexer :=
  {| lines := ls; path := path l; defaults := defaults l |}.

Definition set_defaults (l : TycoLexer)
  (d : list (jsstring * list (jsstring * Node))) : TycoLexer :=
  {| lines := lines l; path := path l; defaults := d |}.

Section Lexer.

(** The file system: the content of the regular file at a path. *)
Variable fs : jsstring -> option jsstring.

(** The path an [#include] names, from the path of the including file:
    [path.isAbsolute], [path.dirname], [path.join] and [process.cwd] of
    Node. *)
Variable resolve_include : option jsstring -> jsstring -> jsstring.

(** The rest of the loop body of [process], for a line that is no
    [#include]: a global, a struct block, a blank line or Malformatted.  It
    may consume further lines of the lexer. *)
Variable handle_line :
  TycoContext -> TycoLexer -> SourceFragment -> Outcome (TycoContext * TycoLexer).

(** The loop that copies the defaults of an included lexer. *)
Definition merge_defaults (this lexer : TycoLexer) : Outcome TycoLexer :=
  foldM (fun this '(tn, attrDefaults) =>
           if map_has (defaults this) tn then fail ShouldNotHappen
           else Ok (set_defaults this (map_set (defaults this) tn attrDefaults)))
        (defaults lexer) this.

(** [TycoLexer.fromPath], given what [lexer.process()] does. *)
Definition fromPath_with
  (process : TycoContext -> TycoLexer -> Outcome (TycoContext * TycoLexer))
  (ctx : TycoContext) (filePath : jsstring)
  : Outcome (TycoContext * TycoLexer) :=
  match pathCache ctx !! filePath with
  | Some lexer => Ok (ctx, lexer)
  | None =>
      match fs filePath with
      | None => fail FileAccess
      | Some content =>
          let fragments := coerceContentToFragments content (Some filePath) in
          let lexer := new_TycoLexer fragments (Some filePath) in
          let! (ctx, lexer) := process ctx lexer in
          Ok (set_pathCache ctx (<[filePath := lexer]> (pathCache ctx)), lexer)
      end
  end.

(** [TycoLexer.process]: [fuel] bounds the turns of the loop and the depth
    of the includes together.  A lexer that [fromPath] returns has no line
    left, so the second [lexer.process()] of the include branch leaves it
    as the cache holds it. *)
Fixpoint process (fuel : nat) (ctx : TycoContext) (this : TycoLexer)
  : Outcome (TycoContext * TycoLexer) :=
  match fuel with
  | O => OutOfFuel
  | S fuel' =>
      match lines this with
      | [] => Ok (ctx, this)
      | line :: rest =>
          let this := set_lines this rest in
          match include_match (text line) with
          | Some p =>
              let includePath := resolve_include (path this) p in
              let! (ctx, lexer) := fromPath_with (process fuel') ctx includePath in
              let! (ctx, lexer) := process fuel' ctx lexer in
              let! this := merge_defaults this lexer in
              process fuel' ctx this
          | None =>
              let! (ctx, this) := handle_line ctx this line in
              process fuel' ctx this
          end
      end
  end.

Definition fromPath (fuel : nat) := fromPath_with (process fuel).

Context `{Platform}.

(** [TycoParser.parseFile] *)
Definition parseFile (fuel : nat) (filePath : jsstring) : Outcome JSValue :=
  let context := new_TycoContext in
  let! (context, lexer) := fromPath fuel context filePath in
  let! (context, lexer) := process fuel context lexer in
  let! context := renderContent context in
  toObject fuel context.

(** [TycoParser.parseContent] *)
Definition parseContent (fuel : nat) (content : jsstring) : Outcome JSValue :=
  let context := new_TycoContext in
  let fragments := coerceContentToFragments content None in
  let lexer := new_TycoLexer fragments None in
  let! (context, lexer) := process fuel context lexer in
  let! context := renderContent context in
  toObject fuel context.

End Lexer.

(** ** The integer literal as the specification words it

    An optional sign, then [0x]/[0X] for base 16, [0o]/[0O] for base 8,
    [0b]/[0B] for base 2 and no prefix for base 10, then digits. *)
Definition spec_sign (sg : jsstring) : option Z :=
  if jseqb sg [] then Some 1
  else if jseqb sg (js "+") then Some 1
  else if jseqb sg (js "-") then Some (-1)
  else None.

Definition spec_base (pre : jsstring) : option Z :=
  if jseqb pre [] then Some 10
  else if jseqb pre (js "0x") || jseqb pre (js "0X") then Some 16
  else if jseqb pre (js "0o") || jseqb pre (js "0O") then Some 8
  else if jseqb pre (js "0b") || jseqb pre (js "0B") then Some 2
  else None.

(** Whether [c] is such a literal with at least one digit, all of them
    digits of its base. *)
Definition is_int_literal (c : jsstring) : bool :=
  let body := match c with
              | x :: r => if N.eqb x 43 || N.eqb x 45 then r else c
              | [] => c
              end in
  let '(b, ds) :=
    match body with
    | z :: x :: r =>
        if N.eqb z 48 && (N.eqb x 120 || N.eqb x 88) then (16, r)
        else if N.eqb z 48 && (N.eqb x 111 || N.eqb x 79) then (8, r)
        else if N.eqb z 48 && (N.eqb x 98 || N.eqb x 66) then (2, r)
        else (10, body)
    | _ => (10, body)
    end in
  match ds with
  | [] => false
  | _ => forallb (is_radix_digit b) ds
  end.

(** How the content [c] of an int is read.  The code takes a sign [sg] and
    a prefix [pre] that selects the base [b]; what is left goes to
    [parseInt], which on its own skips white space [ws], takes one more sign
    [sg2] and, in base 16 only, one more prefix [pre2], and then reads the
    digits [ds] of the base up to a rest that no such digit starts.  Each
    part is there whenever it can be: a part is empty only if the characters
    that follow do not start one. *)
Definition starts_with (p : N -> bool) (s : jsstring) : bool :=
  match s with
  | c :: _ => p c
  | [] => false
  end.

Definition is_sign (c : N) : bool := N.eqb c 43 || N.eqb c 45.

Definition has_hex_prefix (s : jsstring) : bool :=
  startsWith s (js "0x") || startsWith s (js "0X").

Definition has_base_prefix (s : jsstring) : bool :=
  has_hex_prefix s
  || startsWith s (js "0o") || startsWith s (js "0O")
  || startsWith s (js "0b") || startsWith s (js "0B").

Definition int_reading (c sg pre ws sg2 pre2 ds rest : jsstring) (s b s2 : Z)
  : Prop :=
  c = sg ++ pre ++ ws ++ sg2 ++ pre2 ++ ds ++ rest /\
  spec_sign sg = Some s /\
  (sg = [] ->
   starts_with is_sign (pre ++ ws ++ sg2 ++ pre2 ++ ds ++ rest) = false) /\
  spec_base pre = Some b /\
  (pre = [] -> has_base_prefix (ws ++ sg2 ++ pre2 ++ ds ++ rest) = false) /\
  forallb isWhiteSpace ws = true /\
  starts_with isWhiteSpace (sg2 ++ pre2 ++ ds ++ rest) = false /\
  spec_sign sg2 = Some s2 /\
  (sg2 = [] -> starts_with is_sign (pre2 ++ ds ++ rest) = false) /\
  (pre2 = [] /\ (b = 16 -> has_hex_prefix (ds ++ rest) = false) \/
   b = 16 /\ (pre2 = js "0x" \/ pre2 = js "0X")) /\
  forallb (is_radix_digit b) ds = true /\
  starts_with (is_radix_digit b) rest = false.

(** ** Predicates of the statements *)

Definition plain_object (o : JSValue) : Prop :=
  match o with VObj _ _ => True | _ => False end.



(** The first line of file [A] is an include of file [B]. *)
Definition includes_first (fs : jsstring -> option jsstring)
  (resolve_include : option jsstring -> jsstring -> jsstring)
  (A B : jsstring) : Prop :=
  exists c line rest p,
    fs A = Some c /\
    coerceContentToFragments c (Some A) = line :: rest /\
    include_match (text line) = Some p /\
    resolve_include (Some A) p = B.

(** ** Sample inputs

    A platform with the line feed as [EOL], on which examples without
    floating-point literals are evaluated: the two float conversions are
    not used by them and are left trivial. *)
Definition sample_platform : Platform :=
  {| EOL := [LF]; parseFloat := fun _ => NaN; float_toString := fun _ => [] |}.

(** A value as the lexer hands it over, and as [applySchemaInfo] leaves it
    for a scalar attribute [a] of base type [t]. *)
Definition raw (c : jsstring) : Node := NValue (new_TycoValue c).

Definition typed (t a : String.string) (c : jsstring) : TycoValue :=
  {| content := c; typeName := JVal (js t);
     meta := {| attrName := JVal (js a); isNullable := Some false;
                isArray := Some false; parent := PNull |};
     isLiteralStr := false; rendered := UNRENDERED |}.
Arguments typed (t a)%_string_scope c.

Definition quoted (s : jsstring) : jsstring := [34%N] ++ s ++ [34%N].

Definition named (a : String.string) (c : jsstring) : Node :=
  set_attrName (raw c) (JVal (js a)).
Arguments named a%_string_scope c.

Definition scalar_schema (t a : String.string) : SchemaInfo :=
  {| kw_typeName := Some (JVal (js t)); kw_attrName := Some (JVal (js a));
     kw_isNullable := Some false; kw_isArray := Some false |}.
Arguments scalar_schema (t a)%_string_scope.

(** The context the lexer builds from

      str env: prod
      Service:
       *str name:
        str url:
        - api, "{global.env}"
*)
Definition Service_schema : TycoStruct :=
  {| struct_typeName := js "Service";
     attrTypes := [(js "name", js "str"); (js "url", js "str")];
     primaryKeys := [js "name"]; nullableKeys := ∅; arrayKeys := ∅;
     instances := []; mappedInstances := ∅ |}.

Definition global_template_input : Outcome TycoContext :=
  let! env := applySchemaInfo (scalar_schema "str" "env")
                (named "env" (js "prod")) in
  let! ctx := setGlobalAttr new_TycoContext (js "env") env in
  let! service := createInstance Service_schema
                    [raw (js "api"); raw (quoted (js "{global.env}"))] [] in
  Ok (set_structs ctx [(js "Service", service)]).


Definition force (o : Outcome TycoStruct) : TycoStruct :=
  match o with
  | Ok s => s
  | _ => new_TycoStruct []
  end.

Definition base_rendered `{Platform} (s : TycoStruct) : TycoStruct :=
  force (map_instances renderBaseContent s).


(** Database with a default port and two rows, after base rendering and
    indexing:

      Database:
       *str name:
        str host:
        int port: 5432
        - primary, localhost
        - replica, replica.example.com, 5433
*)
Definition Database_schema : TycoStruct :=
  {| struct_typeName := js "Database";
     attrTypes := [(js "name", js "str"); (js "host", js "str");
                   (js "port", js "int")];
     primaryKeys := [js "name"]; nullableKeys := ∅; arrayKeys := ∅;
     instances := []; mappedInstances := ∅ |}.

Definition Database_rows : TycoStruct :=
  base_rendered (H := sample_platform)
    (force (let d := [(js "port", named "port" (js "5432"))] in
            let! s := createInstance Database_schema
                        [raw (js "primary"); raw (js "localhost")] d in
            createInstance s [raw (js "replica");
                              raw (js "replica.example.com");
                              raw (js "5433")] d)).

Definition Database_indexed : TycoStruct :=
  force (loadPrimaryKeys (H := sample_platform) Database_rows).

Definition Database_context : TycoContext :=
  set_structs new_TycoContext [(js "Database", Database_indexed)].

(** A struct without primary keys, with one row:

      Cfg:
        str v:
        - x
*)
Definition Cfg_schema : TycoStruct :=
  {| struct_typeName := js "Cfg";
     attrTypes := [(js "v", js "str")];
     primaryKeys := []; nullableKeys := ∅; arrayKeys := ∅;
     instances := []; mappedInstances := ∅ |}.





(** A struct whose primary key is an int, with one row, after base
    rendering and indexing:

      Account:
       *int id:
        - 9007199254740992
*)
Definition Account_schema : TycoStruct :=
  {| struct_typeName := js "Account";
     attrTypes := [(js "id", js "int")];
     primaryKeys := [js "id"]; nullableKeys := ∅; arrayKeys := ∅;
     instances := []; mappedInstances := ∅ |}.

Definition Account_rows : TycoStruct :=
  base_rendered (H := sample_platform)
    (force (createInstance Account_schema [raw (js "9007199254740992")] [])).

Definition Account_indexed : TycoStruct :=
  force (loadPrimaryKeys (H := sample_platform) Account_rows).

Definition Account_context : TycoContext :=
  set_structs new_TycoContext [(js "Account", Account_indexed)].

(** The context the lexer builds from the text below, where the row of
    Service refers to a row of Database that comes later, and the result of
    the render pipeline on it:

      str env: prod
      Service:
       *str name:
        Database db:
        str url:
        - api, Database(replica), "http://{db.host}:{db.port}/{name}"
      Database:
       *str name:
        str host:
        int port: 5432
        - primary, localhost
        - replica, replica.example.com, 5433
      Cfg:
        str v:
        - x
*)
Definition Service_db_schema : TycoStruct :=
  {| struct_typeName := js "Service";
     attrTypes := [(js "name", js "str"); (js "db", js "Database");
                   (js "url", js "str")];
     primaryKeys := [js "name"]; nullableKeys := ∅; arrayKeys := ∅;
     instances := []; mappedInstances := ∅ |}.

Definition seed_input : Outcome TycoContext :=
  let! env := applySchemaInfo (scalar_schema "str" "env")
                (named "env" (js "prod")) in
  let! ctx := setGlobalAttr new_TycoContext (js "env") env in
  let! service :=
    createInstance Service_db_schema
      [raw (js "api");
       NReference (js "Database") new_Meta [raw (js "replica")] None;
       raw (quoted (js "http://{db.host}:{db.port}/{name}"))] [] in
  let d := [(js "port", named "port" (js "5432"))] in
  let! database := createInstance Database_schema
                     [raw (js "primary"); raw (js "localhost")] d in
  let! database := createInstance database
                     [raw (js "replica"); raw (js "replica.example.com");
                      raw (js "5433")] d in
  let! cfg := createInstance Cfg_schema [raw (js "x")] [] in
  Ok (set_structs ctx [(js "Service", service); (js "Database", database);
                       (js "Cfg", cfg)]).

Definition seed_rendered : TycoContext :=
  match (let! ctx := seed_input in renderContent (H := sample_platform) ctx) with
  | Ok ctx => ctx
  | _ => new_TycoContext
  end.

Definition seed_struct (T : String.string) : TycoStruct :=
  default (new_TycoStruct []) (map_get (structs seed_rendered) (js T)).
Arguments seed_struct T%_string_scope.


(** The context the lexer builds from the text below, where the global is a
    reference to a row of Service and has among its arguments a reference to
    a row of Database that is not declared, and the result of the render
    pipeline on it:

      Service main: Service(name: api, db: Database(nothere))
      Service:
       *str name:
        Database db:
        str url:
        - api, Database(replica), "http://{db.host}/{name}"
      Database:
       *str name:
        str host:
        int port: 5432
        - replica, replica.example.com, 5433
*)
Definition nested_reference : Node :=
  NReference (js "Service") new_Meta
    [named "name" (js "api");
     set_attrName (NReference (js "Database") new_Meta [raw (js "nothere")] None)
       (JVal (js "db"))]
    None.

Definition nested_input : Outcome TycoContext :=
  let! main := applySchemaInfo (scalar_schema "Service" "main")
                 nested_reference in
  let! ctx := setGlobalAttr new_TycoContext (js "main") main in
  let! service :=
    createInstance Service_db_schema
      [raw (js "api");
       NReference (js "Database") new_Meta [raw (js "replica")] None;
       raw (quoted (js "http://{db.host}/{name}"))] [] in
  let d := [(js "port", named "port" (js "5432"))] in
  let! database := createInstance Database_schema
                     [raw (js "replica"); raw (js "replica.example.com");
                      raw (js "5433")] d in
  Ok (set_structs ctx [(js "Service", service); (js "Database", database)]).

Definition nested_rendered : TycoContext :=
  match (let! ctx := nested_input in renderContent (H := sample_platform) ctx) with
  | Ok ctx => ctx
  | _ => new_TycoContext
  end.

(** Two files that include each other, and a file that includes an empty
    file twice.  The paths are absolute, so an include names the path
    itself; a line that is no include is Malformatted. *)
Definition path_a : jsstring := js "/etc/a.tyco".
Definition path_b : jsstring := js "/etc/b.tyco".
Definition path_c : jsstring := js "/etc/c.tyco".
Definition path_d : jsstring := js "/etc/d.tyco".

Definition sample_fs (p : jsstring) : option jsstring :=
  if jseqb p path_a then Some (js "#include /etc/b.tyco" ++ [LF])
  else if jseqb p path_b then Some (js "#include /etc/a.tyco" ++ [LF])
  else if jseqb p path_c
  then Some (js "#include /etc/d.tyco" ++ [LF] ++ js "#include /etc/d.tyco" ++ [LF])
  else if jseqb p path_d then Some []
  else None.

Definition absolute_include (from : option jsstring) (p : jsstring) : jsstring := p.

Definition no_other_line (ctx : TycoContext) (this : TycoLexer)
  (line : SourceFragment) : Outcome (TycoContext * TycoLexer) :=
  fail Malformatted.


(** What a reference holds once resolved, and what a value renders to. *)
Definition reference_target (n : option Node) : option InstanceRef :=
  match n with
  | Some (NReference _ _ _ t) => t
  | _ => None
  end.

Definition value_rendered (n : option Node) : JSValue :=
  match n with
  | Some (NValue v) => rendered v
  | _ => VUndefined
  end.


(** What [loadGlobal] does with a scalar value: the value gets its schema
    and becomes a global. *)
Definition declare (ctx : TycoContext) (t a : String.string) (c : jsstring)
  : Outcome TycoContext :=
  let! attr := applySchemaInfo (scalar_schema t a) (named a c) in
  setGlobalAttr ctx (js a) attr.
Arguments declare ctx (t a)%_string_scope c.

(** The globals of

      str host: "api.example.com"
      str url: "https://{host}/v1"
      str literal: '''no {subst}'''
      int hex: 0xFF
      int oct: 0o777
      int bin: 0b1010
      bool debug: false
*)
Definition globals_input : Outcome TycoContext :=
  let! ctx := declare new_TycoContext "str" "host"
                (quoted (js "api.example.com")) in
  let! ctx := declare ctx "str" "url" (quoted (js "https://{host}/v1")) in
  let! ctx := declare ctx "str" "literal" (js "'''no {subst}'''") in
  let! ctx := declare ctx "int" "hex" (js "0xFF") in
  let! ctx := declare ctx "int" "oct" (js "0o777") in
  let! ctx := declare ctx "int" "bin" (js "0b1010") in
  declare ctx "bool" "debug" (js "false").


(** ** source.ts: the trimming methods *)

(** The length of the match of a pattern [^c+] for a class [p] of
    characters; 0 when there is no match. *)
Fixpoint leading_run (p : N -> bool) (s : jsstring) : nat :=
  match s with
  | c :: r => if p c then S (leading_run p r) else O
  | [] => O
  end.

(** [trimLeadingWhitespace()]: the pattern is [/^\s+/]. *)
Definition trimLeadingWhitespace (f : SourceFragment) : SourceFragment :=
  match leading_run isWhiteSpace (text f) with
  | O => f
  | n => slice f (Some (ofZ (Z.of_nat n))) None
  end.

Definition isSpaceOrTab (c : N) : bool := N.eqb c 32 || N.eqb c 9.

(** [trimLeadingSpacesAndTabs()]: the pattern is [/^[ \t]+/]. *)
Definition trimLeadingSpacesAndTabs (f : SourceFragment) : SourceFragment :=
  match leading_run isSpaceOrTab (text f) with
  | O => f
  | n => slice f (Some (ofZ (Z.of_nat n))) None
  end.

(** The number of newlines of a text. *)
Definition newlines (s : jsstring) : Z :=
  Z.of_nat (length (filter (fun c => N.eqb c LF = true) s)).


(** ** parser.ts: comments and blank content *)

Definition HASH : N := 35%N.

(** Membership in [ILLEGAL_STR_CHARS]: the ASCII control characters 0 to 31
    and 127, but the tab. *)
Definition isIllegalStrChar (c : N) : bool :=
  ((c <? 32) || N.eqb c 127)%N && negb (N.eqb c 9).

(** [stripComments(line)], on the text of the line: the comment starts at
    the first [#]; it is scanned without its final newline. *)
Definition stripComments (raw : jsstring) : Outcome jsstring :=
  match split_first HASH raw with
  | None => Ok (trimEnd raw)
  | Some (content, comment) =>
      if existsb isIllegalStrChar (strip_final_newline comment)
      then fail InvalidComment
      else Ok (trimEnd content)
  end.

(** [isWhitespace(content)]: the test of [/^\s*$/]. *)
Definition isWhitespace (content : jsstring) : bool :=
  forallb isWhiteSpace content.


(** ** Shapes of nodes *)

(** Whether a TycoReference is among the node, the elements of its arrays
    and the attributes of its instances: the nodes that [renderReferences]
    visits. *)
Fixpoint has_reference (n : Node) : bool :=
  match n with
  | NValue _ => false
  | NArray _ _ elems => existsb has_reference elems
  | NInstance _ _ kws => existsb (fun e => has_reference e.2) kws
  | NReference _ _ _ _ => true
  end.

Definition is_array_node (n : Node) : bool :=
  match n with NArray _ _ _ => true | _ => false end.

(** Whether the node is a TycoValue with the content [null]. *)
Definition is_null_value (n : Node) : bool :=
  match n with NValue v => jseqb (content v) (js "null") | _ => false end.


(** A base-rendered row of a struct [T] with the one attribute [id], its
    primary key, and the struct with two such rows. *)
Definition keyed_row (k : String.string) : Node :=
  NInstance (js "T") new_Meta
    [(js "id", NValue (set_rendered (typed "str" "id" (js k)) false
                         (VStr (js k))))].
Arguments keyed_row k%_string_scope.

Definition two_rows : TycoStruct :=
  {| struct_typeName := js "T"; attrTypes := [(js "id", js "str")];
     primaryKeys := [js "id"]; nullableKeys := ∅; arrayKeys := ∅;
     instances := [keyed_row "a"; keyed_row "b"]; mappedInstances := ∅ |}.


(** A struct [P] whose one instance refers to itself, after the render
    pipeline:

      P:
        *str id:
        P next:
        - a, P(a)
*)
Definition P_schema : TycoStruct :=
  {| struct_typeName := js "P";
     attrTypes := [(js "id", js "str"); (js "next", js "P")];
     primaryKeys := [js "id"]; nullableKeys := ∅; arrayKeys := ∅;
     instances := []; mappedInstances := ∅ |}.

Definition self_reference_context : TycoContext :=
  match (let! s := createInstance P_schema
                     [raw (js "a");
                      NReference (js "P") new_Meta [raw (js "a")] None] [] in
         renderContent (H := sample_platform)
           (set_structs new_TycoContext [(js "P", s)])) with
  | Ok ctx => ctx
  | _ => new_TycoContext
  end.

(** The value [a] of the attribute [id], as an attribute of the instance and
    as an argument of the reference. *)
Definition P_id (par : ParentRef) : Node :=
  NValue {| content := js "a"; typeName := JVal (js "str");
            meta := {| attrName := JVal (js "id"); isNullable := Some false;
                       isArray := Some false; parent := par |};
            isLiteralStr := false; rendered := VStr (js "a") |}.

(** ** TycoLexer: single-line strings *)

(** How [loadSingleString] ends without a result. *)
Inductive StringError : Type :=
| UnclosedSingleString   (* Unclosed single-line string for <ch> *)
| IllegalStringChar      (* Invalid characters found in literal string *)
| NoLine.                (* the TypeError of reading [text] without a line *)

Definition QUOTE : N := 39%N.
Definition DQUOTE : N := 34%N.

(** The loop of [loadSingleString]: [end = text.indexOf(ch, start)] is
    accepted when the string is literal or [text[end - 1]] is no backslash;
    otherwise the search goes on from [end + 1].  [rest] is the text from
    [start] on and [prev] the code unit before it; the result is [end]. *)
Fixpoint closing_quote (isLiteral : bool) (ch prev : N) (rest : jsstring)
  (start : nat) : option nat :=
  match rest with
  | [] => None
  | c :: rest' =>
      if N.eqb c ch && (isLiteral || negb (N.eqb prev BACKSLASH))
      then Some start
      else closing_quote isLiteral ch c rest' (S start)
  end.

(** [loadSingleString(ch)]: the text of the string with its quotes, the
    fragment of the line, and the lexer with the rest of the line put back
    in front of its lines. *)
Definition loadSingleString (ch : N) (this : TycoLexer)
  : StringError + (jsstring * SourceFragment * TycoLexer) :=
  match lines this with
  | [] => inl NoLine
  | line :: rest =>
      let isLiteral := N.eqb ch QUOTE in
      match text line with
      | [] => inl UnclosedSingleString
      | c0 :: tl =>
          match closing_quote isLiteral ch c0 tl 1 with
          | None => inl UnclosedSingleString
          | Some e =>
              let finalContent := firstn (S e) (text line) in
              let remainder := slice line (Some (ofZ (Z.of_nat e + 1))) None in
              if existsb isIllegalStrChar finalContent
              then inl IllegalStringChar
              else inr (finalContent, line, set_lines this (remainder :: rest))
          end
      end
  end.


(** * Properties *)

(** ** Lists with exceptions, Maps and nodes *)

Lemma mapM_length {A B} (f : A -> Outcome B) (l : list A) (r : list B) :
  mapM f l = Ok r -> Forall2 (fun x y => f x = Ok y) l r.
Proof.
  revert r. induction l as [|x l IH]; intros r; simpl.
  - intros [= <-]. constructor.
  - destruct (f x) eqn:E; simpl; try discriminate.
    destruct (mapM f l); simpl; try discriminate.
    intros [= <-]. constructor; auto.
Qed.

Lemma mapM_Forall2 {A B} (f : A -> Outcome B) (l : list A) (r : list B) :
  Forall2 (fun x y => f x = Ok y) l r -> mapM f l = Ok r.
Proof.
  induction 1 as [|x y l r Hxy _ IH]; [reflexivity|].
  simpl. rewrite Hxy. cbn [bind]. now rewrite IH.
Qed.

Lemma mapM_cons {A B} (f : A -> Outcome B) (x : A) (l : list A) :
  mapM f (x :: l) = let! y := f x in let! ys := mapM f l in Ok (y :: ys).
Proof. reflexivity. Qed.






Lemma map_get_elem_of {V} (m : list (jsstring * V)) (k : jsstring) (v : V) :
  map_get m k = Some v -> (k, v) ∈ m.
Proof.
  induction m as [|[k' v'] m IH]; simpl; [discriminate|].
  case_bool_decide.
  - intros [= ->]. subst. now left.
  - intros Hm. right. now apply IH.
Qed.

(** Induction on a node, with the property on every element, attribute and
    argument. *)
Lemma Node_induction (P : Node -> Prop)
  (HV : forall v, P (NValue v))
  (HA : forall tn m elems, Forall P elems -> P (NArray tn m elems))
  (HI : forall tn m kws, Forall (fun e => P e.2) kws -> P (NInstance tn m kws))
  (HR : forall tn m args t, Forall P args -> P (NReference tn m args t)) :
  forall n, P n.
Proof.
  fix IH 1. intros [v|tn m elems|tn m kws|tn m args t].
  - apply HV.
  - apply HA. induction elems as [|e elems IHl]; constructor; auto.
  - apply HI. induction kws as [|[a c] kws IHl]; constructor; auto.
  - apply HR. induction args as [|e args IHl]; constructor; auto.
Qed.

(** ** SourceFragment *)

Section SourceFragmentFacts.

Lemma Qltb_lt (a b : Q) : Qltb a b = true <-> (a < b)%Q.
Proof.
  unfold Qltb. rewrite negb_true_iff.
  split; intro H.
  - apply Qnot_le_lt. intro L. apply Qle_bool_iff in L. congruence.
  - destruct (Qle_bool b a) eqn:E; [|reflexivity].
    apply Qle_bool_iff in E. exfalso. exact (Qlt_not_le _ _ H E).
Qed.

Lemma Qltb_ge (a b : Q) : Qltb a b = false <-> (b <= a)%Q.
Proof.
  unfold Qltb. rewrite negb_false_iff. apply Qle_bool_iff.
Qed.

Lemma Math_max_Fin (v : Number) (lo : Q) :
  v <> NaN ->
  Math_max v (Fin lo) = PosInf \/
  exists c, Math_max v (Fin lo) = Fin c /\ (lo <= c)%Q.
Proof.
  intros Hv. destruct v as [| | |q]; simpl.
  - congruence.
  - right. exists lo. split; [reflexivity|apply Qle_refl].
  - left. reflexivity.
  - right. destruct (Qltb q lo) eqn:E.
    + exists lo. split; [reflexivity|apply Qle_refl].
    + exists q. split; [reflexivity|]. now apply Qltb_ge.
Qed.

Lemma clamp_bounds (v : Number) (lo hi : Q) :
  (lo <= hi)%Q ->
  exists c, clamp v (Fin lo) (Fin hi) = Fin c /\ (lo <= c)%Q /\ (c <= hi)%Q.
Proof.
  intros Hle. unfold clamp. destruct (isNaN v) eqn:En.
  - exists lo. repeat split; [apply Qle_refl|assumption].
  - assert (Hv : v <> NaN) by (intros ->; discriminate).
    destruct (Math_max_Fin v lo Hv) as [-> | (c & -> & Hc)].
    + simpl. exists hi. repeat split; [assumption|apply Qle_refl].
    + simpl. destruct (Qltb hi c) eqn:E.
      * exists hi. repeat split; [assumption|apply Qle_refl].
      * exists c. repeat split; [assumption|now apply Qltb_ge].
Qed.

Lemma jslength_nonneg (s : jsstring) : (0 <= inject_Z (jslength s))%Q.
Proof.
  change 0%Q with (inject_Z 0). rewrite <- Zle_Qle. unfold jslength. lia.
Qed.

Lemma actualStart_bounds (f : SourceFragment) (start : option Number) :
  exists a, actualStart f start = Fin a /\
            (0 <= a)%Q /\ (a <= inject_Z (jslength (text f)))%Q.
Proof.
  unfold actualStart, ofZ.
  apply (clamp_bounds _ (inject_Z 0) _). apply jslength_nonneg.
Qed.

Lemma actualEnd_bounds (f : SourceFragment) (start end_ : option Number) :
  exists a b, actualStart f start = Fin a /\ actualEnd f start end_ = Fin b /\
              (0 <= a)%Q /\ (a <= b)%Q /\ (b <= inject_Z (jslength (text f)))%Q.
Proof.
  destruct (actualStart_bounds f start) as (a & Ha & H0 & Hl).
  unfold actualEnd. rewrite Ha.
  destruct (clamp_bounds (default (ofZ (jslength (text f))) end_) a _ Hl)
    as (b & Hb & H1 & H2).
  exists a, b. unfold ofZ in *. rewrite Hb. auto.
Qed.

Lemma extract_substring (s : jsstring) (from to : Z) :
  exists pre post, s = pre ++ extract s from to ++ post.
Proof.
  unfold extract.
  exists (firstn (Z.to_nat from) s),
         (skipn (Z.to_nat (to - from)) (skipn (Z.to_nat from) s)).
  now rewrite firstn_skipn, firstn_skipn.
Qed.

Lemma String_slice_substring (s : jsstring) (a : Number) (b : option Number) :
  exists pre post, s = pre ++ String_slice s a b ++ post.
Proof.
  unfold String_slice.
  match goal with |- context [if ?c then _ else _] => destruct c end.
  - exists [], s. reflexivity.
  - apply extract_substring.
Qed.

Lemma Qtrunc_inject_Z (k : Z) : Qtrunc (inject_Z k) = k.
Proof.
  unfold Qtrunc. destruct (Qle_bool 0 (inject_Z k)).
  - apply Qfloor_Z.
  - apply Qceiling_Z.
Qed.

Lemma String_slice_from (s : jsstring) (k : Z) :
  0 <= k <= jslength s ->
  String_slice s (ofZ k) (Some (ofZ (jslength s))) = skipn (Z.to_nat k) s.
Proof.
  intros Hk. unfold String_slice, ofZ, ToIntegerOrInfinity.
  rewrite !Qtrunc_inject_Z. unfold relative_index.
  assert (Hs : 0 <= jslength s) by lia.
  destruct (Z.ltb_spec k 0); [lia|].
  destruct (Z.ltb_spec (jslength s) 0); [lia|].
  rewrite Z.min_id, (Z.min_l k) by lia.
  destruct (Z.leb_spec (jslength s) k).
  - symmetry. apply skipn_all2. unfold jslength in *. lia.
  - unfold extract. apply firstn_all2. rewrite length_skipn.
    unfold jslength in *. lia.
Qed.

Lemma advance_loop_consumed (rest : jsstring) (i k : Z) (rc : Z * Z) :
  i <= k <= i + jslength rest ->
  advance_loop rest i (ofZ k) rc =
  consumed advance_char (firstn (Z.to_nat (k - i)) rest) rc.
Proof.
  revert i rc. induction rest as [|ch rest IH]; intros i rc Hk.
  - simpl. rewrite firstn_nil. now destruct (Qltb _ _).
  - cbn [advance_loop num_ltb ofZ].
    destruct (Qltb (inject_Z i) (inject_Z k)) eqn:E.
    + apply Qltb_lt in E. rewrite <- Zlt_Qlt in E.
      rewrite (IH (i + 1)).
      * replace (Z.to_nat (k - i)) with (S (Z.to_nat (k - (i + 1)))) by lia.
        reflexivity.
      * unfold jslength in *. simpl length in Hk. lia.
    + apply Qltb_ge in E. rewrite <- Zle_Qle in E.
      replace (k - i) with 0 by lia. reflexivity.
Qed.

Lemma clamp_in_range (k lo hi : Z) :
  lo <= k <= hi -> clamp (ofZ k) (ofZ lo) (ofZ hi) = ofZ k.
Proof.
  intros Hk. unfold clamp, ofZ. simpl.
  destruct (Qltb (inject_Z k) (inject_Z lo)) eqn:E.
  - apply Qltb_lt in E. rewrite <- Zlt_Qlt in E. lia.
  - simpl. destruct (Qltb (inject_Z hi) (inject_Z k)) eqn:E2; [|reflexivity].
    apply Qltb_lt in E2. rewrite <- Zlt_Qlt in E2. lia.
Qed.

Lemma advance_in_range (f : SourceFragment) (k : Z) :
  0 <= k <= jslength (text f) ->
  advance f (ofZ k) =
  consumed advance_char (firstn (Z.to_nat k) (text f)) (row f, column f).
Proof.
  intros Hk. unfold advance.
  change (Math_min (Math_max (ofZ k) (ofZ 0)) (ofZ (jslength (text f))))
    with (if isNaN (ofZ k) then ofZ 0
          else Math_min (Math_max (ofZ k) (ofZ 0)) (ofZ (jslength (text f)))).
  fold (clamp (ofZ k) (ofZ 0) (ofZ (jslength (text f)))).
  rewrite clamp_in_range by assumption.
  rewrite advance_loop_consumed by lia.
  now rewrite Z.sub_0_r.
Qed.

End SourceFragmentFacts.

Lemma consumed_no_CR (s : jsstring) (rc : Z * Z) :
  ~ In CR s -> consumed advance_char s rc = consumed spec_advance_char s rc.
Proof.
  revert rc. induction s as [|ch s IH]; intros rc Hin; [reflexivity|].
  unfold consumed in *. simpl.
  assert (Hch : N.eqb ch CR = false).
  { apply N.eqb_neq. intros ->. apply Hin. now left. }
  rewrite <- IH by (intros H; apply Hin; now right).
  f_equal. unfold advance_char, spec_advance_char. destruct rc as [r c].
  now rewrite Hch.
Qed.

Lemma slice_row_column (f : SourceFragment) (start end_ : option Number) :
  (row (slice f start end_), column (slice f start end_)) =
  advance f (actualStart f start).
Proof.
  unfold slice. now destruct (advance f (actualStart f start)).
Qed.

Lemma slice_text (f : SourceFragment) (start end_ : option Number) :
  text (slice f start end_) =
  String_slice (text f) (actualStart f start) (Some (actualEnd f start end_)).
Proof.
  unfold slice. now destruct (advance f (actualStart f start)).
Qed.

(** C8 (amended): for 0 <= k <= length of f.text, f.slice(k) has the text of f
    from index k on, and its (row, column) is f's (row, column) advanced over
    the k consumed code units, where a newline increments row and resets
    column to 1, a carriage return resets column to 1 and leaves row, and
    every other code unit increments column by 1.  When no carriage return is
    consumed this is the rule of the specification. *)
Theorem slice_advances_position (f : SourceFragment) (k : Z) :
  0 <= k <= jslength (text f) ->
  let g := slice f (Some (ofZ k)) None in
  let eaten := firstn (Z.to_nat k) (text f) in
  text g = skipn (Z.to_nat k) (text f) /\
  (row g, column g) = consumed advance_char eaten (row f, column f) /\
  (~ In CR eaten ->
   (row g, column g) = consumed spec_advance_char eaten (row f, column f)).
Proof.
  intros Hk g eaten. subst g eaten.
  assert (Hs : actualStart f (Some (ofZ k)) = ofZ k)
    by (apply clamp_in_range; assumption).
  assert (He : actualEnd f (Some (ofZ k)) None = ofZ (jslength (text f))).
  { unfold actualEnd. rewrite Hs. simpl default. apply clamp_in_range. lia. }
  rewrite slice_text, slice_row_column, Hs, He.
  rewrite String_slice_from, advance_in_range by assumption.
  repeat split. intros Hcr. now apply consumed_no_CR.
Qed.

Lemma slice_advances_position_witness :
  let f := new_SourceFragment (js "ab" ++ [LF] ++ js "c" ++ [CR] ++ js "de")
             (mkInit None None None None) in
  text (slice f (Some (ofZ 5)) None) = js "de" /\
  (row (slice f (Some (ofZ 5)) None), column (slice f (Some (ofZ 5)) None))
  = (2, 1).
Proof.
  intro f.
  destruct (slice_advances_position f 5) as (Ht & Hp & _).
  - vm_compute. split; discriminate.
  - split; [exact Ht | exact Hp].
Defined.

(** C8 as stated fails on a carriage return: in "a\rb" the fragment cut at
    k = 2 sits at column 1, where counting every character other than a
    newline as one column gives column 3. *)
Lemma slice_position_carriage_return :
  let f := new_SourceFragment (js "a" ++ [CR] ++ js "b")
             (mkInit None None None None) in
  let g := slice f (Some (ofZ 2)) None in
  0 <= 2 <= jslength (text f) /\
  (row g, column g) = (1, 1) /\
  consumed spec_advance_char (firstn 2 (text f)) (row f, column f) = (1, 3) /\
  (row g, column g) <>
  consumed spec_advance_char (firstn 2 (text f)) (row f, column f).
Proof.
  vm_compute. repeat split; try discriminate.
Qed.

Lemma Qtrunc_nonneg_floor (a : Q) : (0 <= a)%Q -> Qtrunc a = Qfloor a.
Proof.
  intros H. unfold Qtrunc. apply Qle_bool_iff in H. now rewrite H.
Qed.

Lemma Qfloor_range (a : Q) (len : Z) :
  (0 <= a)%Q -> (a <= inject_Z len)%Q -> 0 <= Qfloor a <= len.
Proof.
  intros H0 Hl. split.
  - rewrite <- (Qfloor_Z 0). now apply Qfloor_resp_le.
  - rewrite <- (Qfloor_Z len). now apply Qfloor_resp_le.
Qed.

Lemma relative_index_in_range (len z : Z) :
  0 <= z <= len -> relative_index len (Int z) = z.
Proof.
  intros H. unfold relative_index. destruct (Z.ltb_spec z 0); lia.
Qed.

(** C10: slice is a total function of the fragment and of any two optional
    numbers (absent, NaN, infinite, negative, fractional or too large): both
    bounds are finite, 0 <= actualStart <= actualEnd <= length of f.text, and
    the text of the result is the run of f.text between the two bounds
    (rounded down), a contiguous substring of f.text. *)
Theorem slice_total_clamped (f : SourceFragment) (start end_ : option Number) :
  exists a b : Q,
    actualStart f start = Fin a /\
    actualEnd f start end_ = Fin b /\
    (0 <= a)%Q /\ (a <= b)%Q /\ (b <= inject_Z (jslength (text f)))%Q /\
    text (slice f start end_) = extract (text f) (Qfloor a) (Qfloor b) /\
    exists pre post, text f = pre ++ text (slice f start end_) ++ post.
Proof.
  destruct (actualEnd_bounds f start end_) as (a & b & Ha & Hb & H0 & Hab & Hl).
  exists a, b. repeat split; try assumption.
  - rewrite slice_text, Ha, Hb. unfold String_slice, ToIntegerOrInfinity.
    assert (H0b : (0 <= b)%Q) by (eapply Qle_trans; eassumption).
    assert (Hal : (a <= inject_Z (jslength (text f)))%Q)
      by (eapply Qle_trans; eassumption).
    rewrite !Qtrunc_nonneg_floor by assumption.
    pose proof (Qfloor_range a _ H0 Hal).
    pose proof (Qfloor_range b _ H0b Hl).
    rewrite !relative_index_in_range by assumption.
    destruct (Z.leb_spec (Qfloor b) (Qfloor a)); [|reflexivity].
    unfold extract. now replace (Z.to_nat (Qfloor b - Qfloor a)) with 0%nat by lia.
  - rewrite slice_text. apply String_slice_substring.
Qed.


(** ** Integers *)

Section IntegerFacts.
Context `{Platform}.

Ltac char_cases :=
  repeat match goal with
         | H : context [N.leb ?a ?b] |- _ => destruct (N.leb_spec a b)
         | |- context [N.leb ?a ?b] => destruct (N.leb_spec a b)
         | H : context [N.eqb ?a ?b] |- _ => destruct (N.eqb_spec a b)
         | |- context [N.eqb ?a ?b] => destruct (N.eqb_spec a b)
         end;
  simpl in *; try discriminate; try lia; try reflexivity.

Lemma digit_value_range (c : N) (d : Z) :
  digit_value c = Some d ->
  ((48 <= c <= 57)%N /\ d = Z.of_N c - 48) \/
  ((97 <= c <= 122)%N /\ d = Z.of_N c - 87) \/
  ((65 <= c <= 90)%N /\ d = Z.of_N c - 55).
Proof.
  unfold digit_value. char_cases; intros [= <-]; lia.
Qed.

Lemma radix_digit_range (R : Z) (c : N) :
  is_radix_digit R c = true ->
  exists d, digit_value c = Some d /\ 0 <= d < R /\
            ((48 <= c <= 57)%N \/ (97 <= c <= 122)%N \/ (65 <= c <= 90)%N).
Proof.
  unfold is_radix_digit. destruct (digit_value c) as [d|] eqn:E; [|discriminate].
  intros Hd. apply Z.ltb_lt in Hd. exists d.
  destruct (digit_value_range c d E) as [[? ->]|[[? ->]|[? ->]]];
    repeat split; auto; lia.
Qed.

Lemma radix_digit_not_ws (R : Z) (c : N) :
  is_radix_digit R c = true -> isWhiteSpace c = false.
Proof.
  intros Hc. destruct (radix_digit_range R c Hc) as (d & _ & _ & Hr).
  unfold isWhiteSpace. simpl existsb.
  repeat rewrite (proj2 (N.eqb_neq _ _)) by lia.
  now rewrite (proj2 (N.leb_gt _ _)) by lia.
Qed.

Lemma radix_prefix_all (R : Z) (ds : jsstring) :
  Forall (fun c => is_radix_digit R c = true) ds -> radix_prefix R ds = ds.
Proof.
  induction 1 as [|c ds Hc _ IH]; [reflexivity|].
  simpl. now rewrite Hc, IH.
Qed.

Lemma parseInt_run_digits (R : Z) (ds : jsstring) :
  Forall (fun c => is_radix_digit R c = true) ds ->
  parseInt_run ds R = (1, ds).
Proof.
  intros Hds. unfold parseInt_run.
  destruct ds as [|c ds]; [now destruct (R =? 16)|].
  pose proof (Forall_inv Hds) as Hc.
  simpl trimStart. rewrite (radix_digit_not_ws R c Hc).
  destruct (radix_digit_range R c Hc) as (d & Hd & Hr & Hc').
  assert (N.eqb c 45 = false /\ N.eqb c 43 = false) as [-> ->]
    by (split; apply N.eqb_neq; lia).
  assert (Hs3 : (if R =? 16
                 then match c :: ds with
                      | z :: x :: r =>
                          if N.eqb z 48 && (N.eqb x 120 || N.eqb x 88)
                          then r else c :: ds
                      | _ => c :: ds
                      end
                 else c :: ds) = c :: ds).
  { destruct (Z.eqb_spec R 16) as [->|]; [|reflexivity].
    destruct ds as [|x ds]; [reflexivity|].
    pose proof (Forall_inv (Forall_inv_tail Hds)) as Hx.
    destruct (radix_digit_range 16 x Hx) as (dx & Hdx & Hrx & _).
    destruct (digit_value_range x dx Hdx) as [[? ?]|[[? ?]|[? ?]]];
      assert (N.eqb x 120 = false /\ N.eqb x 88 = false) as [-> ->]
        by (split; apply N.eqb_neq; lia);
      now rewrite andb_false_r. }
  rewrite Hs3. now rewrite radix_prefix_all.
Qed.

Lemma sign_times_ofZ (s z : Z) : sign_times s (ofZ z) = ofZ (s * z).
Proof. reflexivity. Qed.

(** Up to 2^53 an integer is its own Number value. *)
Lemma round_double_small (z : Z) :
  Z.abs z <= 2 ^ 53 -> round_double z = ofZ z.
Proof.
  intros Hz. unfold round_double, ofZ.
  assert (Hsgn : Z.sgn z * Z.abs z = z) by (destruct z; simpl; lia).
  destruct (Z.eq_dec (Z.abs z) (2 ^ 53)) as [Heq|Hne].
  - rewrite Heq.
    change (Z.max 0 (Z.log2 (2 ^ 53) - 52)) with 1.
    change (2 ^ 53 mod 2 ^ 1) with 0. change (2 ^ 53 / 2 ^ 1) with (2 ^ 52).
    change (2 * 0 <? 2 ^ 1) with true. cbv iota.
    change (2 ^ 52 * 2 ^ 1) with (2 ^ 53).
    change (2 ^ 1024 <=? 2 ^ 53) with false. cbv iota.
    rewrite <- Heq. now rewrite Hsgn.
  - assert (He : Z.max 0 (Z.log2 (Z.abs z) - 52) = 0).
    { destruct (Z.eq_dec (Z.abs z) 0) as [->|Hpos]; [reflexivity|].
      assert (Z.log2 (Z.abs z) < 53) by (apply Z.log2_lt_pow2; lia).
      lia. }
    rewrite He. change (2 ^ 0) with 1.
    rewrite Z.div_1_r, Z.mod_1_r. change (2 * 0 <? 1) with true. cbv iota.
    rewrite Z.mul_1_r.
    assert ((2 ^ 1024 <=? Z.abs z) = false) as ->.
    { apply Z.leb_gt. apply Z.le_lt_trans with (2 ^ 53); [exact Hz|].
      apply Z.pow_lt_mono_r; lia. }
    now rewrite Hsgn.
Qed.

(** Between [q * 2^e] and [(q + 1) * 2^e], for a significand [q] of 53
    bits, there is no double. *)
Lemma double_gap (q e m' e' : Z) :
  2 ^ 52 <= q -> 0 <= e -> 0 <= m' < 2 ^ 53 -> 0 <= e' ->
  m' * 2 ^ e' <= q * 2 ^ e \/ (q + 1) * 2 ^ e <= m' * 2 ^ e'.
Proof.
  intros Hq He Hm He'.
  assert (HP : 0 < 2 ^ e) by (apply Z.pow_pos_nonneg; lia).
  assert (HP' : 0 < 2 ^ e') by (apply Z.pow_pos_nonneg; lia).
  destruct (Z.lt_ge_cases e' e) as [Hlt|Hge].
  - left.
    assert (Hpow : 2 ^ (53 + e') <= 2 ^ (52 + e))
      by (apply Z.pow_le_mono_r; lia).
    rewrite !Z.pow_add_r in Hpow by lia.
    assert (m' * 2 ^ e' <= 2 ^ 53 * 2 ^ e') by (apply Z.mul_le_mono_nonneg_r; lia).
    assert (2 ^ 52 * 2 ^ e <= q * 2 ^ e) by (apply Z.mul_le_mono_nonneg_r; lia).
    lia.
  - replace e' with ((e' - e) + e) by lia. rewrite Z.pow_add_r by lia.
    assert (0 < 2 ^ (e' - e)) by (apply Z.pow_pos_nonneg; lia).
    set (k := m' * 2 ^ (e' - e)). rewrite Z.mul_assoc. fold k.
    destruct (Z.le_gt_cases k q).
    + left. apply Z.mul_le_mono_nonneg_r; lia.
    + right. apply Z.mul_le_mono_nonneg_r; lia.
Qed.

(** The significand [q] and the rest [r] of an integer above 2^53. *)
Lemma double_parts (a : Z) :
  2 ^ 53 < a ->
  let e := Z.log2 a - 52 in
  1 <= e /\ Z.max 0 (Z.log2 a - 52) = e /\
  2 ^ 52 <= a / 2 ^ e < 2 ^ 53 /\
  a = a / 2 ^ e * 2 ^ e + a mod 2 ^ e /\
  0 <= a mod 2 ^ e < 2 ^ e.
Proof.
  intros Ha e.
  assert (HL : 53 <= Z.log2 a).
  { change 53 with (Z.log2 (2 ^ 53)). apply Z.log2_le_mono. lia. }
  destruct (Z.log2_spec a ltac:(lia)) as [Hlo Hhi].
  assert (He : 1 <= e) by (unfold e; lia).
  assert (HP : 0 < 2 ^ e) by (apply Z.pow_pos_nonneg; lia).
  replace (Z.log2 a) with (52 + e) in Hlo by (unfold e; lia).
  replace (Z.succ (Z.log2 a)) with (53 + e) in Hhi by (unfold e; lia).
  rewrite Z.pow_add_r in Hlo, Hhi by lia.
  split; [exact He|]. split; [unfold e; lia|].
  split; [split|split].
  - apply Z.div_le_lower_bound; lia.
  - apply Z.div_lt_upper_bound; lia.
  - rewrite Z.mul_comm. apply Z.div_mod. lia.
  - apply Z.mod_pos_bound. lia.
Qed.

(** [round_double] rounds as IEEE 754 says: to the nearest double, to the
    even significand when two doubles are equally near, and to an infinity
    from 2^1024 - 2^970 on. *)
Lemma round_double_nearest (z : Z) : Number_value z (round_double z).
Proof.
  unfold Number_value.
  destruct (Z.le_gt_cases (Z.abs z) (2 ^ 53)) as [Hsmall|Hbig].
  - assert ((Z.abs z <? 2 ^ 1024 - 2 ^ 970) = true) as ->
      by (apply Z.ltb_lt; lia).
    rewrite round_double_small by exact Hsmall.
    exists z. split; [reflexivity|]. split.
    + destruct (Z.eq_dec (Z.abs z) (2 ^ 53)) as [E|E].
      * exists (2 ^ 52), 1. rewrite E. split; [lia|]. split; [lia|reflexivity].
      * exists (Z.abs z), 0. split; [lia|]. split; [lia|].
        rewrite Z.pow_0_r. lia.
    + intros d' _ Hne. left. lia.
  - destruct (double_parts (Z.abs z) Hbig) as (He & Hmax & Hq & Ha & Hr).
    unfold round_double. cbv zeta. rewrite Hmax.
    set (e := Z.log2 (Z.abs z) - 52) in *.
    set (P := 2 ^ e) in *.
    set (q := Z.abs z / P) in *. set (r := Z.abs z mod P) in *.
    set (q' := if 2 * r <? P then q
               else if P <? 2 * r then q + 1
                    else if Z.even q then q else q + 1).
    assert (HP : 0 < P) by (apply Z.pow_pos_nonneg; lia).
    assert (F1 : q' = q /\ 2 * r <= P \/ q' = q + 1 /\ P <= 2 * r).
    { unfold q'. destruct (Z.ltb_spec (2 * r) P); [left; lia|].
      destruct (Z.ltb_spec P (2 * r)); [right; lia|].
      destruct (Z.even q); [left|right]; lia. }
    assert (F2 : 2 * r = P -> Z.even q' = true).
    { intros E. unfold q'. rewrite E, Z.ltb_irrefl.
      destruct (Z.even q) eqn:Eq; [exact Eq|].
      rewrite Z.even_add, Eq. reflexivity. }
    assert (HPe : P = 2 ^ e) by reflexivity.
    assert (Hlog : Z.log2 (Z.abs z) = e + 52) by (unfold e; lia).
    clearbody q' r q P e.
    assert (Hhi : (q + 1) * P = q * P + P) by ring.
    assert (Hlo : 0 <= q * P) by (apply Z.mul_nonneg_nonneg; lia).
    assert (Fm : q' * P = q * P /\ 2 * r <= P \/
                 q' * P = q * P + P /\ P <= 2 * r).
    { destruct F1 as [[-> ?]|[-> ?]]; [left|right]; auto. }
    destruct (Z.ltb_spec (Z.abs z) (2 ^ 1024 - 2 ^ 970)) as [Hfin|Hinf].
    + assert (He' : e <= 971).
      { assert (Z.log2 (Z.abs z) < 1024) by (apply Z.log2_lt_pow2; lia).
        lia. }
      assert (HP971 : P <= 2 ^ 971) by (rewrite HPe; apply Z.pow_le_mono_r; lia).
      assert (Hcarry : q' = 2 ^ 53 -> e <= 970).
      { intros Hq'. destruct (Z.eq_dec e 971) as [E|]; [|lia]. exfalso.
        rewrite E in HPe. rewrite HPe in *. lia. }
      assert (Hm : q' * P < 2 ^ 1024).
      { destruct (Z.eq_dec q' (2 ^ 53)) as [E|E].
        - assert (P <= 2 ^ 970)
            by (rewrite HPe; apply Z.pow_le_mono_r; specialize (Hcarry E); lia).
          rewrite E. lia.
        - assert (q' * P <= (2 ^ 53 - 1) * 2 ^ 971)
            by (apply Z.mul_le_mono_nonneg; lia).
          lia. }
      assert ((2 ^ 1024 <=? q' * P) = false) as -> by (apply Z.leb_gt; exact Hm).
      set (d := Z.sgn z * (q' * P)).
      assert (Hd : 0 < z /\ d = q' * P \/ z < 0 /\ d = - (q' * P)).
      { unfold d.
        destruct (Z.sgn_spec z) as [[? ->]|[[? ->]|[? ->]]]; lia. }
      assert (Habs : Z.abs d = q' * P).
      { assert (0 <= q' * P) by (apply Z.mul_nonneg_nonneg; lia). lia. }
      clearbody d. exists d. split; [reflexivity|].
      assert (Hdouble : 2 ^ 52 <= q' -> exists m e0,
                 2 ^ 52 <= m < 2 ^ 53 /\ 0 <= e0 <= 971 /\
                 Z.abs d = m * 2 ^ e0 /\ (Z.even q' = true -> Z.even m = true)).
      { intros _. destruct (Z.eq_dec q' (2 ^ 53)) as [E|E].
        - exists (2 ^ 52), (e + 1). specialize (Hcarry E).
          split; [lia|]. split; [lia|]. split; [|reflexivity].
          rewrite Habs, E, Z.pow_add_r, <- HPe by lia. lia.
        - exists q', e. split; [lia|]. split; [lia|].
          split; [now rewrite Habs, HPe|auto]. }
      destruct Hdouble as (m0 & e0 & Hm0 & He0 & Hd0 & Hev0); [lia|].
      split; [exists m0, e0; repeat split; auto; lia|].
      intros d' (m' & e' & Hm' & He'' & Hd') Hne.
      assert (Heven : 2 * r = P -> even_double d).
      { intros Htie. exists m0, e0. split; [lia|]. split; [lia|].
        split; [exact Hd0|]. apply Hev0, F2, Htie. }
      assert (Hgap : Z.abs d' <= q * P \/ q * P + P <= Z.abs d').
      { rewrite Hd', <- Hhi, HPe. apply double_gap; lia. }
      clear Hd' Hcarry Hm Hhi Hd0 Hev0 F1 F2.
      revert Hd Habs Fm. generalize (q' * P) as m. intros m Hd Habs Fm.
      revert Fm Hlo Ha Hgap. generalize (q * P) as lo. intros lo Fm Hlo Ha Hgap.
      destruct (Z.eq_dec (2 * r) P) as [Htie|Hnt]; [|left; lia].
      destruct (Z.eq_dec (Z.abs (d - z)) (Z.abs (d' - z))) as [E|E];
        [right; auto|left; lia].
    + assert (He' : 971 <= e).
      { assert (Hmono : Z.log2 (2 ^ 1023) <= Z.log2 (Z.abs z))
          by (apply Z.log2_le_mono; lia).
        change (Z.log2 (2 ^ 1023)) with 1023 in Hmono. lia. }
      assert (Hm : 2 ^ 1024 <= q' * P).
      { destruct (Z.eq_dec e 971) as [E|E].
        - rewrite E in HPe. rewrite HPe in *.
          assert (Hq53 : q = 2 ^ 53 - 1) by lia.
          destruct F1 as [[Hq' Hle]|[Hq' Hle]].
          + assert (Htie : 2 * r = 2 ^ 971) by lia.
            specialize (F2 Htie). rewrite Hq', Hq53 in F2. discriminate.
          + rewrite Hq', Hq53. lia.
        - assert (2 ^ 972 <= P) by (rewrite HPe; apply Z.pow_le_mono_r; lia).
          assert (2 ^ 52 * 2 ^ 972 <= q' * P)
            by (apply Z.mul_le_mono_nonneg; lia).
          lia. }
      assert ((2 ^ 1024 <=? q' * P) = true) as -> by (apply Z.leb_le; exact Hm).
      reflexivity.
Qed.

(** *** The digits of String for an integer *)

Lemma round_double_integer (z : Z) (q : Q) :
  round_double z = Fin q -> exists d, q = inject_Z d.
Proof.
  unfold round_double. cbv zeta.
  destruct (2 ^ 1024 <=? _); [destruct (z <? 0); discriminate|].
  intros [= <-]. eauto.
Qed.

Lemma rounds_to_spec (c v : Z) :
  rounds_to c v = true <-> round_double c = ofZ v.
Proof.
  unfold rounds_to. split.
  - destruct (round_double c) as [| | |q] eqn:E; try discriminate.
    destruct (round_double_integer c q E) as (d & ->).
    intros Hq. apply Qeq_bool_iff in Hq. unfold Qeq in Hq. simpl in Hq.
    unfold ofZ. do 2 f_equal. lia.
  - intros ->. apply Qeq_bool_iff. reflexivity.
Qed.

Lemma double_below_overflow (d : Z) :
  is_double d -> Z.abs d < 2 ^ 1024 - 2 ^ 970.
Proof.
  intros (m & e & Hm & He & ->).
  assert (0 < 2 ^ e) by (apply Z.pow_pos_nonneg; lia).
  assert (2 ^ e <= 2 ^ 971) by (apply Z.pow_le_mono_r; lia).
  assert (m * 2 ^ e <= (2 ^ 53 - 1) * 2 ^ 971)
    by (apply Z.mul_le_mono_nonneg; lia).
  lia.
Qed.

(** What a finite [round_double] says. *)
Lemma round_double_finite (c v : Z) :
  round_double c = ofZ v ->
  Z.abs c < 2 ^ 1024 - 2 ^ 970 /\ is_double v /\
  forall d', is_double d' -> Z.abs (v - c) <= Z.abs (d' - c).
Proof.
  intros Hc. pose proof (round_double_nearest c) as Hn.
  rewrite Hc in Hn. unfold Number_value in Hn.
  destruct (Z.ltb_spec (Z.abs c) (2 ^ 1024 - 2 ^ 970)) as [Hlt|Hge].
  - destruct Hn as (d & Hd & Hdouble & Hnear).
    assert (d = v) as ->.
    { unfold ofZ in Hd. injection Hd as Hd. lia. }
    split; [exact Hlt|]. split; [exact Hdouble|].
    intros d' Hd'. destruct (Z.eq_dec d' v) as [->|Hne]; [lia|].
    destruct (Hnear d' Hd' Hne) as [?|[? _]]; lia.
  - destruct (c <? 0); discriminate.
Qed.

(** The integers with the same Number value are an interval. *)
Lemma round_double_convex (c x v : Z) :
  round_double c = ofZ v ->
  c <= x <= v \/ v <= x <= c ->
  round_double x = ofZ v.
Proof.
  intros Hc Hx.
  destruct (round_double_finite c v Hc) as (Hcfin & Hv & Hnear).
  pose proof (double_below_overflow v Hv) as Hvfin.
  pose proof (round_double_nearest x) as Hn. unfold Number_value in Hn.
  destruct (Z.ltb_spec (Z.abs x) (2 ^ 1024 - 2 ^ 970)) as [Hlt|Hge]; [|lia].
  destruct Hn as (d & Hd & Hdouble & Hdnear). rewrite Hd.
  destruct (Z.eq_dec d v) as [->|Hne]; [reflexivity|]. exfalso.
  destruct (Z.eq_dec x c) as [->|Hxc].
  - rewrite Hc in Hd. unfold ofZ in Hd. injection Hd as Hd. lia.
  - specialize (Hnear d Hdouble).
    assert (Z.abs (d - x) <= Z.abs (v - x))
      by (destruct (Hdnear v Hv ltac:(congruence)) as [?|[? _]]; lia).
    lia.
Qed.

(** The turn of [shortest_round_trip] for the zeros [j]. *)
Lemma shortest_round_trip_cases (j : nat) (v : Z) :
  let p := 10 ^ Z.of_nat j in
  let lo := v / p * p in
  (shortest_round_trip j v = lo /\ 0 < lo /\ round_double lo = ofZ v /\
   (round_double (lo + p) = ofZ v -> v - lo <= lo + p - v)) \/
  (shortest_round_trip j v = lo + p /\ round_double (lo + p) = ofZ v /\
   (0 < lo -> round_double lo = ofZ v -> lo + p - v <= v - lo)) \/
  ((0 < lo -> round_double lo <> ofZ v) /\
   round_double (lo + p) <> ofZ v /\
   shortest_round_trip j v = match j with
                             | O => v
                             | S j' => shortest_round_trip j' v
                             end).
Proof.
  intros p lo.
  assert (Hsrt : shortest_round_trip j v =
                 if (0 <? lo) && rounds_to lo v && rounds_to (lo + p) v then
                   if v - lo <? lo + p - v then lo
                   else if lo + p - v <? v - lo then lo + p
                        else if Z.even (lo / p) then lo else lo + p
                 else if (0 <? lo) && rounds_to lo v then lo
                      else if rounds_to (lo + p) v then lo + p
                           else match j with
                                | O => v
                                | S j' => shortest_round_trip j' v
                                end)
    by (destruct j; reflexivity).
  rewrite Hsrt. clear Hsrt.
  destruct (Z.ltb_spec 0 lo) as [Hpos|Hneg];
    destruct (rounds_to lo v) eqn:Elo;
    destruct (rounds_to (lo + p) v) eqn:Ehi; cbn [andb].
  - apply rounds_to_spec in Elo, Ehi.
    destruct (Z.ltb_spec (v - lo) (lo + p - v)); [left; repeat split; auto; lia|].
    destruct (Z.ltb_spec (lo + p - v) (v - lo));
      [right; left; repeat split; auto; lia|].
    destruct (Z.even (lo / p)); [left|right; left]; repeat split; auto; lia.
  - apply rounds_to_spec in Elo. left. repeat split; auto.
    intros E. apply rounds_to_spec in E. congruence.
  - apply rounds_to_spec in Ehi. right. left. repeat split; auto.
    intros _ E. apply rounds_to_spec in E. congruence.
  - right. right. split; [|split; [|reflexivity]].
    + intros _ E. apply rounds_to_spec in E. congruence.
    + intros E. apply rounds_to_spec in E. congruence.
  - apply rounds_to_spec in Ehi. right. left. repeat split; auto. lia.
  - right. right. split; [lia|split; [|reflexivity]].
    intros E. apply rounds_to_spec in E. congruence.
  - apply rounds_to_spec in Ehi. right. left. repeat split; auto. lia.
  - right. right. split; [lia|split; [|reflexivity]].
    intros E. apply rounds_to_spec in E. congruence.
Qed.

(** The decimal that [String] prints reads back as the number. *)
Lemma shortest_round_trip_reads_back (j : nat) (v : Z) :
  round_double v = ofZ v ->
  round_double (shortest_round_trip j v) = ofZ v.
Proof.
  intros Hv. induction j as [|j IH].
  - destruct (shortest_round_trip_cases 0 v)
      as [(-> & _ & E & _)|[(-> & E & _)|(_ & _ & ->)]]; auto.
  - destruct (shortest_round_trip_cases (S j) v)
      as [(-> & _ & E & _)|[(-> & E & _)|(_ & _ & ->)]]; auto.
Qed.

Lemma multiple_candidates (p c v : Z) :
  0 < p -> 0 < c -> (p | c) -> round_double c = ofZ v ->
  0 < v / p * p /\ round_double (v / p * p) = ofZ v \/
  round_double (v / p * p + p) = ofZ v.
Proof.
  intros Hp Hc (t & ->) Hr.
  assert (Hlo : v / p * p <= v) by (rewrite Z.mul_comm; apply Z.mul_div_le; lia).
  assert (Hhi : v < v / p * p + p).
  { pose proof (Z.div_mod v p ltac:(lia)). pose proof (Z.mod_pos_bound v p Hp).
    lia. }
  destruct (Z.le_gt_cases (t * p) v) as [Hle|Hgt].
  - left.
    assert (t <= v / p) by (apply Z.div_le_lower_bound; lia).
    assert (t * p <= v / p * p) by (apply Z.mul_le_mono_nonneg_r; lia).
    split; [lia|]. apply (round_double_convex (t * p)); [exact Hr|lia].
  - right.
    assert (v / p < t).
    { apply Z.div_lt_upper_bound; lia. }
    assert ((v / p + 1) * p <= t * p) by (apply Z.mul_le_mono_nonneg_r; lia).
    apply (round_double_convex (t * p)); [exact Hr|lia].
Qed.

(** No integer that reads back as the number ends in more zeros than the
    decimal that [String] prints. *)
Lemma shortest_round_trip_zeros (j k : nat) (v c : Z) :
  (k <= j)%nat -> 0 < c -> (10 ^ Z.of_nat k | c) ->
  round_double c = ofZ v ->
  (10 ^ Z.of_nat k | shortest_round_trip j v).
Proof.
  intros Hk Hc Hdiv Hr.
  assert (Hpow : forall i : nat, (k <= i)%nat ->
                   (10 ^ Z.of_nat k | 10 ^ Z.of_nat i)).
  { intros i Hi. exists (10 ^ (Z.of_nat i - Z.of_nat k)).
    rewrite <- Z.pow_add_r by lia. f_equal. lia. }
  induction j as [|j IH].
  - assert (k = 0)%nat as -> by lia. apply Z.divide_1_l.
  - destruct (shortest_round_trip_cases (S j) v)
      as [(-> & _)|[(-> & _)|(Hnlo & Hnhi & ->)]].
    + apply Z.divide_mul_r. now apply Hpow.
    + apply Z.divide_add_r; [apply Z.divide_mul_r|]; now apply Hpow.
    + destruct (Nat.eq_dec k (S j)) as [->|Hne]; [|apply IH; lia].
      exfalso.
      assert (Hp : 0 < 10 ^ Z.of_nat (S j)) by (apply Z.pow_pos_nonneg; lia).
      destruct (multiple_candidates _ c v Hp Hc Hdiv Hr) as [[Hpos E]|E].
      * exact (Hnlo Hpos E).
      * exact (Hnhi E).
Qed.

(** Of the integers that read back as the number and end in as many zeros
    as can be, the decimal that [String] prints is one nearest to the
    number. *)
Lemma shortest_round_trip_nearest (j k : nat) (v c : Z) :
  0 <= v -> round_double v = ofZ v ->
  (k <= j)%nat -> 0 < c -> (10 ^ Z.of_nat k | c) ->
  round_double c = ofZ v ->
  (forall (i : nat) (c' : Z),
      (k < i <= j)%nat -> 0 < c' -> (10 ^ Z.of_nat i | c') ->
      round_double c' <> ofZ v) ->
  Z.abs (shortest_round_trip j v - v) <= Z.abs (c - v).
Proof.
  intros Hv Hvv Hk Hc Hdiv Hr Hmax.
  assert (Hp : forall i : nat, 0 < 10 ^ Z.of_nat i)
    by (intros i; apply Z.pow_pos_nonneg; lia).
  assert (Hlo : forall p, 0 < p -> 0 <= v / p * p <= v /\ v < v / p * p + p).
  { intros p Hpos. pose proof (Z.div_mod v p ltac:(lia)).
    pose proof (Z.mod_pos_bound v p Hpos).
    assert (0 <= v / p) by (apply Z.div_pos; lia).
    assert (0 <= v / p * p) by (apply Z.mul_nonneg_nonneg; lia). lia. }
  induction j as [|j IH].
  - assert (k = 0)%nat as -> by lia.
    destruct (shortest_round_trip_cases 0 v)
      as [(-> & _)|[(-> & Ehi & Hnear)|(Hnlo & Hnhi & ->)]];
      change (10 ^ Z.of_nat 0) with 1 in *;
      rewrite ?Z.div_1_r, ?Z.mul_1_r in *; [lia| |lia].
    destruct (Z.eq_dec v 0) as [->|Hv0]; [discriminate|].
    specialize (Hnear ltac:(lia) Hvv). lia.
  - destruct (Nat.eq_dec k (S j)) as [->|Hne].
    + clear IH. specialize (Hlo _ (Hp (S j))). destruct Hdiv as (t & ->).
      pose proof (shortest_round_trip_cases (S j) v) as Hcases.
      cbv zeta in Hcases. specialize (Hp (S j)).
      set (p := 10 ^ Z.of_nat (S j)) in *.
      assert (Hside : t * p <= v / p * p \/ v / p * p + p <= t * p).
      { destruct (Z.le_gt_cases t (v / p)).
        - left. apply Z.mul_le_mono_nonneg_r; lia.
        - right. replace (v / p * p + p) with ((v / p + 1) * p) by ring.
          apply Z.mul_le_mono_nonneg_r; lia. }
      destruct Hcases
        as [(-> & Hpos & Elo & Hnear)|[(-> & Ehi & Hnear)|(Hnlo & Hnhi & _)]].
      * destruct Hside as [?|Hside]; [lia|].
        assert (round_double (v / p * p + p) = ofZ v)
          by (apply (round_double_convex (t * p)); [exact Hr|lia]).
        specialize (Hnear ltac:(assumption)). lia.
      * destruct Hside as [Hside|?]; [|lia].
        assert (round_double (v / p * p) = ofZ v)
          by (apply (round_double_convex (t * p)); [exact Hr|lia]).
        specialize (Hnear ltac:(lia) ltac:(assumption)). lia.
      * exfalso. destruct Hside as [Hside|Hside].
        -- apply Hnlo; [lia|].
           apply (round_double_convex (t * p)); [exact Hr|lia].
        -- apply Hnhi.
           apply (round_double_convex (t * p)); [exact Hr|lia].
    + specialize (Hlo _ (Hp (S j))).
      destruct (shortest_round_trip_cases (S j) v)
        as [(_ & Hpos & Elo & _)|[(_ & Ehi & _)|(_ & _ & ->)]].
      * exfalso. apply (Hmax (S j) (v / 10 ^ Z.of_nat (S j) * 10 ^ Z.of_nat (S j)));
          [lia|exact Hpos|apply Z.divide_factor_r|exact Elo].
      * exfalso.
        apply (Hmax (S j) (v / 10 ^ Z.of_nat (S j) * 10 ^ Z.of_nat (S j)
                           + 10 ^ Z.of_nat (S j)));
          [lia|specialize (Hp (S j)); lia| |exact Ehi].
        apply Z.divide_add_r; [apply Z.divide_factor_r|apply Z.divide_refl].
      * apply IH; [lia|]. intros i c' Hi. apply Hmax. lia.
Qed.

Lemma radix_value_nonneg (R : Z) (ds : jsstring) :
  Forall (fun c => is_radix_digit R c = true) ds -> 0 <= radix_value R ds.
Proof.
  unfold radix_value. intros Hds.
  assert (Hacc : forall acc, 0 <= acc ->
            0 <= fold_left (fun acc c => acc * R + default 0 (digit_value c))
                           ds acc); [|apply Hacc; lia].
  induction Hds as [|c ds Hc _ IH]; intros acc Hacc; [exact Hacc|].
  cbn [fold_left]. apply IH.
  destruct (radix_digit_range R c Hc) as (d & -> & Hd & _). simpl.
  assert (0 <= acc * R) by (apply Z.mul_nonneg_nonneg; lia). lia.
Qed.

Lemma parseInt_digits (R : Z) (ds : jsstring) :
  ds <> [] ->
  Forall (fun c => is_radix_digit R c = true) ds ->
  radix_value R ds <= 2 ^ 53 ->
  parseInt ds R = ofZ (radix_value R ds).
Proof.
  intros Hne Hds Hb. unfold parseInt. rewrite parseInt_run_digits by assumption.
  destruct ds; [congruence|].
  pose proof (radix_value_nonneg R _ Hds) as Hpos.
  rewrite round_double_small by lia.
  now rewrite sign_times_ofZ, Z.mul_1_l.
Qed.

Lemma decimal_digit_range (x : N) :
  is_radix_digit 10 x = true -> (48 <= x <= 57)%N.
Proof.
  intros Hx. destruct (radix_digit_range 10 x Hx) as (d & Hd & Hr & _).
  destruct (digit_value_range x d Hd) as [[? ?]|[[? ?]|[? ?]]]; lia.
Qed.

Lemma radix_digit_no_sign (R : Z) (c : N) :
  is_radix_digit R c = true -> N.eqb c 45 = false /\ N.eqb c 43 = false.
Proof.
  intros Hc. destruct (radix_digit_range R c Hc) as (d & _ & _ & Hr).
  split; apply N.eqb_neq; lia.
Qed.

Lemma substring_in_range (s : jsstring) (a b : Z) :
  0 <= a <= b -> b <= jslength s -> substring s a b = extract s a b.
Proof.
  intros Ha Hb. unfold substring.
  now rewrite (Z.max_l a 0), (Z.max_l b 0), (Z.min_l a (jslength s)),
    (Z.min_l b (jslength s)), (Z.min_l a b), (Z.max_r a b) by lia.
Qed.

Lemma substring_tail (x : N) (s : jsstring) :
  substring (x :: s) 1 (jslength (x :: s)) = s.
Proof.
  rewrite substring_in_range by (unfold jslength; simpl length; lia).
  unfold extract, jslength. change (Z.to_nat 1) with 1%nat. simpl skipn.
  apply firstn_all2. simpl length. lia.
Qed.

Lemma startsWith_char (c x : N) (s : jsstring) :
  startsWith (c :: s) [x] = N.eqb x c.
Proof.
  cbn [startsWith]. now destruct (N.eqb x c).
Qed.

Lemma split_sign_none (c : N) (s : jsstring) :
  N.eqb c 45 = false -> N.eqb c 43 = false ->
  split_sign (c :: s) = (1, c :: s).
Proof.
  intros Hm Hp. unfold split_sign.
  change (js "-") with [45%N]. change (js "+") with [43%N].
  rewrite !startsWith_char, (N.eqb_sym 45), (N.eqb_sym 43), Hm, Hp.
  reflexivity.
Qed.

Lemma split_sign_minus (s : jsstring) : split_sign (45%N :: s) = (-1, s).
Proof.
  unfold split_sign. change (js "-") with [45%N].
  rewrite !startsWith_char, N.eqb_refl, substring_tail. reflexivity.
Qed.

Lemma split_sign_plus (s : jsstring) : split_sign (43%N :: s) = (1, s).
Proof.
  unfold split_sign. change (js "-") with [45%N]. change (js "+") with [43%N].
  rewrite !startsWith_char, N.eqb_refl, substring_tail. reflexivity.
Qed.

Lemma split_base_decimal (ds : jsstring) :
  Forall (fun c => is_radix_digit 10 c = true) ds -> split_base ds = (10, ds).
Proof.
  intros Hds. destruct ds as [|z [|x r]]; try reflexivity.
  pose proof (decimal_digit_range x (Forall_inv (Forall_inv_tail Hds))).
  unfold split_base.
  assert (N.eqb x 120 = false /\ N.eqb x 88 = false /\ N.eqb x 111 = false
          /\ N.eqb x 79 = false /\ N.eqb x 98 = false /\ N.eqb x 66 = false)
    as (-> & -> & -> & -> & -> & ->)
    by (repeat split; apply N.eqb_neq; lia).
  now rewrite !andb_false_r.
Qed.

Lemma split_base_literal (pre ds : jsstring) (b : Z) :
  spec_base pre = Some b ->
  Forall (fun c => is_radix_digit b c = true) ds ->
  split_base (pre ++ ds) = (b, ds).
Proof.
  intros Hb Hds. unfold spec_base, jseqb in Hb.
  repeat (case_bool_decide; simpl in Hb); subst; try discriminate;
    injection Hb as <-; try reflexivity.
  now apply split_base_decimal.
Qed.

Lemma int_parts_literal (sg pre ds : jsstring) (s b : Z) :
  spec_sign sg = Some s -> spec_base pre = Some b ->
  ds <> [] -> Forall (fun c => is_radix_digit b c = true) ds ->
  int_parts (sg ++ pre ++ ds) = (s, b, ds).
Proof.
  intros Hs Hb Hne Hds. unfold int_parts.
  assert (Hsign : split_sign (sg ++ pre ++ ds) = (s, pre ++ ds)).
  { unfold spec_sign, jseqb in Hs.
    repeat (case_bool_decide; simpl in Hs); subst; try discriminate;
      injection Hs as <-.
    - destruct ds as [|c ds]; [congruence|].
      destruct (radix_digit_no_sign b c (Forall_inv Hds)) as [Hm Hp].
      unfold spec_base, jseqb in Hb.
      repeat (case_bool_decide; simpl in Hb); subst; try discriminate;
        try (now apply split_sign_none).
    - apply split_sign_plus.
    - apply split_sign_minus. }
  rewrite Hsign, (split_base_literal pre ds b) by assumption.
  reflexivity.
Qed.

(** *** The parts of a reading, one at a time *)

Lemma trimStart_skips (ws s : jsstring) :
  forallb isWhiteSpace ws = true -> starts_with isWhiteSpace s = false ->
  trimStart (ws ++ s) = s.
Proof.
  intros Hws Hs. induction ws as [|c ws IH]; cbn [app trimStart].
  - destruct s as [|c s]; [reflexivity|]. cbn [starts_with] in Hs.
    cbn [trimStart]. now rewrite Hs.
  - cbn [forallb] in Hws. apply andb_prop in Hws as [-> Hws]. now apply IH.
Qed.

Lemma radix_prefix_run (R : Z) (ds rest : jsstring) :
  forallb (is_radix_digit R) ds = true ->
  starts_with (is_radix_digit R) rest = false ->
  radix_prefix R (ds ++ rest) = ds.
Proof.
  intros Hds Hrest. induction ds as [|c ds IH]; cbn [app radix_prefix].
  - destruct rest as [|c r]; [reflexivity|]. cbn [starts_with] in Hrest.
    cbn [radix_prefix]. now rewrite Hrest.
  - cbn [forallb] in Hds. apply andb_prop in Hds as [-> Hds]. now rewrite IH.
Qed.

Lemma spec_sign_cases (sg : jsstring) (s : Z) :
  spec_sign sg = Some s ->
  sg = [] /\ s = 1 \/ sg = [43%N] /\ s = 1 \/ sg = [45%N] /\ s = -1.
Proof.
  unfold spec_sign, jseqb. intros Hs.
  repeat (case_bool_decide; simpl in Hs); subst; try discriminate;
    injection Hs as <-; auto.
Qed.

Lemma is_sign_false (c : N) :
  is_sign c = false -> N.eqb c 45 = false /\ N.eqb c 43 = false.
Proof.
  unfold is_sign. intros Hc. apply orb_false_elim in Hc as [-> ->]. auto.
Qed.

Lemma split_sign_reading (sg rest : jsstring) (s : Z) :
  spec_sign sg = Some s ->
  (sg = [] -> starts_with is_sign rest = false) ->
  split_sign (sg ++ rest) = (s, rest).
Proof.
  intros Hs Hrest.
  destruct (spec_sign_cases sg s Hs) as [[-> ->]|[[-> ->]|[-> ->]]].
  - destruct rest as [|c r]; [reflexivity|].
    destruct (is_sign_false c (Hrest eq_refl)). now apply split_sign_none.
  - apply split_sign_plus.
  - apply split_sign_minus.
Qed.

Lemma hex_prefix_test (z x : N) (r : jsstring) :
  has_hex_prefix (z :: x :: r) = N.eqb z 48 && (N.eqb x 120 || N.eqb x 88).
Proof.
  unfold has_hex_prefix.
  change (js "0x") with [48; 120]%N. change (js "0X") with [48; 88]%N.
  cbn [startsWith]. rewrite (N.eqb_sym 48 z), (N.eqb_sym 120 x), (N.eqb_sym 88 x).
  now destruct (N.eqb z 48), (N.eqb x 120), (N.eqb x 88).
Qed.

Lemma base_prefix_test (z x : N) (r : jsstring) :
  has_base_prefix (z :: x :: r) =
  N.eqb z 48 && (N.eqb x 120 || N.eqb x 88)
  || N.eqb z 48 && (N.eqb x 111 || N.eqb x 79)
  || N.eqb z 48 && (N.eqb x 98 || N.eqb x 66).
Proof.
  unfold has_base_prefix. rewrite hex_prefix_test.
  change (js "0o") with [48; 111]%N. change (js "0O") with [48; 79]%N.
  change (js "0b") with [48; 98]%N. change (js "0B") with [48; 66]%N.
  cbn [startsWith].
  rewrite (N.eqb_sym 48 z), (N.eqb_sym 111 x), (N.eqb_sym 79 x),
    (N.eqb_sym 98 x), (N.eqb_sym 66 x).
  now destruct (N.eqb z 48), (N.eqb x 120), (N.eqb x 88), (N.eqb x 111),
    (N.eqb x 79), (N.eqb x 98), (N.eqb x 66).
Qed.

Lemma hex_prefix_short (z : N) : has_hex_prefix [z] = false.
Proof.
  unfold has_hex_prefix.
  change (js "0x") with [48; 120]%N. change (js "0X") with [48; 88]%N.
  cbn [startsWith]. now destruct (N.eqb 48 z).
Qed.

Lemma base_prefix_short (z : N) : has_base_prefix [z] = false.
Proof.
  unfold has_base_prefix. rewrite hex_prefix_short.
  change (js "0o") with [48; 111]%N. change (js "0O") with [48; 79]%N.
  change (js "0b") with [48; 98]%N. change (js "0B") with [48; 66]%N.
  cbn [startsWith]. now destruct (N.eqb 48 z).
Qed.

Lemma spec_base_cases (pre : jsstring) (b : Z) :
  spec_base pre = Some b ->
  pre = [] /\ b = 10 \/
  (pre = [48; 120]%N \/ pre = [48; 88]%N) /\ b = 16 \/
  (pre = [48; 111]%N \/ pre = [48; 79]%N) /\ b = 8 \/
  (pre = [48; 98]%N \/ pre = [48; 66]%N) /\ b = 2.
Proof.
  unfold spec_base, jseqb. intros Hb.
  repeat (case_bool_decide; simpl in Hb); subst; try discriminate;
    injection Hb as <-; auto 10.
Qed.

Lemma split_base_reading (pre rest : jsstring) (b : Z) :
  spec_base pre = Some b ->
  (pre = [] -> has_base_prefix rest = false) ->
  split_base (pre ++ rest) = (b, rest).
Proof.
  intros Hb Hrest.
  destruct (spec_base_cases pre b Hb)
    as [[-> ->]|[[[-> | ->] ->]|[[[-> | ->] ->]|[[-> | ->] ->]]]];
    try reflexivity.
  specialize (Hrest eq_refl). destruct rest as [|z [|x r]]; try reflexivity.
  rewrite base_prefix_test in Hrest.
  apply orb_false_elim in Hrest as [Hrest Hb2].
  apply orb_false_elim in Hrest as [Hb16 Hb8].
  cbn [app split_base]. now rewrite Hb16, Hb8, Hb2.
Qed.

Lemma strip_hex_reading (b : Z) (pre2 rest : jsstring) :
  (pre2 = [] /\ (b = 16 -> has_hex_prefix rest = false) \/
   b = 16 /\ (pre2 = js "0x" \/ pre2 = js "0X")) ->
  (if b =? 16
   then match pre2 ++ rest with
        | z :: x :: r =>
            if N.eqb z 48 && (N.eqb x 120 || N.eqb x 88)
            then r else pre2 ++ rest
        | _ => pre2 ++ rest
        end
   else pre2 ++ rest) = rest.
Proof.
  intros [[-> Hrest]|[-> [-> | ->]]]; try reflexivity.
  destruct (Z.eqb_spec b 16) as [Hb|]; [|reflexivity].
  specialize (Hrest Hb). destruct rest as [|z [|x r]]; try reflexivity.
  rewrite hex_prefix_test in Hrest. cbn [app]. now rewrite Hrest.
Qed.

Lemma parseInt_run_reading (b : Z) (ws sg2 pre2 ds rest : jsstring) (s2 : Z) :
  forallb isWhiteSpace ws = true ->
  starts_with isWhiteSpace (sg2 ++ pre2 ++ ds ++ rest) = false ->
  spec_sign sg2 = Some s2 ->
  (sg2 = [] -> starts_with is_sign (pre2 ++ ds ++ rest) = false) ->
  (pre2 = [] /\ (b = 16 -> has_hex_prefix (ds ++ rest) = false) \/
   b = 16 /\ (pre2 = js "0x" \/ pre2 = js "0X")) ->
  forallb (is_radix_digit b) ds = true ->
  starts_with (is_radix_digit b) rest = false ->
  parseInt_run (ws ++ sg2 ++ pre2 ++ ds ++ rest) b = (s2, ds).
Proof.
  intros Hws Hnows Hs2 Hnosign Hpre2 Hds Hrest. unfold parseInt_run.
  rewrite trimStart_skips by assumption.
  assert (Hsign :
            match sg2 ++ pre2 ++ ds ++ rest with
            | c :: r => if N.eqb c 45 then (-1, r)
                        else if N.eqb c 43 then (1, r)
                             else (1, sg2 ++ pre2 ++ ds ++ rest)
            | [] => (1, sg2 ++ pre2 ++ ds ++ rest)
            end = (s2, pre2 ++ ds ++ rest)).
  { destruct (spec_sign_cases sg2 s2 Hs2) as [[-> ->]|[[-> ->]|[-> ->]]];
      try reflexivity.
    cbn [app]. destruct (pre2 ++ ds ++ rest) as [|c r]; [reflexivity|].
    destruct (is_sign_false c (Hnosign eq_refl)) as [-> ->]. reflexivity. }
  rewrite Hsign, (strip_hex_reading b pre2 (ds ++ rest) Hpre2).
  now rewrite radix_prefix_run.
Qed.

Lemma radix_digits_Forall (R : Z) (ds : jsstring) :
  forallb (is_radix_digit R) ds = true ->
  Forall (fun c => is_radix_digit R c = true) ds.
Proof.
  induction ds as [|c ds IH]; intros Hds; constructor;
    cbn [forallb] in Hds; apply andb_prop in Hds as [Hc Hds]; auto.
Qed.

Lemma render_int_reading (c sg pre ws sg2 pre2 ds rest : jsstring)
  (s b s2 : Z) :
  int_reading c sg pre ws sg2 pre2 ds rest s b s2 ->
  render_int c =
  match ds with
  | [] => NaN
  | _ => sign_times s (sign_times s2 (round_double (radix_value b ds)))
  end.
Proof.
  intros (-> & Hs & Hnosign & Hb & Hnopre & Hws & Hnows & Hs2 & Hnosign2
          & Hpre2 & Hds & Hrest).
  unfold render_int, int_parts.
  rewrite (split_sign_reading sg _ s Hs Hnosign),
    (split_base_reading pre _ b Hb Hnopre).
  unfold parseInt.
  rewrite (parseInt_run_reading b ws sg2 pre2 ds rest s2) by assumption.
  now destruct ds.
Qed.

(** Every string has a reading. *)
Lemma sign_split (c : jsstring) :
  exists sg rest s,
    c = sg ++ rest /\ spec_sign sg = Some s /\
    (sg = [] -> starts_with is_sign rest = false).
Proof.
  destruct c as [|x r].
  - exists [], [], 1. auto.
  - destruct (N.eqb_spec x 43) as [->|H43].
    + exists [43%N], r, 1. repeat split. discriminate.
    + destruct (N.eqb_spec x 45) as [->|H45].
      * exists [45%N], r, (-1). repeat split. discriminate.
      * exists [], (x :: r), 1. repeat split. intros _.
        unfold starts_with, is_sign.
        now rewrite (proj2 (N.eqb_neq _ _) H43), (proj2 (N.eqb_neq _ _) H45).
Qed.

Lemma base_split (c : jsstring) :
  exists pre rest b,
    c = pre ++ rest /\ spec_base pre = Some b /\
    (pre = [] -> has_base_prefix rest = false).
Proof.
  destruct (has_base_prefix c) eqn:Hc;
    [|exists [], c, 10; repeat split; auto].
  destruct c as [|z [|x r]];
    [discriminate|now rewrite base_prefix_short in Hc|].
  rewrite base_prefix_test in Hc.
  destruct (N.eqb_spec z 48) as [->|]; [|discriminate]. simpl in Hc.
  destruct (N.eqb_spec x 120) as [->|];
    [exists [48; 120]%N, r, 16; repeat split; discriminate|].
  destruct (N.eqb_spec x 88) as [->|];
    [exists [48; 88]%N, r, 16; repeat split; discriminate|].
  destruct (N.eqb_spec x 111) as [->|];
    [exists [48; 111]%N, r, 8; repeat split; discriminate|].
  destruct (N.eqb_spec x 79) as [->|];
    [exists [48; 79]%N, r, 8; repeat split; discriminate|].
  destruct (N.eqb_spec x 98) as [->|];
    [exists [48; 98]%N, r, 2; repeat split; discriminate|].
  destruct (N.eqb_spec x 66) as [->|];
    [exists [48; 66]%N, r, 2; repeat split; discriminate|].
  discriminate.
Qed.

Lemma run_split (p : N -> bool) (c : jsstring) :
  exists run rest,
    c = run ++ rest /\ forallb p run = true /\ starts_with p rest = false.
Proof.
  induction c as [|x c (run & rest & -> & Hrun & Hrest)].
  - exists [], []. auto.
  - destruct (p x) eqn:Hx.
    + exists (x :: run), rest. repeat split; [|assumption].
      simpl. now rewrite Hx.
    + exists [], (x :: run ++ rest). auto.
Qed.

Lemma hex_split (b : Z) (c : jsstring) :
  exists pre2 rest,
    c = pre2 ++ rest /\
    (pre2 = [] /\ (b = 16 -> has_hex_prefix rest = false) \/
     b = 16 /\ (pre2 = js "0x" \/ pre2 = js "0X")).
Proof.
  destruct (Z.eq_dec b 16) as [->|Hb];
    [|exists [], c; split; [reflexivity|left; split; [reflexivity|tauto]]].
  destruct (has_hex_prefix c) eqn:Hc;
    [|exists [], c; split; [reflexivity|left; auto]].
  destruct c as [|z [|x r]];
    [discriminate|now rewrite hex_prefix_short in Hc|].
  rewrite hex_prefix_test in Hc.
  destruct (N.eqb_spec z 48) as [->|]; [|discriminate]. simpl in Hc.
  destruct (N.eqb_spec x 120) as [->|];
    [exists [48; 120]%N, r; split; [reflexivity|right; auto]|].
  destruct (N.eqb_spec x 88) as [->|];
    [exists [48; 88]%N, r; split; [reflexivity|right; auto]|].
  discriminate.
Qed.

Lemma int_reading_exists (c : jsstring) :
  exists sg pre ws sg2 pre2 ds rest s b s2,
    int_reading c sg pre ws sg2 pre2 ds rest s b s2.
Proof.
  destruct (sign_split c) as (sg & c1 & s & -> & Hs & Hnosign).
  destruct (base_split c1) as (pre & c2 & b & -> & Hb & Hnopre).
  destruct (run_split isWhiteSpace c2) as (ws & c3 & -> & Hws & Hnows).
  destruct (sign_split c3) as (sg2 & c4 & s2 & -> & Hs2 & Hnosign2).
  destruct (hex_split b c4) as (pre2 & c5 & -> & Hpre2).
  destruct (run_split (is_radix_digit b) c5) as (ds & rest & -> & Hds & Hrest).
  exists sg, pre, ws, sg2, pre2, ds, rest, s, b, s2.
  unfold int_reading. auto 15.
Qed.

End IntegerFacts.

Section BaseRendering.
Context `{Platform}.

Lemma renderBaseContent_int (v : TycoValue) (nb ab : bool) :
  typeName v = JVal (js "int") ->
  attrName (meta v) <> JNull ->
  isNullable (meta v) = Some nb ->
  isArray (meta v) = Some ab ->
  (nb = true -> content v <> js "null") ->
  TycoValue_renderBaseContent v =
  Ok (set_rendered v (isLiteralStr v) (VNum (render_int (content v)))).
Proof.
  intros Ht Ha Hn Hr Hnull. unfold TycoValue_renderBaseContent.
  rewrite Ht, Hn, Hr. simpl is_null.
  assert (is_null (attrName (meta v)) = false) as ->
    by (destruct (attrName (meta v)); [congruence|reflexivity..]).
  rewrite !bool_decide_eq_false_2 by discriminate. simpl orb. cbv iota.
  assert (is_true (Some nb) && jseqb (content v) (js "null") = false) as ->.
  { destruct nb; [|reflexivity]. simpl. apply bool_decide_eq_false_2. auto. }
  reflexivity.
Qed.

Lemma render_int_literal (sg pre ds : jsstring) (s b : Z) :
  spec_sign sg = Some s -> spec_base pre = Some b ->
  ds <> [] -> Forall (fun c => is_radix_digit b c = true) ds ->
  radix_value b ds <= 2 ^ 53 ->
  render_int (sg ++ pre ++ ds) = ofZ (s * radix_value b ds).
Proof.
  intros Hs Hb Hne Hds Hbound. unfold render_int.
  rewrite (int_parts_literal sg pre ds s b) by assumption.
  now rewrite parseInt_digits, sign_times_ofZ.
Qed.

(** C6: base rendering of an int Primitive whose content is an optional
    sign, then 0x/0X (base 16), 0o/0O (base 8), 0b/0B (base 2) or no prefix
    (base 10), then digits of that base, returns the value of the digits in
    that base with the sign applied (the magnitude being at most 2^53, where
    doubles are exact); 0xFF renders to 255, 0o777 to 511 and 0b1010 to
    10. *)
Theorem int_base_rendering :
  (forall (v : TycoValue) (sg pre ds : jsstring) (s b : Z) (nb ab : bool),
      typeName v = JVal (js "int") ->
      attrName (meta v) <> JNull ->
      isNullable (meta v) = Some nb ->
      isArray (meta v) = Some ab ->
      content v = sg ++ pre ++ ds ->
      spec_sign sg = Some s -> spec_base pre = Some b ->
      ds <> [] -> Forall (fun c => is_radix_digit b c = true) ds ->
      radix_value b ds <= 2 ^ 53 ->
      TycoValue_renderBaseContent v =
      Ok (set_rendered v (isLiteralStr v)
            (VNum (ofZ (s * radix_value b ds))))) /\
  render_int (js "0xFF") = ofZ 255 /\
  render_int (js "0o777") = ofZ 511 /\
  render_int (js "0b1010") = ofZ 10.
Proof.
  split; [|repeat split].
  intros v sg pre ds s b nb ab Ht Ha Hn Hr Hc Hs Hb Hne Hds Hbound.
  rewrite (renderBaseContent_int v nb ab Ht Ha Hn Hr).
  { rewrite Hc. now rewrite (render_int_literal sg pre ds s b). }
  intros -> Hnull. rewrite Hnull in Hc.
  assert (Hp : int_parts (js "null") = (s, b, ds))
    by (rewrite Hc; now apply int_parts_literal).
  vm_compute in Hp. injection Hp as <- <- <-.
  apply Forall_inv in Hds. discriminate.
Qed.

(** C9 (amended): for every int Primitive that is not the null of a nullable
    attribute, renderBaseContent raises no error, whatever the content, and
    base rendering of no Primitive fails with InvalidNumber.  Every content
    has a reading: the sign and the prefix that the code takes, then what
    parseInt skips on its own (white space, one more sign and, in base 16,
    one more 0x or 0X), then the longest run of digits of the base.  The
    rendered value is NaN when that run is empty; otherwise it is the double
    nearest to the value of the run (the one with the even significand when
    two are equally near, an infinity from 2^1024 - 2^970 on), with the two
    signs applied, also when other characters follow the run.  Up to 2^53
    that double is the value itself. *)
Theorem int_rendering_total :
  (forall c : jsstring,
      exists (sg pre ws sg2 pre2 ds rest : jsstring) (s b s2 : Z),
        int_reading c sg pre ws sg2 pre2 ds rest s b s2) /\
  (forall (v : TycoValue) (nb ab : bool)
          (sg pre ws sg2 pre2 ds rest : jsstring) (s b s2 : Z),
      typeName v = JVal (js "int") ->
      attrName (meta v) <> JNull ->
      isNullable (meta v) = Some nb ->
      isArray (meta v) = Some ab ->
      (nb = true -> content v <> js "null") ->
      int_reading (content v) sg pre ws sg2 pre2 ds rest s b s2 ->
      TycoValue_renderBaseContent v =
      Ok (set_rendered v (isLiteralStr v)
            (VNum match ds with
                  | [] => NaN
                  | _ => sign_times s
                           (sign_times s2 (round_double (radix_value b ds)))
                  end)) /\
      Number_value (radix_value b ds) (round_double (radix_value b ds)) /\
      (radix_value b ds <= 2 ^ 53 ->
       round_double (radix_value b ds) = ofZ (radix_value b ds))) /\
  (forall v : TycoValue,
      TycoValue_renderBaseContent v <> Throw (TycoError InvalidNumber)).
Proof.
  split; [exact int_reading_exists|split].
  - intros v nb ab sg pre ws sg2 pre2 ds rest s b s2 Ht Ha Hn Hr Hnull Hc.
    split; [|split].
    + rewrite (renderBaseContent_int v nb ab Ht Ha Hn Hr Hnull).
      now rewrite (render_int_reading _ _ _ _ _ _ _ _ _ _ _ Hc).
    + apply round_double_nearest.
    + intros Hbound. apply round_double_small.
      destruct Hc as (_ & _ & _ & _ & _ & _ & _ & _ & _ & _ & Hds & _).
      pose proof (radix_value_nonneg b ds (radix_digits_Forall b ds Hds)).
      lia.
  - intros v. unfold TycoValue_renderBaseContent, fail.
    repeat case_match; discriminate.
Qed.

End BaseRendering.

Lemma int_base_rendering_witness :
  TycoValue_renderBaseContent (H := sample_platform)
    (typed "int" "port" (js "-0x1F")) =
  Ok (set_rendered (typed "int" "port" (js "-0x1F")) false (VNum (ofZ (-31)))).
Proof.
  apply (proj1 (int_base_rendering (H := sample_platform))
           (typed "int" "port" (js "-0x1F")) (js "-") (js "0x") (js "1F")
           (-1) 16 false false);
    try reflexivity; try discriminate.
  unfold js; simpl; repeat constructor.
Defined.

Lemma int_rendering_total_witness :
  TycoValue_renderBaseContent (H := sample_platform)
    (typed "int" "port" (js "+0x -0X1Fzz")) =
  Ok (set_rendered (typed "int" "port" (js "+0x -0X1Fzz")) false
        (VNum (ofZ (-31)))).
Proof.
  refine (proj1 (proj1 (proj2 (int_rendering_total (H := sample_platform)))
                   (typed "int" "port" (js "+0x -0X1Fzz")) false false
                   (js "+") (js "0x") (js " ") (js "-") (js "0X") (js "1F")
                   (js "zz") 1 16 (-1) _ _ _ _ _ _));
    try reflexivity; try discriminate.
  unfold int_reading. repeat split; try discriminate.
  right. split; [reflexivity|]. now right.
Defined.

(** C9 as stated fails on content with a leading run of digits: 12abc is no
    integer literal, and it renders to 12, not to NaN. *)
Lemma int_rendering_trailing_garbage :
  is_int_literal (js "12abc") = false /\
  TycoValue_renderBaseContent (H := sample_platform)
    (typed "int" "port" (js "12abc")) =
  Ok (set_rendered (typed "int" "port" (js "12abc")) false (VNum (ofZ 12))) /\
  ofZ 12 <> NaN.
Proof.
  repeat split; discriminate.
Qed.

(** Above 2^53 the value is rounded to a double, to the even significand
    when it is half way; from about 1.8e308 on it is an infinity. *)
Example int_rendering_rounds :
  render_int (js "9007199254740993") = ofZ 9007199254740992 /\
  render_int (js "9007199254740995") = ofZ 9007199254740996 /\
  render_int (js "-0x20000000000001") = ofZ (-9007199254740992) /\
  render_int (repeat 57%N 400) = PosInf /\
  render_int (45%N :: repeat 57%N 400) = NegInf.
Proof.
  repeat split.
Qed.

(** What base rendering makes of malformed content. *)
Example int_rendering_examples :
  render_int (js "abc") = NaN /\
  render_int [] = NaN /\
  render_int (js "0x") = NaN /\
  render_int (js "-") = NaN /\
  render_int (js "12abc") = ofZ 12 /\
  render_int (js "--5") = ofZ 5 /\
  render_int (js "0x0x1F") = ofZ 31 /\
  render_int (js "1_000") = ofZ 1.
Proof.
  repeat split.
Qed.

(** ** Literal strings *)

Section LiteralStrings.
Context `{Platform}.

Lemma extract_middle (a s b : jsstring) :
  extract (a ++ s ++ b) (jslength a) (jslength (a ++ s ++ b) - jslength b) = s.
Proof.
  unfold extract, jslength. rewrite !length_app.
  rewrite Nat2Z.id, skipn_app, skipn_all, Nat.sub_diag. simpl.
  replace (Z.to_nat _) with (length s) by lia.
  change (drop 0 (s ++ b)) with (s ++ b).
  now rewrite firstn_app, firstn_all, Nat.sub_diag, app_nil_r.
Qed.

Lemma substring_middle (a s b : jsstring) :
  substring (a ++ s ++ b) (jslength a) (jslength (a ++ s ++ b) - jslength b) = s.
Proof.
  rewrite substring_in_range.
  - apply extract_middle.
  - unfold jslength. rewrite !length_app. lia.
  - unfold jslength. lia.
Qed.

Lemma substring_skip (s : jsstring) (n : nat) :
  (n <= length s)%nat ->
  substring s (Z.of_nat n) (jslength s) = skipn n s.
Proof.
  intros Hn. rewrite substring_in_range by (unfold jslength; lia).
  unfold extract. rewrite Nat2Z.id. apply firstn_all2.
  rewrite length_skipn. unfold jslength. lia.
Qed.

Lemma startsWith_length (s p : jsstring) :
  startsWith s p = true -> (length p <= length s)%nat.
Proof.
  revert s. induction p as [|a p IH]; intros s Hs; simpl; [lia|].
  destruct s as [|b s]; simpl in Hs; [discriminate|].
  destruct (N.eqb a b); [|discriminate]. apply IH in Hs. simpl. lia.
Qed.

Lemma strip_triple_literal (s : jsstring) :
  strip_delimiters (js "'''" ++ s ++ js "'''") =
  if startsWith s EOL then skipn (length EOL) s else s.
Proof.
  unfold strip_delimiters.
  change (startsWith (js "'''" ++ s ++ js "'''") (js "'''")) with true.
  cbv iota beta zeta. simpl orb. cbv iota.
  assert (Hm : substring (js "'''" ++ s ++ js "'''") 3
                 (jslength (js "'''" ++ s ++ js "'''") - 3) = s)
    by apply (substring_middle (js "'''") s (js "'''")).
  rewrite !Hm.
  destruct (startsWith s EOL) eqn:E; [|reflexivity].
  apply substring_skip. now apply startsWith_length.
Qed.

Lemma strip_single_literal (s : jsstring) :
  startsWith (js "'" ++ s ++ js "'") (js "'''") = false ->
  strip_delimiters (js "'" ++ s ++ js "'") = s.
Proof.
  intros Hs. unfold strip_delimiters. rewrite Hs.
  change (startsWith (js "'" ++ s ++ js "'") [34; 34; 34]%N) with false.
  change (startsWith (js "'" ++ s ++ js "'") (js "'")) with true.
  simpl orb. cbv iota.
  apply (substring_middle (js "'") s (js "'")).
Qed.

(** C7: a str Primitive whose content opens with the quote of a literal
    string is marked literal by base rendering, which sets its rendered
    value to the content without its delimiters: the text between the two
    triple quotes, less one leading EOL, or the text between the two single
    quotes.  renderReferences leaves the Primitive as it is, and
    renderTemplates returns it unchanged: no template is substituted and no
    escape sequence applied. *)
Theorem literal_string_fixed (ctx : TycoContext) (v : TycoValue)
  (nb ab : bool) :
  typeName v = JVal (js "str") ->
  attrName (meta v) <> JNull ->
  isNullable (meta v) = Some nb ->
  isArray (meta v) = Some ab ->
  startsWith (content v) (js "'") = true ->
  let v1 := set_rendered v true (VStr (strip_delimiters (content v))) in
  TycoValue_renderBaseContent v = Ok v1 /\
  renderReferences ctx (NValue v1) = Ok (NValue v1) /\
  TycoValue_renderTemplates ctx v1 = Ok v1 /\
  (forall s, content v = js "'''" ++ s ++ js "'''" ->
             rendered v1 = VStr (if startsWith s EOL
                                 then skipn (length EOL) s else s)) /\
  (forall s, content v = js "'" ++ s ++ js "'" ->
             startsWith (content v) (js "'''") = false ->
             rendered v1 = VStr s).
Proof.
  intros Ht Ha Hn Hr Hq v1. repeat split.
  - unfold TycoValue_renderBaseContent.
    rewrite Ht, Hn, Hr. simpl is_null.
    assert (is_null (attrName (meta v)) = false) as ->
      by (destruct (attrName (meta v)); [congruence|reflexivity..]).
    rewrite !bool_decide_eq_false_2 by discriminate. simpl orb. cbv iota.
    assert (jseqb (content v) (js "null") = false) as ->.
    { apply bool_decide_eq_false_2. intros E. rewrite E in Hq. discriminate. }
    rewrite andb_false_r, Hq. reflexivity.
  - unfold TycoValue_renderTemplates. subst v1. simpl.
    now rewrite orb_true_r.
  - intros s Hc. subst v1. simpl. rewrite Hc. f_equal.
    apply strip_triple_literal.
  - intros s Hc Hs. subst v1. simpl. rewrite Hc in *. f_equal.
    now apply strip_single_literal.
Qed.

End LiteralStrings.

Lemma literal_string_fixed_witness :
  let v := typed "str" "note" (js "'''" ++ [LF] ++ js "no {subst}\n" ++ js "'''") in
  let v1 := set_rendered v true (VStr (js "no {subst}\n")) in
  TycoValue_renderBaseContent (H := sample_platform) v = Ok v1 /\
  TycoValue_renderTemplates (H := sample_platform) new_TycoContext v1 = Ok v1.
Proof.
  intros v v1.
  destruct (literal_string_fixed (H := sample_platform) new_TycoContext v
              false false) as (Hb & _ & Ht & _); try reflexivity.
  - discriminate.
  - split; [exact Hb | exact Ht].
Defined.

(** ** Templates *)

Section TemplateFacts.
Context `{Platform}.

(** The lookup loop on the two segments [global] and [g]: when the object
    has neither an attribute [global] nor an attribute [global.g], the
    segments are merged before the test for [global], and the lookup
    fails. *)
Lemma walk_queue_global (ctx : TycoContext) (obj : Obj) (g : jsstring) :
  tryGetAttr ctx obj (js "global") = Ok None ->
  tryGetAttr ctx obj (js "global" ++ [DOT] ++ g) = Ok None ->
  walk_queue ctx (js "global") (js "global") [g] obj
  = Throw (TycoError UnknownAttr).
Proof.
  intros H1 H2. cbn [walk_queue]. rewrite H1. cbn [bind].
  rewrite H2. cbn [bind].
  assert (jseqb (js "global" ++ [DOT] ++ g) (js "global") = false) as ->.
  { apply bool_decide_eq_false_2. intros E.
    apply (f_equal length) in E. rewrite !length_app in E. simpl in E. lia. }
  reflexivity.
Qed.

Lemma split_dots_no_dot (acc s : jsstring) :
  DOT ∉ s -> split_dots acc s = [acc ++ s].
Proof.
  revert acc. induction s as [|c s IH]; intros acc Hs; simpl.
  - now rewrite app_nil_r.
  - apply not_elem_of_cons in Hs as [Hc Hs].
    destruct (N.eqb_spec c DOT) as [->|_]; [congruence|].
    rewrite IH by assumption. now rewrite <- app_assoc.
Qed.

Lemma split_dots_global (g : jsstring) :
  DOT ∉ g -> split_dots [] (js "global" ++ [DOT] ++ g) = [js "global"; g].
Proof.
  intros Hg. simpl. now rewrite split_dots_no_dot.
Qed.

(** For every value whose parent has neither an attribute [global] nor an
    attribute [global.g], the template [{global.g}] is not looked up in the
    globals: the callback throws UnknownAttr. *)
Lemma templateRender_global (ctx : TycoContext) (par : ParentRef)
  (g : jsstring) :
  DOT ∉ g ->
  tryGetAttr ctx (deref ctx par) (js "global") = Ok None ->
  tryGetAttr ctx (deref ctx par) (js "global" ++ [DOT] ++ g) = Ok None ->
  templateRender ctx par (js "global" ++ [DOT] ++ g)
  = Throw (TycoError UnknownAttr).
Proof.
  intros Hg H1 H2. unfold templateRender.
  change (startsWith (js "global" ++ [DOT] ++ g) (js "..")) with false.
  cbv iota. cbn [bind].
  rewrite (split_dots_global g Hg).
  change (js "global" ++ [DOT] ++ g)
    with (103%N :: (js "lobal" ++ [DOT] ++ g)). cbv iota.
  change (103%N :: (js "lobal" ++ [DOT] ++ g))
    with (js "global" ++ [DOT] ++ g) in *.
  now rewrite walk_queue_global.
Qed.

(** The switch to the globals happens for the single segment [global]. *)
Lemma walk_queue_global_alone (ctx : TycoContext) (obj : Obj) :
  tryGetAttr ctx obj (js "global") = Ok None ->
  walk_queue ctx (js "global") (js "global") [] obj = Ok OGlobals.
Proof.
  intros H1. cbn [walk_queue]. rewrite H1. reflexivity.
Qed.

End TemplateFacts.

(** C1 (not met by the code): with a global env and the instance row
    [- api, "{global.env}"] of a struct Service, the render pipeline does not
    substitute the global: renderTemplates throws Cannot access global.env
    (UnknownAttr). *)
Theorem global_template_not_resolved :
  (let! ctx := global_template_input in
   Ok (map_has (globals ctx) (js "env"))) = Ok true /\
  (let! ctx := global_template_input in
   renderContent (H := sample_platform) ctx) = Throw (TycoError UnknownAttr).
Proof.
  split; vm_compute; reflexivity.
Qed.

(** ** The primary-key index *)

Section IndexFacts.
Context `{Platform}.







End IndexFacts.


(** ** References *)

Section ReferenceFacts.
Context `{Platform}.

(** *** The calls that resolve a reference return or throw *)










(** *** The arguments of a reference *)










(** *** Every reference of a node and of a context *)




End ReferenceFacts.


(** A reference among the arguments of a reference is not resolved: the
    global below names a row of Database that is not declared, and the
    pipeline and toObject return; the global is resolved to the row of
    Service, and its argument is as the lexer made it. *)
Example nested_reference_unresolved :
  (let! ctx := nested_input in renderContent (H := sample_platform) ctx)
  = Ok nested_rendered /\
  match map_get (globals nested_rendered) (js "main") with
  | Some (NReference tn _ [_; NReference tn' _ [arg] target'] target) =>
      tn = js "Service" /\ target = Some (js "Service", 0%nat) /\
      tn' = js "Database" /\ arg = raw (js "nothere") /\ target' = None
  | _ => False
  end /\
  TycoReference_renderReferences (H := sample_platform) nested_rendered
    (js "Database") new_Meta [raw (js "nothere")] None
  = Throw (TycoError UnknownReference) /\
  exists o, toObject 10 nested_rendered = Ok o.
Proof.
  split; [vm_compute; reflexivity|].
  split; [vm_compute; repeat split|].
  split; [vm_compute; reflexivity|].
  eexists. vm_compute. reflexivity.
Qed.

(** The key of a reference is joined from numbers, which are doubles: the
    argument 9007199254740993 is read as 9007199254740992, and the reference
    is resolved to the row with that key. *)
Example reference_rounded_key :
  exists args,
    TycoReference_renderReferences (H := sample_platform) Account_context
      (js "Account") new_Meta [raw (js "9007199254740993")] None
    = Ok (NReference (js "Account") new_Meta args (Some (js "Account", 0%nat))).
Proof.
  eexists. vm_compute. reflexivity.
Qed.


(** The pipeline and the serialization on globals: a template, a literal
    string and the three numeric bases. *)
Example globals_rendered :
  (let! ctx := globals_input in
   let! ctx := renderContent (H := sample_platform) ctx in
   toObject 2 ctx)
  = Ok (VObj (Some VObjectPrototype)
          [(js "host", VStr (js "api.example.com"));
           (js "url", VStr (js "https://api.example.com/v1"));
           (js "literal", VStr (js "no {subst}"));
           (js "hex", VNum (ofZ 255));
           (js "oct", VNum (ofZ 511));
           (js "bin", VNum (ofZ 10));
           (js "debug", VBool false)]).
Proof.
  vm_compute. reflexivity.
Qed.

(** The pipeline on the sample: the reference in the row of Service is
    resolved to the second row of Database, which is declared after it, and
    the template of the row reads through the resolved reference. *)
Example seed_forward_reference :
  reference_target
    (lookup_path seed_rendered (RInstance (js "Service", 0%nat), [SField (js "db")]))
  = Some (js "Database", 1%nat) /\
  value_rendered
    (lookup_path seed_rendered (RInstance (js "Service", 0%nat), [SField (js "url")]))
  = VStr (js "http://replica.example.com:5433/api").
Proof.
  split; vm_compute; reflexivity.
Qed.

(** ** Serialization *)

Section ObjectFacts.

Lemma map_get_set_eq {V} (m : list (jsstring * V)) (k : jsstring) (v : V) :
  map_get (map_set m k v) k = Some v.
Proof.
  induction m as [|[k' v'] m IH]; simpl.
  - now rewrite bool_decide_eq_true_2.
  - case_bool_decide; simpl.
    + now rewrite bool_decide_eq_true_2.
    + now rewrite bool_decide_eq_false_2.
Qed.

Lemma map_set_keys {V} (m : list (jsstring * V)) (k : jsstring) (v : V) :
  map_keys (map_set m k v) =
  if map_has m k then map_keys m else map_keys m ++ [k].
Proof.
  unfold map_keys, map_has.
  induction m as [|[k' v'] m IH]; cbn [map_set map_get]; [reflexivity|].
  case_bool_decide; rewrite !fmap_cons; cbn [fst].
  - now subst.
  - rewrite IH. now destruct (map_get m k).
Qed.

Lemma map_get_None_keys {V} (m : list (jsstring * V)) (k : jsstring) :
  map_get m k = None -> k ∉ map_keys m.
Proof.
  unfold map_keys. induction m as [|[k' v'] m IH]; cbn [map_get].
  - intros _. apply not_elem_of_nil.
  - case_bool_decide; [discriminate|]. intros Hm.
    rewrite fmap_cons. apply not_elem_of_cons. cbn [fst]. split; [|auto].
    intros E. now subst.
Qed.

(** The names of a Map stay distinct under [set]. *)
Lemma map_set_NoDup {V} (m : list (jsstring * V)) (k : jsstring) (v : V) :
  NoDup (map_keys m) -> NoDup (map_keys (map_set m k v)).
Proof.
  intros Hnd. rewrite map_set_keys. unfold map_has.
  destruct (map_get m k) eqn:E; [assumption|].
  apply NoDup_app. repeat split; [assumption| |apply NoDup_singleton].
  intros x Hx Hk. apply list_elem_of_singleton in Hk. subst x.
  now apply (map_get_None_keys m k E).
Qed.

Lemma map_get_set_ne {V} (m : list (jsstring * V)) (k k' : jsstring) (v : V) :
  k <> k' -> map_get (map_set m k v) k' = map_get m k'.
Proof.
  intros Hne. induction m as [|[k0 v0] m IH]; simpl.
  - now rewrite bool_decide_eq_false_2.
  - case_bool_decide; simpl.
    + subst k0. now rewrite !bool_decide_eq_false_2.
    + now rewrite IH.
Qed.

Lemma obj_set_plain (o : JSValue) (k : jsstring) (v : JSValue) :
  plain_object o -> plain_object (obj_set o k v).
Proof.
  destruct o as [| | | | | | |proto props| |]; try (simpl; tauto). intros _.
  unfold obj_set.
  destruct (jseqb k proto_key && negb (map_has props k)
            && reaches_Object_prototype (VObj proto props)); [|exact I].
  destruct v; exact I.
Qed.

Lemma obj_get_set_eq (o : JSValue) (k : jsstring) (l : list JSValue) :
  plain_object o -> obj_get (obj_set o k (VArr l)) k = Some (VArr l).
Proof.
  destruct o as [| | | | | | |proto props| |]; try (simpl; tauto). intros _.
  unfold obj_set.
  destruct (jseqb k proto_key && negb (map_has props k)
            && reaches_Object_prototype (VObj proto props)) eqn:E.
  - apply andb_prop in E as [E _]. apply andb_prop in E as [E1 E2].
    unfold map_has in E2. cbn [is_object obj_get].
    destruct (map_get props k); [discriminate|].
    now rewrite E1.
  - cbn [obj_get]. now rewrite map_get_set_eq.
Qed.

Lemma obj_get_set_ne (o : JSValue) (k k' : jsstring) (v : JSValue) :
  k <> k' -> obj_get (obj_set o k v) k' = obj_get o k'.
Proof.
  intros Hne. destruct o as [| | | | | | |proto props| |]; try reflexivity.
  unfold obj_set.
  destruct (jseqb k proto_key && negb (map_has props k)
            && reaches_Object_prototype (VObj proto props)) eqn:E.
  - apply andb_prop in E as [E _]. apply andb_prop in E as [E1 _].
    apply bool_decide_eq_true_1 in E1. subst k.
    assert (jseqb k' proto_key = false) as Hk'
      by (apply bool_decide_eq_false_2; congruence).
    destruct v; cbn [is_object obj_get]; rewrite ?Hk'; reflexivity.
  - cbn [obj_get]. now rewrite map_get_set_ne.
Qed.

Lemma own_property_set_ne (o : JSValue) (k k' : jsstring) (v : JSValue) :
  k <> k' -> own_property (obj_set o k v) k' = own_property o k'.
Proof.
  intros Hne. destruct o as [| | | | | | |proto props| |]; try reflexivity.
  unfold obj_set.
  destruct (jseqb k proto_key && negb (map_has props k)
            && reaches_Object_prototype (VObj proto props)).
  - destruct v; reflexivity.
  - cbn [own_property]. now apply map_get_set_ne.
Qed.

Lemma own_property_set_eq (o : JSValue) (k : jsstring) (v : JSValue) :
  plain_object o -> k <> proto_key -> own_property (obj_set o k v) k = Some v.
Proof.
  destruct o as [| | | | | | |proto props| |]; try (simpl; tauto).
  intros _ Hk. unfold obj_set.
  assert (jseqb k proto_key = false) as ->
    by (apply bool_decide_eq_false_2; exact Hk).
  cbn [andb own_property]. apply map_get_set_eq.
Qed.

Lemma obj_get_own (o : JSValue) (k : jsstring) (v : JSValue) :
  own_property o k = Some v -> obj_get o k = Some v.
Proof.
  destruct o as [| | | | | | |proto props| |]; try discriminate.
  cbn [own_property obj_get]. now intros ->.
Qed.

End ObjectFacts.

Section ToObjectFacts.

Lemma foldM_obj_set_plain {A} (f : A -> Outcome (jsstring * JSValue))
  (l : list A) (o r : JSValue) :
  plain_object o ->
  foldM (fun acc x => let! (k, j) := f x in Ok (obj_set acc k j)) l o = Ok r ->
  plain_object r.
Proof.
  revert o. induction l as [|x l IH]; intros o Ho; simpl.
  - now intros [= <-].
  - destruct (f x) as [[k j]| |]; simpl; try discriminate.
    apply IH. now apply obj_set_plain.
Qed.

Lemma globals_object_plain (fuel : nat) (ctx : TycoContext) (g : JSValue) :
  globals_object fuel ctx = Ok g -> plain_object g.
Proof.
  unfold globals_object. generalize empty_object (I : plain_object empty_object).
  induction (globals ctx) as [|[a attr] l IH]; intros o Ho; simpl.
  - now intros [= <-].
  - destruct (toJSON fuel ctx attr); simpl; try discriminate.
    apply IH. now apply obj_set_plain.
Qed.

Lemma struct_entry_plain (fuel : nat) (ctx : TycoContext) (o r : JSValue)
  (e : jsstring * TycoStruct) :
  plain_object o -> struct_entry fuel ctx o e = Ok r -> plain_object r.
Proof.
  intros Ho. unfold struct_entry. destruct (primaryKeys e.2).
  - now intros [= <-].
  - destruct (mapM _ _); simpl; try discriminate.
    intros [= <-]. now apply obj_set_plain.
Qed.

(** The first loop of [toObject], from the object [o] on. *)
Lemma globals_loop (fuel : nat) (ctx : TycoContext)
  (l : list (jsstring * Node)) :
  forall (o r : JSValue),
    plain_object o ->
    NoDup (map_keys l) ->
    foldM (fun result '(name, attr) =>
             let! j := toJSON fuel ctx attr in Ok (obj_set result name j))
          l o = Ok r ->
    (forall name attr, (name, attr) ∈ l -> name <> proto_key ->
       exists j, toJSON fuel ctx attr = Ok j /\ own_property r name = Some j) /\
    (forall name, name ∉ map_keys l -> own_property r name = own_property o name).
Proof.
  induction l as [|[a attr] l IH]; intros o r Ho Hnd Hf.
  - injection Hf as <-. split; [|auto].
    intros name attr Hin. now apply elem_of_nil in Hin.
  - cbn [foldM] in Hf.
    destruct (toJSON fuel ctx attr) as [j| |] eqn:Ej; try discriminate.
    cbn [bind] in Hf. unfold map_keys in Hnd. rewrite fmap_cons in Hnd.
    cbn [fst] in Hnd. apply NoDup_cons in Hnd as [Hfresh Hnd].
    destruct (IH _ _ (obj_set_plain o a j Ho) Hnd Hf) as [IH1 IH2].
    split.
    + intros name attr' Hin Hname.
      apply elem_of_cons in Hin as [[= -> ->]|Hin]; [|now apply IH1].
      exists j. split; [exact Ej|].
      rewrite (IH2 a Hfresh). now apply own_property_set_eq.
    + intros name Hname. unfold map_keys in Hname. rewrite fmap_cons in Hname.
      cbn [fst] in Hname. apply not_elem_of_cons in Hname as [Hne Hname].
      rewrite (IH2 name Hname). apply own_property_set_ne. congruence.
Qed.

(** The callback of [toObject] on an instance: the entry has the attributes
    of the instance as its own properties, each with the [toJSON] of the
    attribute as value, and no other own property. *)
Lemma instance_entry_fields (fuel : nat) (ctx : TycoContext) (inst : Node)
  (e : JSValue) :
  instance_entry fuel ctx inst = Ok e ->
  exists tn m kws,
    inst = NInstance tn m kws /\
    (NoDup (map_keys kws) ->
     (forall fieldName value,
         (fieldName, value) ∈ kws -> fieldName <> proto_key ->
         exists j, toJSON fuel ctx value = Ok j /\
                   own_property e fieldName = Some j /\
                   obj_get e fieldName = Some j /\
                   (forall v, value = NValue v -> j = rendered v)) /\
     (forall k, k ∉ map_keys kws -> own_property e k = None)).
Proof.
  destruct inst as [v|tn m elems|tn m kws|tn m args t]; try discriminate.
  cbn [instance_entry]. intros He. exists tn, m, kws.
  split; [reflexivity|]. intros Hnd.
  destruct (globals_loop fuel ctx kws empty_object e I Hnd He) as [H1 H2].
  split.
  - intros fieldName value Hin Hname.
    destruct (H1 fieldName value Hin Hname) as (j & Hj & Hown).
    exists j. repeat split; [exact Hj|exact Hown|now apply obj_get_own|].
    intros v ->. destruct fuel as [|fuel]; [discriminate|].
    cbn [toJSON] in Hj. now injection Hj as <-.
  - intros k Hk. now rewrite (H2 k Hk).
Qed.

(** The second loop of [toObject] over structs with distinct names. *)
Lemma struct_loop (fuel : nat) (ctx : TycoContext) (l : list (jsstring * TycoStruct)) :
  forall (o r : JSValue),
    NoDup (map_keys l) ->
    plain_object o ->
    foldM (struct_entry fuel ctx) l o = Ok r ->
    (forall T s, (T, s) ∈ l -> primaryKeys s <> [] ->
       exists entries,
         obj_get r T = Some (VArr entries) /\
         mapM (instance_entry fuel ctx) (instances s) = Ok entries) /\
    (forall T, (forall s, (T, s) ∈ l -> primaryKeys s = []) ->
       own_property r T = own_property o T /\ obj_get r T = obj_get o T).
Proof.
  induction l as [|[T0 s0] l IH]; intros o r Hnd Ho Hf.
  - injection Hf as <-. split; [|auto].
    intros T s Hin. now apply elem_of_nil in Hin.
  - cbn [foldM] in Hf.
    destruct (struct_entry fuel ctx o (T0, s0)) as [o1| |] eqn:E;
      try discriminate.
    cbn [bind] in Hf. unfold map_keys in Hnd. cbn [fmap list_fmap fst] in Hnd.
    apply NoDup_cons in Hnd as [Hnotin Hnd].
    pose proof (struct_entry_plain _ _ _ _ _ Ho E) as Ho1.
    destruct (IH o1 r Hnd Ho1 Hf) as [IH1 IH2].
    assert (Hlater : forall s, (T0, s) ∈ l -> False).
    { intros s Hin. apply Hnotin. apply list_elem_of_fmap. now exists (T0, s). }
    split.
    + intros T s Hin Hpk. apply elem_of_cons in Hin as [[= -> ->]|Hin].
      * destruct (IH2 T0) as [_ Hget]; [intros s Hin; destruct (Hlater s Hin)|].
        unfold struct_entry in E. cbn [fst snd] in E.
        destruct (primaryKeys s0) eqn:Epk; [congruence|].
        destruct (mapM _ _) as [entries| |] eqn:Em; try discriminate.
        cbn [bind] in E. injection E as <-.
        exists entries. split; [|reflexivity].
        rewrite Hget. now apply obj_get_set_eq.
      * now apply IH1.
    + intros T Hzero.
      destruct (IH2 T) as [Hown Hget].
      { intros s Hin. apply Hzero. now apply elem_of_cons; right. }
      rewrite Hown, Hget.
      unfold struct_entry in E. cbn [fst snd] in E.
      destruct (primaryKeys s0) eqn:Epk.
      * injection E as <-. auto.
      * assert (T0 <> T).
        { intros ->. specialize (Hzero s0 ltac:(now apply elem_of_cons; left)).
          congruence. }
        destruct (mapM _ _); try discriminate. cbn [bind] in E.
        injection E as <-.
        now rewrite own_property_set_ne, obj_get_set_ne.
Qed.

Lemma NoDup_keys_unique {V} (l : list (jsstring * V)) (T : jsstring) (s s' : V) :
  NoDup (map_keys l) -> (T, s) ∈ l -> (T, s') ∈ l -> s = s'.
Proof.
  unfold map_keys. induction l as [|[k x] l IH]; intros Hnd Hin Hin'.
  - now apply elem_of_nil in Hin.
  - cbn [fmap list_fmap fst] in Hnd. apply NoDup_cons in Hnd as [Hk Hnd].
    apply elem_of_cons in Hin as [Hin|Hin];
      apply elem_of_cons in Hin' as [Hin'|Hin'].
    + congruence.
    + injection Hin as -> ->. exfalso. apply Hk.
      apply list_elem_of_fmap. now exists (k, s').
    + injection Hin' as -> ->. exfalso. apply Hk.
      apply list_elem_of_fmap. now exists (k, s).
    + now apply IH.
Qed.

(** C5: when toObject returns, the returned object holds under the name of
    each struct with at least one primary key a list with one entry for each
    instance of the struct, in declaration order and as many as [instances]
    holds: the entry at index i is the object of the instance at index i,
    with the attributes of the instance (a Map, so with distinct names) as
    its own properties and the toJSON of each attribute, for a value what it
    rendered to, as the value of the property, and with no other own
    property.  For a struct without primary keys the struct loop emits
    nothing, so its name is a key only if the globals made it one.  Each
    successful createInstance, one per instance row, appends one
    instance. *)
Theorem toObject_struct_lists (fuel : nat) (ctx : TycoContext) (result : JSValue) :
  NoDup (map_keys (structs ctx)) ->
  toObject fuel ctx = Ok result ->
  (forall T s, (T, s) ∈ structs ctx -> primaryKeys s <> [] ->
     exists entries,
       obj_get result T = Some (VArr entries) /\
       Forall2 (fun inst e => instance_entry fuel ctx inst = Ok e)
               (instances s) entries /\
       length entries = length (instances s) /\
       forall i inst, instances s !! i = Some inst ->
         exists tn m kws e,
           inst = NInstance tn m kws /\
           entries !! i = Some e /\
           (NoDup (map_keys kws) ->
            (forall fieldName value,
                (fieldName, value) ∈ kws -> fieldName <> proto_key ->
                exists j, toJSON fuel ctx value = Ok j /\
                          own_property e fieldName = Some j /\
                          obj_get e fieldName = Some j /\
                          (forall v, value = NValue v -> j = rendered v)) /\
            (forall k, k ∉ map_keys kws -> own_property e k = None))) /\
  (forall T s, (T, s) ∈ structs ctx -> primaryKeys s = [] ->
     exists g, globals_object fuel ctx = Ok g /\
               own_property result T = own_property g T) /\
  (forall s args d s', createInstance s args d = Ok s' ->
     exists inst, instances s' = instances s ++ [inst]).
Proof.
  intros Hnd Hto. unfold toObject in Hto.
  destruct (globals_object fuel ctx) as [g| |] eqn:Eg; try discriminate.
  cbn [bind] in Hto.
  destruct (struct_loop fuel ctx (structs ctx) g result Hnd
              (globals_object_plain _ _ _ Eg) Hto) as [H1 H2].
  split; [|split].
  - intros T s Hin Hpk. destruct (H1 T s Hin Hpk) as (entries & Hget & Hm).
    exists entries. apply mapM_length in Hm.
    split; [exact Hget|]. split; [exact Hm|].
    split; [symmetry; eapply Forall2_length; eauto|].
    intros i inst Hinst.
    destruct (Forall2_lookup_l _ _ _ _ _ Hm Hinst) as (e & He & Hentry).
    destruct (instance_entry_fields fuel ctx inst e Hentry)
      as (tn & m & kws & -> & Hfields).
    exists tn, m, kws, e. auto.
  - intros T s Hin Hpk. exists g. split; [reflexivity|].
    apply H2. intros s' Hin'.
    now rewrite (NoDup_keys_unique _ _ _ _ Hnd Hin' Hin).
  - intros s args d s'. unfold createInstance.
    destruct (createInlineInstance s args d) as [inst| |]; try discriminate.
    intros [= <-]. now exists inst.
Qed.

End ToObjectFacts.

Lemma toObject_struct_lists_witness :
  exists result entries e,
    toObject 10 seed_rendered = Ok result /\
    obj_get result (js "Database") = Some (VArr entries) /\
    length entries = 2%nat /\
    entries !! 1%nat = Some e /\
    own_property e (js "name") = Some (VStr (js "replica")) /\
    own_property e (js "port") = Some (VNum (ofZ 5433)) /\
    own_property e (js "url") = None /\
    own_property result (js "Cfg") = None.
Proof.
  destruct (toObject 10 seed_rendered) as [result| |] eqn:E;
    try (vm_compute in E; discriminate).
  assert (Hnd : NoDup (map_keys (structs seed_rendered)))
    by (apply (bool_decide_unpack _); vm_compute; exact I).
  destruct (toObject_struct_lists 10 seed_rendered
              result Hnd E) as (H1 & H2 & _).
  destruct (H1 (js "Database") (seed_struct "Database"))
    as (entries & Hg & _ & Hl & Hentries).
  - apply map_get_elem_of. vm_compute. reflexivity.
  - vm_compute. discriminate.
  - destruct (instances (seed_struct "Database") !! 1%nat) as [inst|] eqn:Ei;
      [|vm_compute in Ei; discriminate].
    destruct (Hentries 1%nat inst Ei) as (tn & m & kws & e & -> & He & Hf).
    vm_compute in Ei. injection Ei as <- <- <-.
    destruct Hf as [Hfields Hother];
      [apply (bool_decide_unpack _); vm_compute; exact I|].
    destruct (H2 (js "Cfg") (seed_struct "Cfg")) as (g & Hgo & Hown).
    + apply map_get_elem_of. vm_compute. reflexivity.
    + vm_compute. reflexivity.
    + exists result, entries, e.
      split; [reflexivity|]. split; [exact Hg|]. split; [exact Hl|].
      split; [exact He|].
      split; [|split; [|split]].
      * edestruct (Hfields (js "name")) as (j & Hj & Hown' & _ & Hv);
          [now left|discriminate|].
        rewrite Hown'. f_equal. exact (Hv _ eq_refl).
      * edestruct (Hfields (js "port")) as (j & Hj & Hown' & _ & Hv);
          [right; right; now left|discriminate|].
        rewrite Hown'. f_equal. exact (Hv _ eq_refl).
      * apply Hother. apply (bool_decide_unpack _). vm_compute. exact I.
      * rewrite Hown. vm_compute in Hgo. injection Hgo as <-. reflexivity.
Defined.

(** ** Includes *)

Section IncludeFacts.
Variable fs : jsstring -> option jsstring.
Variable resolve_include : option jsstring -> jsstring -> jsstring.
Variable handle_line :
  TycoContext -> TycoLexer -> SourceFragment -> Outcome (TycoContext * TycoLexer).

Abbreviation proc := (process fs resolve_include handle_line).
Abbreviation from_path := (fromPath fs resolve_include handle_line).
Abbreviation first_line_includes := (includes_first fs resolve_include).

(** A path that is in the cache is not read again. *)
Lemma fromPath_cached (fuel : nat) (ctx : TycoContext) (p : jsstring)
  (lexer : TycoLexer) :
  pathCache ctx !! p = Some lexer -> from_path fuel ctx p = Ok (ctx, lexer).
Proof.
  intros Hc. unfold fromPath, fromPath_with. now rewrite Hc.
Qed.

(** A path enters the cache after its lexer has processed all its lines;
    while the first of two files that include each other is processed,
    neither is in the cache, and each visit starts a new lexer. *)
Lemma include_cycle_fromPath (A B : jsstring) :
  first_line_includes A B -> first_line_includes B A ->
  forall (fuel : nat) (ctx : TycoContext),
    pathCache ctx !! A = None -> pathCache ctx !! B = None ->
    from_path fuel ctx A = OutOfFuel /\ from_path fuel ctx B = OutOfFuel.
Proof.
  intros (cA & lA & rA & pA & HfA & HlA & HmA & HrA)
         (cB & lB & rB & pB & HfB & HlB & HmB & HrB).
  induction fuel as [|fuel IH]; intros ctx HA HB;
    unfold fromPath, fromPath_with;
    rewrite HA, HB, HfA, HfB, HlA, HlB.
  - split; reflexivity.
  - cbn [process new_TycoLexer lines set_lines path].
    rewrite HmA, HmB, HrA, HrB.
    destruct (IH ctx HA HB) as [IHA IHB].
    unfold fromPath in IHA, IHB. rewrite IHA, IHB.
    split; reflexivity.
Qed.

End IncludeFacts.

(** C2 (not met by the code): with a file a.tyco whose line is
    [#include /etc/b.tyco] and a file b.tyco whose line is
    [#include /etc/a.tyco], parseFile of a.tyco has no outcome within any
    bound on the depth of the calls: the second visit to a.tyco finds the
    cache empty and starts a new lexer.  A file that includes an empty file
    twice is parsed, and both paths end in the cache. *)
Theorem include_cycle_not_short_circuited :
  (forall (fuel : nat) (H : Platform)
          (handle_line : TycoContext -> TycoLexer -> SourceFragment ->
                         Outcome (TycoContext * TycoLexer)),
      parseFile sample_fs absolute_include handle_line fuel path_a = OutOfFuel) /\
  (let! (ctx, _) := fromPath sample_fs absolute_include no_other_line 4
                      new_TycoContext path_c in
   Ok (bool_decide (dom (pathCache ctx) = {[path_c; path_d]}))) = Ok true.
Proof.
  split.
  - intros fuel H handle_line. unfold parseFile.
    destruct (include_cycle_fromPath sample_fs absolute_include handle_line
                path_a path_b) with (fuel := fuel) (ctx := new_TycoContext)
      as [-> _]; try reflexivity.
    + exists (js "#include /etc/b.tyco" ++ [LF]). do 3 eexists.
      repeat split; reflexivity.
    + exists (js "#include /etc/a.tyco" ++ [LF]). do 3 eexists.
      repeat split; reflexivity.
  - vm_compute. reflexivity.
Qed.

(** * Further properties of the code *)

(** ** SourceFragment: slices and trimming *)

Section SliceFacts.

(** The fragment that [slice(k)] returns for an index within the text. *)
Lemma slice_from (f : SourceFragment) (k : Z) :
  0 <= k <= jslength (text f) ->
  slice f (Some (ofZ k)) None =
  let rc := consumed advance_char (firstn (Z.to_nat k) (text f))
                     (row f, column f) in
  {| text := skipn (Z.to_nat k) (text f); row := rc.1; column := rc.2;
     source := source f; lineText := lineText f |}.
Proof.
  intros Hk. unfold slice.
  assert (Hs : actualStart f (Some (ofZ k)) = ofZ k)
    by (apply clamp_in_range; assumption).
  assert (He : actualEnd f (Some (ofZ k)) None = ofZ (jslength (text f))).
  { unfold actualEnd. rewrite Hs. simpl default. apply clamp_in_range. lia. }
  rewrite Hs, He, String_slice_from, advance_in_range by assumption.
  now destruct (consumed _ _ _).
Qed.

Lemma firstn_add {A} (a b : nat) (l : list A) :
  firstn (a + b) l = firstn a l ++ firstn b (skipn a l).
Proof.
  revert l. induction a as [|a IH]; intros l; [reflexivity|].
  destruct l as [|x l]; simpl.
  - now rewrite firstn_nil.
  - now rewrite IH.
Qed.

Lemma consumed_app (step : N -> Z * Z -> Z * Z) (s t : jsstring) (rc : Z * Z) :
  consumed step (s ++ t) rc = consumed step t (consumed step s rc).
Proof.
  unfold consumed. apply fold_left_app.
Qed.

(** X1: slicing twice is slicing once at the sum of the two indices: the
    text, the position, the source and the line text agree. *)
Theorem slice_slice (f : SourceFragment) (a b : Z) :
  0 <= a -> 0 <= b -> a + b <= jslength (text f) ->
  slice (slice f (Some (ofZ a)) None) (Some (ofZ b)) None
  = slice f (Some (ofZ (a + b))) None.
Proof.
  intros Ha Hb Hab.
  rewrite (slice_from f a), (slice_from f (a + b)) by lia.
  rewrite slice_from.
  - cbn [text row column source lineText].
    rewrite Z2Nat.inj_add, firstn_add, consumed_app by lia.
    rewrite skipn_skipn, (Nat.add_comm (Z.to_nat b)).
    now destruct (consumed advance_char (firstn (Z.to_nat a) (text f)) _).
  - cbn [text]. unfold jslength in *. rewrite length_skipn. lia.
Qed.

Lemma slice_slice_witness :
  let f := new_SourceFragment (js "ab" ++ [LF] ++ js "cd" ++ [CR] ++ js "e")
             (mkInit None None None None) in
  slice (slice f (Some (ofZ 3)) None) (Some (ofZ 2)) None
  = slice f (Some (ofZ 5)) None.
Proof.
  intro f. apply (slice_slice f 3 2); vm_compute; discriminate.
Defined.

Lemma consumed_row (s : jsstring) (r c : Z) :
  (consumed advance_char s (r, c)).1 = r + newlines s /\
  (1 <= c -> 1 <= (consumed advance_char s (r, c)).2).
Proof.
  revert r c. unfold newlines.
  induction s as [|ch s IH]; intros r c; [simpl; split; lia|].
  change (consumed advance_char (ch :: s) (r, c))
    with (consumed advance_char s (advance_char ch (r, c))).
  rewrite filter_cons.
  assert (Hst : advance_char ch (r, c)
                = if N.eqb ch LF then (r + 1, 1)
                  else if N.eqb ch CR then (r, 1) else (r, c + 1))
    by reflexivity.
  rewrite Hst. clear Hst.
  destruct (N.eqb ch LF) eqn:E.
  - destruct (IH (r + 1) 1) as [-> Hc]. rewrite decide_True by reflexivity.
    simpl length. split; [lia|]. intros _. apply Hc. lia.
  - rewrite decide_False by discriminate.
    destruct (N.eqb ch CR).
    + destruct (IH r 1) as [-> Hc]. split; [reflexivity|].
      intros _. apply Hc. lia.
    + destruct (IH r (c + 1)) as [-> Hc]. split; [reflexivity|].
      intros Hc1. apply Hc. lia.
Qed.

(** X2: the row of a slice is the row of the fragment plus the number of
    newlines before the cut, so it never decreases; the column stays at
    least 1 when it was. *)
Theorem slice_row_counts_newlines (f : SourceFragment) (k : Z) :
  0 <= k <= jslength (text f) ->
  let g := slice f (Some (ofZ k)) None in
  row g = row f + newlines (firstn (Z.to_nat k) (text f)) /\
  row f <= row g /\
  (1 <= column f -> 1 <= column g).
Proof.
  intros Hk g. subst g. rewrite slice_from by assumption.
  cbn [row column].
  destruct (consumed_row (firstn (Z.to_nat k) (text f)) (row f) (column f))
    as [-> Hc].
  repeat split; [unfold newlines; lia|exact Hc].
Qed.

Lemma slice_row_counts_newlines_witness :
  let f := new_SourceFragment (js "ab" ++ [LF] ++ js "cd" ++ [LF] ++ js "e")
             (mkInit (Some 7) (Some 4) None None) in
  row (slice f (Some (ofZ 6)) None) = 9.
Proof.
  intro f.
  destruct (slice_row_counts_newlines f 6) as (Hr & _).
  - vm_compute. split; discriminate.
  - exact Hr.
Defined.

Lemma leading_run_le (p : N -> bool) (s : jsstring) :
  (leading_run p s <= length s)%nat.
Proof.
  induction s as [|c s IH]; simpl; [lia|]. destruct (p c); simpl; lia.
Qed.

Lemma leading_run_split (p : N -> bool) (s : jsstring) :
  forallb p (firstn (leading_run p s) s) = true /\
  match skipn (leading_run p s) s with
  | c :: _ => p c = false
  | [] => True
  end.
Proof.
  induction s as [|c s IH]; simpl; [auto|].
  destruct (p c) eqn:E; simpl.
  - now rewrite E.
  - now rewrite E.
Qed.

Lemma leading_run_zero (p : N -> bool) (s : jsstring) :
  match s with c :: _ => p c = false | [] => True end ->
  leading_run p s = 0%nat.
Proof.
  destruct s as [|c s]; simpl; [reflexivity|]. now intros ->.
Qed.

(** The common part of the two trimming methods. *)
Lemma trim_leading (p : N -> bool) (f g : SourceFragment) :
  g = match leading_run p (text f) with
      | O => f
      | n => slice f (Some (ofZ (Z.of_nat n))) None
      end ->
  let n := leading_run p (text f) in
  text f = firstn n (text f) ++ text g /\
  forallb p (firstn n (text f)) = true /\
  match text g with c :: _ => p c = false | [] => True end /\
  (row g, column g)
  = consumed advance_char (firstn n (text f)) (row f, column f) /\
  source g = source f /\ lineText g = lineText f /\
  leading_run p (text g) = 0%nat.
Proof.
  intros Hg n. subst n.
  destruct (leading_run_split p (text f)) as [Hall Hnext].
  assert (Ht : text g = skipn (leading_run p (text f)) (text f) /\
               (row g, column g)
               = consumed advance_char
                   (firstn (leading_run p (text f)) (text f)) (row f, column f) /\
               source g = source f /\ lineText g = lineText f).
  { destruct (leading_run p (text f)) as [|n] eqn:E.
    - subst g. auto.
    - subst g. rewrite slice_from.
      + cbn [text row column source lineText]. rewrite Nat2Z.id.
        now destruct (consumed _ _ _).
      + pose proof (leading_run_le p (text f)). unfold jslength. lia. }
  destruct Ht as (Ht & Hp & Hs & Hl). rewrite Ht.
  repeat split; auto.
  - now rewrite firstn_skipn.
  - now apply leading_run_zero.
Qed.

(** X3: trimLeadingWhitespace removes the longest run of white space at the
    head of the text and nothing else; what is left does not start with white
    space, its position is the one of the fragment advanced over the run,
    and trimming again changes nothing.  trimLeadingSpacesAndTabs does the
    same for spaces and tabs. *)
Theorem trimLeading_removes_run (f : SourceFragment) :
  (let g := trimLeadingWhitespace f in
   let n := leading_run isWhiteSpace (text f) in
   text f = firstn n (text f) ++ text g /\
   forallb isWhiteSpace (firstn n (text f)) = true /\
   match text g with c :: _ => isWhiteSpace c = false | [] => True end /\
   (row g, column g)
   = consumed advance_char (firstn n (text f)) (row f, column f) /\
   trimLeadingWhitespace g = g) /\
  (let g := trimLeadingSpacesAndTabs f in
   let n := leading_run isSpaceOrTab (text f) in
   text f = firstn n (text f) ++ text g /\
   forallb isSpaceOrTab (firstn n (text f)) = true /\
   match text g with c :: _ => isSpaceOrTab c = false | [] => True end /\
   (row g, column g)
   = consumed advance_char (firstn n (text f)) (row f, column f) /\
   trimLeadingSpacesAndTabs g = g).
Proof.
  split.
  - destruct (trim_leading isWhiteSpace f (trimLeadingWhitespace f) eq_refl)
      as (H1 & H2 & H3 & H4 & _ & _ & H5).
    repeat split; auto.
    unfold trimLeadingWhitespace at 1. now rewrite H5.
  - destruct (trim_leading isSpaceOrTab f (trimLeadingSpacesAndTabs f) eq_refl)
      as (H1 & H2 & H3 & H4 & _ & _ & H5).
    repeat split; auto.
    unfold trimLeadingSpacesAndTabs at 1. now rewrite H5.
Qed.

End SliceFacts.

(** ** coerceContentToFragments *)

Section FragmentFacts.

Lemma fragments_loop_spec (src : option jsstring) (s : jsstring) :
  forall (r : Z) (cur : jsstring),
  ~ In LF cur ->
  let frags := fragments_loop src r cur s in
  concat (map text frags) = cur ++ s /\
  forall (i : nat) (f : SourceFragment),
    frags !! i = Some f ->
    row f = r + Z.of_nat i /\ column f = 1 /\ source f = src /\
    ~ In LF (lineText f) /\
    (text f = lineText f ++ [LF] \/
     (text f = lineText f /\ lineText f <> [] /\ S i = length frags)).
Proof.
  induction s as [|c rest IH]; intros r cur Hcur.
  - destruct cur as [|x cur]; simpl.
    + split; [reflexivity|]. intros i f H. destruct i; discriminate.
    + split; [now rewrite app_nil_r|].
      intros [|i] f H; [|destruct i; discriminate].
      injection H as <-. cbn. rewrite Z.add_0_r.
      repeat split; auto; right; repeat split; auto; discriminate.
  - cbn [fragments_loop]. destruct (N.eqb c LF) eqn:E.
    + apply N.eqb_eq in E. subst c.
      destruct (IH (r + 1) [] (fun H => H)) as [Hcat Hfr].
      cbv zeta. split.
      * cbn [map concat text new_SourceFragment]. rewrite Hcat.
        now rewrite <- app_assoc.
      * intros [|i] f H.
        -- injection H as <-. cbn. rewrite Z.add_0_r.
           repeat split; auto.
        -- destruct (Hfr i f H) as (Hr & Hc & Hs & Hl & Ht).
           repeat split; auto; [lia|].
           destruct Ht as [Ht|(Ht & Hne & Hlen)]; [now left|].
           right. repeat split; auto. simpl length. now rewrite Hlen.
    + assert (Hcur' : ~ In LF (cur ++ [c])).
      { rewrite in_app_iff. intros [H|[H|[]]]; [now apply Hcur|].
        subst c. now rewrite N.eqb_refl in E. }
      destruct (IH r (cur ++ [c]) Hcur') as [Hcat Hfr].
      cbv zeta. split; [|exact Hfr].
      rewrite Hcat. now rewrite <- app_assoc.
Qed.

(** X4: the texts of the fragments, put one after the other, are the content
    with every CR LF replaced by LF: nothing else is lost or added, and no
    fragment is empty. *)
Theorem fragments_cover_content (content : jsstring) (src : option jsstring) :
  concat (map text (coerceContentToFragments content src))
  = normalize_newlines content /\
  Forall (fun f => text f <> []) (coerceContentToFragments content src).
Proof.
  unfold coerceContentToFragments.
  destruct (fragments_loop_spec src (normalize_newlines content) 1 []
              (fun H => H)) as [Hcat Hfr].
  split; [exact Hcat|].
  apply Forall_lookup_2. intros i f H.
  destruct (Hfr i f H) as (_ & _ & _ & _ & [Ht|(Ht & Hne & _)]).
  - rewrite Ht. now destruct (lineText f).
  - now rewrite Ht.
Qed.

(** X5: the fragment at index [i] is line [i + 1] of the content: it is at
    row [i + 1], column 1, of the given source, its line text holds no
    newline, and its text is the line text followed by the newline that
    ended it; only the last fragment may lack that newline, and then its
    text is not empty. *)
Theorem fragments_are_lines (content : jsstring) (src : option jsstring)
  (i : nat) (f : SourceFragment) :
  coerceContentToFragments content src !! i = Some f ->
  row f = Z.of_nat i + 1 /\ column f = 1 /\ source f = src /\
  ~ In LF (lineText f) /\
  (text f = lineText f ++ [LF] \/
   (text f = lineText f /\ lineText f <> [] /\
    S i = length (coerceContentToFragments content src))).
Proof.
  intros H. unfold coerceContentToFragments in *.
  destruct (fragments_loop_spec src (normalize_newlines content) 1 []
              (fun H => H)) as [_ Hfr].
  destruct (Hfr i f H) as (Hr & Hrest).
  split; [lia|exact Hrest].
Qed.

Lemma fragments_are_lines_witness :
  let f := new_SourceFragment (js "b")
             (mkInit (Some 2) (Some 1) None (Some (js "b"))) in
  row f = 2 /\ column f = 1 /\ source f = None /\
  ~ In LF (lineText f) /\
  (text f = lineText f ++ [LF] \/
   (text f = lineText f /\ lineText f <> [] /\
    2%nat = length (coerceContentToFragments
                      (js "a" ++ [CR; LF] ++ js "b") None))).
Proof.
  intro f.
  apply (fragments_are_lines (js "a" ++ [CR; LF] ++ js "b") None 1 f).
  reflexivity.
Defined.

End FragmentFacts.

(** ** Comments *)

Section CommentFacts.

Lemma split_first_Some (c : N) (s a b : jsstring) :
  split_first c s = Some (a, b) -> s = a ++ c :: b /\ ~ In c a.
Proof.
  revert a. induction s as [|x s IH]; intros a; simpl; [discriminate|].
  destruct (N.eqb_spec x c) as [->|Hne].
  - intros [= <- <-]. auto.
  - destruct (split_first c s) as [[a' b']|]; [|discriminate].
    intros [= <- <-]. destruct (IH a' eq_refl) as [-> Hin].
    split; [reflexivity|]. intros [?|?]; auto.
Qed.

Lemma split_first_None (c : N) (s : jsstring) :
  split_first c s = None -> ~ In c s.
Proof.
  induction s as [|x s IH]; simpl; [auto|].
  destruct (N.eqb_spec x c) as [->|Hne]; [discriminate|].
  destruct (split_first c s) as [[a' b']|]; [discriminate|].
  intros _ [?|?]; [auto|now apply IH].
Qed.

Lemma trimStart_split (s : jsstring) :
  exists w, s = w ++ trimStart s /\ forallb isWhiteSpace w = true.
Proof.
  induction s as [|c s (w & Hs & Hw)]; simpl.
  - now exists [].
  - destruct (isWhiteSpace c) eqn:E.
    + exists (c :: w). simpl. rewrite E, Hw. split; [now f_equal|reflexivity].
    + now exists [].
Qed.

Lemma trimStart_head (s : jsstring) :
  match trimStart s with c :: _ => isWhiteSpace c = false | [] => True end.
Proof.
  induction s as [|c s IH]; simpl; [exact I|].
  destruct (isWhiteSpace c) eqn:E; [exact IH|exact E].
Qed.

Lemma forallb_reverse {A} (p : A -> bool) (l : list A) :
  forallb p l = true -> forallb p (rev l) = true.
Proof.
  rewrite !forallb_forall. intros Hl x Hx. apply Hl. now apply in_rev.
Qed.

Lemma trimEnd_split (s : jsstring) :
  exists w, s = trimEnd s ++ w /\ forallb isWhiteSpace w = true.
Proof.
  unfold trimEnd. destruct (trimStart_split (rev s)) as (w & Hs & Hw).
  exists (rev w). split.
  - rewrite <- rev_app_distr, <- Hs. now rewrite rev_involutive.
  - now apply forallb_reverse.
Qed.

Lemma trimEnd_last (s : jsstring) :
  match rev (trimEnd s) with c :: _ => isWhiteSpace c = false | [] => True end.
Proof.
  unfold trimEnd. rewrite rev_involutive. apply trimStart_head.
Qed.

(** X6: when stripComments returns, the result is the line up to the first
    [#] (the whole line without one) less its trailing white space: it is a
    prefix of the line that holds no [#] and does not end in white space, and
    what follows it in the line is white space, then nothing or a comment
    without control characters other than the tab. *)
Theorem stripComments_result (raw r : jsstring) :
  stripComments raw = Ok r ->
  ~ In HASH r /\
  match rev r with c :: _ => isWhiteSpace c = false | [] => True end /\
  exists w tail,
    raw = r ++ w ++ tail /\ forallb isWhiteSpace w = true /\
    (tail = [] \/
     exists comment, tail = HASH :: comment /\
       existsb isIllegalStrChar (strip_final_newline comment) = false).
Proof.
  unfold stripComments.
  destruct (split_first HASH raw) as [[content comment]|] eqn:E.
  - destruct (existsb _ _) eqn:Eill; [discriminate|].
    intros [= <-]. apply split_first_Some in E as [-> Hin].
    destruct (trimEnd_split content) as (w & Hc & Hw).
    repeat split.
    + intros Hr. apply Hin. rewrite Hc. apply in_or_app. now left.
    + apply trimEnd_last.
    + exists w, (HASH :: comment). rewrite app_assoc, <- Hc.
      repeat split; auto. right. now exists comment.
  - intros [= <-]. apply split_first_None in E.
    destruct (trimEnd_split raw) as (w & Hc & Hw).
    repeat split.
    + intros Hr. apply E. rewrite Hc. apply in_or_app. now left.
    + apply trimEnd_last.
    + exists w, []. rewrite app_nil_r. auto.
Qed.

Lemma stripComments_result_witness :
  let r := js "port: 80" in
  ~ In HASH r /\
  match rev r with c :: _ => isWhiteSpace c = false | [] => True end /\
  exists w tail,
    js "port: 80  # default" ++ [LF] = r ++ w ++ tail /\
    forallb isWhiteSpace w = true /\
    (tail = [] \/
     exists comment, tail = HASH :: comment /\
       existsb isIllegalStrChar (strip_final_newline comment) = false).
Proof.
  intro r. apply (stripComments_result (js "port: 80  # default" ++ [LF]) r).
  vm_compute. reflexivity.
Defined.

End CommentFacts.

(** ** Escape sequences and templates in strings *)

Section EscapeFacts.
Context `{Platform}.

Lemma sub_basic_skip (x : N) (tl : jsstring) :
  N.eqb x BACKSLASH = false -> sub_basic (x :: tl) = x :: sub_basic tl.
Proof.
  intros Hx. destruct tl as [|c rest]; [reflexivity|].
  cbn [sub_basic]. now rewrite Hx.
Qed.

Lemma sub_unicode_eq (s : jsstring) :
  sub_unicode s =
  match s with
  | [] => Ok []
  | x :: tl =>
      let skip := let! r := sub_unicode tl in Ok (x :: r) in
      match tl with
      | u :: h1 :: h2 :: h3 :: h4 :: r4 =>
          if N.eqb x BACKSLASH && N.eqb u 117
             && forallb isHex [h1; h2; h3; h4]
          then
            let! c := fromCodePoint (radix_value 16 [h1; h2; h3; h4]) in
            let! r := sub_unicode r4 in Ok (c ++ r)
          else
            match r4 with
            | h5 :: h6 :: h7 :: h8 :: r8 =>
                if N.eqb x BACKSLASH && N.eqb u 85
                   && forallb isHex [h1; h2; h3; h4; h5; h6; h7; h8]
                then
                  let! c := fromCodePoint
                              (radix_value 16 [h1; h2; h3; h4; h5; h6; h7; h8]) in
                  let! r := sub_unicode r8 in Ok (c ++ r)
                else skip
            | _ => skip
            end
      | _ => skip
      end
  end.
Proof.
  destruct s; reflexivity.
Qed.

Lemma sub_unicode_skip (x : N) (tl : jsstring) :
  N.eqb x BACKSLASH = false ->
  sub_unicode (x :: tl) = let! r := sub_unicode tl in Ok (x :: r).
Proof.
  intros Hx. rewrite (sub_unicode_eq (x :: tl)). cbv zeta. rewrite Hx.
  cbv beta iota delta [andb].
  destruct tl as [|u [|h1 [|h2 [|h3 [|h4 r4]]]]]; try reflexivity.
  destruct r4 as [|h5 [|h6 [|h7 [|h8 r8]]]]; reflexivity.
Qed.

Lemma sub_continuation_skip (x : N) (tl : jsstring) :
  N.eqb x BACKSLASH = false ->
  sub_continuation None (x :: tl) = x :: sub_continuation None tl.
Proof.
  intros Hx. cbn [sub_continuation]. now rewrite Hx.
Qed.

Lemma not_backslash (x : N) (s : jsstring) :
  ~ In BACKSLASH (x :: s) -> N.eqb x BACKSLASH = false /\ ~ In BACKSLASH s.
Proof.
  intros Hn. split.
  - apply N.eqb_neq. intros ->. apply Hn. now left.
  - intros Hs. apply Hn. now right.
Qed.

(** The three replacements pass over a prefix without backslash. *)
Lemma sub_basic_prefix (pre s : jsstring) :
  ~ In BACKSLASH pre -> sub_basic (pre ++ s) = pre ++ sub_basic s.
Proof.
  induction pre as [|x pre IH]; intros Hn; [reflexivity|].
  apply not_backslash in Hn as [Hx Hn].
  rewrite <- app_comm_cons, sub_basic_skip, IH by assumption. reflexivity.
Qed.

Lemma sub_unicode_prefix (pre s : jsstring) :
  ~ In BACKSLASH pre ->
  sub_unicode (pre ++ s) = let! r := sub_unicode s in Ok (pre ++ r).
Proof.
  induction pre as [|x pre IH]; intros Hn.
  - simpl. now destruct (sub_unicode s).
  - apply not_backslash in Hn as [Hx Hn].
    rewrite <- app_comm_cons, sub_unicode_skip, IH by assumption.
    now destruct (sub_unicode s).
Qed.

Lemma sub_continuation_prefix (pre s : jsstring) :
  ~ In BACKSLASH pre ->
  sub_continuation None (pre ++ s) = pre ++ sub_continuation None s.
Proof.
  induction pre as [|x pre IH]; intros Hn; [reflexivity|].
  apply not_backslash in Hn as [Hx Hn].
  rewrite <- app_comm_cons, sub_continuation_skip, IH by assumption.
  reflexivity.
Qed.

Lemma sub_plain (s : jsstring) :
  ~ In BACKSLASH s ->
  sub_basic s = s /\ sub_unicode s = Ok s /\ sub_continuation None s = s.
Proof.
  intros Hn.
  pose proof (sub_basic_prefix s [] Hn) as H1.
  pose proof (sub_unicode_prefix s [] Hn) as H2.
  pose proof (sub_continuation_prefix s [] Hn) as H3.
  rewrite app_nil_r in H1, H2, H3. simpl in H1, H2, H3.
  rewrite app_nil_r in H1, H2, H3. auto.
Qed.

Lemma subEscapeSequences_plain_string (s : jsstring) :
  ~ In BACKSLASH s -> subEscapeSequences s = Ok s.
Proof.
  intros Hn. destruct (sub_plain s Hn) as (H1 & H2 & H3).
  unfold subEscapeSequences. rewrite H1, H2. cbn [bind]. now rewrite H3.
Qed.

(** X7: a string without backslash holds no escape sequence: each of the
    three replacements leaves it as it is, and so does the call. *)
Theorem subEscapeSequences_plain (s : jsstring) :
  ~ In BACKSLASH s ->
  sub_basic s = s /\ sub_unicode s = Ok s /\ sub_continuation None s = s /\
  subEscapeSequences s = Ok s.
Proof.
  intros Hn. destruct (sub_plain s Hn) as (H1 & H2 & H3).
  repeat split; auto. now apply subEscapeSequences_plain_string.
Qed.

Lemma subEscapeSequences_plain_witness :
  subEscapeSequences (js "C:/tmp {x}") = Ok (js "C:/tmp {x}").
Proof.
  apply (subEscapeSequences_plain (js "C:/tmp {x}")). vm_compute.
  intros Hin. repeat (destruct Hin as [Hin|Hin]; [discriminate|]). exact Hin.
Defined.

Lemma hex_not_backslash (h : N) :
  isHex h = true -> N.eqb h BACKSLASH = false.
Proof.
  intros Hh. destruct (radix_digit_range 16 h Hh) as (d & _ & _ & Hr).
  apply N.eqb_neq. unfold BACKSLASH. lia.
Qed.

Lemma hex_value (h : N) :
  isHex h = true -> 0 <= default 0 (digit_value h) < 16.
Proof.
  intros Hh. destruct (radix_digit_range 16 h Hh) as (d & -> & Hd & _).
  exact Hd.
Qed.

Lemma sub_basic_no_escape (c : N) (rest : jsstring) :
  basic_escape c = None ->
  sub_basic (BACKSLASH :: c :: rest) = BACKSLASH :: sub_basic (c :: rest).
Proof.
  intros Hc. change (sub_basic (BACKSLASH :: c :: rest))
    with (match (if N.eqb BACKSLASH BACKSLASH then basic_escape c else None) with
          | Some r => r :: sub_basic rest
          | None => BACKSLASH :: sub_basic (c :: rest)
          end).
  rewrite N.eqb_refl, Hc. reflexivity.
Qed.

Lemma sub_unicode_U8 (h1 h2 h3 h4 h5 h6 h7 h8 : N) (r : jsstring) :
  forallb isHex [h1; h2; h3; h4; h5; h6; h7; h8] = true ->
  sub_unicode (BACKSLASH :: 85%N :: h1 :: h2 :: h3 :: h4 :: h5 :: h6 :: h7
                 :: h8 :: r)
  = let! c := fromCodePoint (radix_value 16 [h1; h2; h3; h4; h5; h6; h7; h8]) in
    let! r := sub_unicode r in Ok (c ++ r).
Proof.
  intros Hhex.
  rewrite (sub_unicode_eq (BACKSLASH :: 85%N :: h1 :: h2 :: h3 :: h4 :: h5
                             :: h6 :: h7 :: h8 :: r)).
  cbv beta iota zeta. rewrite Hhex, N.eqb_refl.
  change (N.eqb 85 117) with false. change (N.eqb 85 85) with true.
  reflexivity.
Qed.

(** X8: an escape of eight hexadecimal digits whose value is above 10FFFF,
    anywhere after text without backslash, is no Tyco error: the call ends
    with the RangeError of String.fromCodePoint. *)
Theorem subEscapeSequences_code_point_overflow
  (pre post : jsstring) (h1 h2 h3 h4 h5 h6 h7 h8 : N) :
  ~ In BACKSLASH pre ->
  forallb isHex [h1; h2; h3; h4; h5; h6; h7; h8] = true ->
  1114111 < radix_value 16 [h1; h2; h3; h4; h5; h6; h7; h8] ->
  subEscapeSequences
    (pre ++ [BACKSLASH; 85%N; h1; h2; h3; h4; h5; h6; h7; h8] ++ post)
  = Throw RangeError.
Proof.
  intros Hpre Hhex Hval.
  assert (Hnb : ~ In BACKSLASH [85%N; h1; h2; h3; h4; h5; h6; h7; h8]).
  { pose proof Hhex as Hall. rewrite forallb_forall in Hall.
    intros [Hin|Hin]; [discriminate|].
    apply Hall in Hin. apply hex_not_backslash in Hin. discriminate. }
  unfold subEscapeSequences.
  rewrite sub_basic_prefix by assumption.
  change ([BACKSLASH; 85%N; h1; h2; h3; h4; h5; h6; h7; h8] ++ post)
    with (BACKSLASH :: 85%N :: [h1; h2; h3; h4; h5; h6; h7; h8] ++ post).
  rewrite sub_basic_no_escape by reflexivity.
  change (85%N :: [h1; h2; h3; h4; h5; h6; h7; h8] ++ post)
    with ([85%N; h1; h2; h3; h4; h5; h6; h7; h8] ++ post).
  rewrite (sub_basic_prefix _ post Hnb).
  rewrite sub_unicode_prefix by assumption.
  change (BACKSLASH :: [85%N; h1; h2; h3; h4; h5; h6; h7; h8] ++ sub_basic post)
    with (BACKSLASH :: 85%N :: h1 :: h2 :: h3 :: h4 :: h5 :: h6 :: h7 :: h8
            :: sub_basic post).
  rewrite sub_unicode_U8 by assumption.
  unfold fromCodePoint.
  rewrite (proj2 (Z.leb_gt _ _)) by lia.
  rewrite (proj2 (Z.leb_gt _ _)) by lia. reflexivity.
Qed.

Lemma subEscapeSequences_code_point_overflow_witness :
  subEscapeSequences (js "x=" ++ [BACKSLASH] ++ js "U00110000" ++ js "!")
  = Throw RangeError.
Proof.
  apply (subEscapeSequences_code_point_overflow (js "x=") (js "!")
           48 48 49 49 48 48 48 48)%N.
  - vm_compute. intros Hin.
    repeat (destruct Hin as [Hin|Hin]; [discriminate|]). exact Hin.
  - reflexivity.
  - vm_compute. reflexivity.
Defined.

Lemma sub_basic_escape (c r : N) (rest : jsstring) :
  basic_escape c = Some r ->
  sub_basic (BACKSLASH :: c :: rest) = r :: sub_basic rest.
Proof.
  intros Hc. change (sub_basic (BACKSLASH :: c :: rest))
    with (match (if N.eqb BACKSLASH BACKSLASH then basic_escape c else None) with
          | Some r => r :: sub_basic rest
          | None => BACKSLASH :: sub_basic (c :: rest)
          end).
  rewrite N.eqb_refl, Hc. reflexivity.
Qed.

Lemma sub_unicode_u4 (h1 h2 h3 h4 : N) (r : jsstring) :
  forallb isHex [h1; h2; h3; h4] = true ->
  sub_unicode (BACKSLASH :: 117%N :: h1 :: h2 :: h3 :: h4 :: r)
  = let! c := fromCodePoint (radix_value 16 [h1; h2; h3; h4]) in
    let! r := sub_unicode r in Ok (c ++ r).
Proof.
  intros Hhex.
  rewrite (sub_unicode_eq (BACKSLASH :: 117%N :: h1 :: h2 :: h3 :: h4 :: r)).
  cbv beta iota zeta. rewrite Hhex, N.eqb_refl.
  change (N.eqb 117 117) with true. reflexivity.
Qed.

Lemma radix_value_u4 (h1 h2 h3 h4 : N) :
  forallb isHex [h1; h2; h3; h4] = true ->
  0 <= radix_value 16 [h1; h2; h3; h4] <= 65535.
Proof.
  intros Hhex. cbn [forallb] in Hhex.
  apply andb_prop in Hhex as [H1 Hhex]. apply andb_prop in Hhex as [H2 Hhex].
  apply andb_prop in Hhex as [H3 Hhex]. apply andb_prop in Hhex as [H4 _].
  apply hex_value in H1, H2, H3, H4.
  unfold radix_value. cbn [fold_left]. lia.
Qed.

(** X9: the replacements run one after the other on the whole string, so
    an escaped backslash followed by [u] and four hexadecimal digits is
    decoded twice: the first pass leaves one backslash, and the second reads
    it as the start of a [\u] escape.  The six characters that stand for a
    backslash and [uXXXX] become the single character XXXX. *)
Theorem subEscapeSequences_decodes_twice
  (pre post : jsstring) (h1 h2 h3 h4 : N) :
  ~ In BACKSLASH pre -> ~ In BACKSLASH post ->
  forallb isHex [h1; h2; h3; h4] = true ->
  radix_value 16 [h1; h2; h3; h4] <> 92 ->
  subEscapeSequences
    (pre ++ [BACKSLASH; BACKSLASH; 117%N; h1; h2; h3; h4] ++ post)
  = Ok (pre ++ [Z.to_N (radix_value 16 [h1; h2; h3; h4])] ++ post).
Proof.
  intros Hpre Hpost Hhex Hval.
  pose proof (radix_value_u4 h1 h2 h3 h4 Hhex) as Hr.
  assert (Hnb : ~ In BACKSLASH ([117%N; h1; h2; h3; h4] ++ post)).
  { pose proof Hhex as Hall. rewrite forallb_forall in Hall.
    intros Hin. apply in_app_or in Hin as [[Hin|Hin]|Hin];
      [discriminate| |contradiction].
    apply Hall in Hin. apply hex_not_backslash in Hin. discriminate. }
  unfold subEscapeSequences.
  rewrite sub_basic_prefix by assumption.
  change ([BACKSLASH; BACKSLASH; 117%N; h1; h2; h3; h4] ++ post)
    with (BACKSLASH :: BACKSLASH :: [117%N; h1; h2; h3; h4] ++ post).
  rewrite (sub_basic_escape BACKSLASH BACKSLASH) by reflexivity.
  rewrite (proj1 (sub_plain _ Hnb)).
  rewrite sub_unicode_prefix by assumption.
  change (BACKSLASH :: [117%N; h1; h2; h3; h4] ++ post)
    with (BACKSLASH :: 117%N :: h1 :: h2 :: h3 :: h4 :: post).
  rewrite sub_unicode_u4 by assumption.
  unfold fromCodePoint. rewrite (proj2 (Z.leb_le _ _)) by lia.
  rewrite (proj1 (proj2 (sub_plain _ Hpost))). cbn [bind].
  f_equal. apply sub_plain.
  intros Hin. apply in_app_or in Hin as [Hin|[Hin|Hin]]; auto.
  apply Hval. unfold BACKSLASH in Hin. lia.
Qed.

Lemma subEscapeSequences_decodes_twice_witness :
  subEscapeSequences (js "a" ++ [BACKSLASH; BACKSLASH] ++ js "u0041" ++ js "z")
  = Ok (js "aAz").
Proof.
  apply (subEscapeSequences_decodes_twice (js "a") (js "z") 48 48 52 49)%N.
  - vm_compute. intros [Hin|[]]. discriminate.
  - vm_compute. intros [Hin|[]]. discriminate.
  - reflexivity.
  - vm_compute. discriminate.
Defined.

Lemma replace_templates_plain (f : jsstring -> Outcome jsstring) (s : jsstring) :
  ~ In LBRACE s -> replace_templates f None s = Ok s.
Proof.
  induction s as [|c s IH]; intros Hn; [reflexivity|].
  cbn [replace_templates].
  assert (N.eqb c LBRACE = false) as ->.
  { apply N.eqb_neq. intros ->. apply Hn. now left. }
  rewrite IH; [reflexivity|]. intros Hs. apply Hn. now right.
Qed.

(** X10: renderTemplates leaves a value alone whose rendered string holds
    neither an opening brace nor a backslash, whatever the context holds:
    such a string has no template to resolve and no escape to decode. *)
Theorem renderTemplates_plain_string (ctx : TycoContext) (v : TycoValue)
  (s : jsstring) :
  rendered v = VStr s ->
  ~ In LBRACE s -> ~ In BACKSLASH s ->
  TycoValue_renderTemplates ctx v = Ok v.
Proof.
  intros Hr Hb Hs. unfold TycoValue_renderTemplates.
  destruct (negb _ || isLiteralStr v); [reflexivity|].
  destruct (is_true _ && _); [reflexivity|].
  rewrite Hr, replace_templates_plain by assumption. cbn [bind].
  rewrite subEscapeSequences_plain_string by assumption. cbn [bind].
  destruct v. cbn in *. now subst.
Qed.

End EscapeFacts.

Lemma renderTemplates_plain_string_witness :
  TycoValue_renderTemplates (H := sample_platform) new_TycoContext
    (set_rendered (typed "str" "host" (js "db.example.com")) false
       (VStr (js "db.example.com")))
  = Ok (set_rendered (typed "str" "host" (js "db.example.com")) false
          (VStr (js "db.example.com"))).
Proof.
  apply (renderTemplates_plain_string (H := sample_platform) new_TycoContext _
           (js "db.example.com")).
  - reflexivity.
  - vm_compute. intros Hin.
    repeat (destruct Hin as [Hin|Hin]; [discriminate|]). exact Hin.
  - vm_compute. intros Hin.
    repeat (destruct Hin as [Hin|Hin]; [discriminate|]). exact Hin.
Defined.

(** ** Nodes: copies and base rendering *)

Section NodeFacts.
Context `{Platform}.

Lemma map_ext_Forall2 {A B C} (f : A -> C) (g : B -> C) (l : list A) (r : list B) :
  Forall2 (fun x y => g y = f x) l r -> map g r = map f l.
Proof.
  induction 1 as [|x y l r Hxy _ IH]; [reflexivity|].
  simpl. now rewrite Hxy, IH.
Qed.

Lemma setParent_array_elems (self : Path) (par : ParentRef) (elems : list Node)
  (i : nat) :
  Forall (fun e => forall self par, makeCopy (setParent self par e) = makeCopy e)
         elems ->
  map makeCopy
    ((fix go (i : nat) (l : list Node) : list Node :=
        match l with
        | [] => []
        | c :: l' =>
            setParent (self.1, self.2 ++ [SIndex i]) par c :: go (S i) l'
        end) i elems)
  = map makeCopy elems.
Proof.
  intros Hall. revert i. induction Hall as [|e elems He _ IH]; intros i;
    [reflexivity|].
  cbn [map]. now rewrite He, IH.
Qed.

(** X11: a copy does not depend on the parents set in the original, and
    copying a copy changes nothing. *)
Theorem makeCopy_forgets_parents (n : Node) :
  (forall self par, makeCopy (setParent self par n) = makeCopy n) /\
  makeCopy (makeCopy n) = makeCopy n.
Proof.
  split.
  - induction n as [v|tn m elems IH|tn m kws IH|tn m args t IH]
      using Node_induction; intros self par.
    + reflexivity.
    + cbn [setParent makeCopy]. f_equal.
      now apply setParent_array_elems.
    + cbn [setParent makeCopy]. f_equal. rewrite map_map.
      induction IH as [|[a c] kws Hc _ IHl]; [reflexivity|].
      cbn [map]. cbn [snd] in Hc. now rewrite Hc, IHl.
    + reflexivity.
  - induction n as [v|tn m elems IH|tn m kws IH|tn m args t IH]
      using Node_induction.
    + reflexivity.
    + cbn [makeCopy]. f_equal. rewrite map_map.
      induction IH as [|e elems He _ IHl]; [reflexivity|].
      cbn [map]. now rewrite He, IHl.
    + cbn [makeCopy]. f_equal. rewrite map_map.
      induction IH as [|[a c] kws Hc _ IHl]; [reflexivity|].
      cbn [map]. cbn [snd] in Hc. now rewrite Hc, IHl.
    + cbn [makeCopy]. f_equal. rewrite map_map.
      induction IH as [|e elems He _ IHl]; [reflexivity|].
      cbn [map]. now rewrite He, IHl.
Qed.

Lemma TycoValue_renderBaseContent_shape (v v' : TycoValue) :
  TycoValue_renderBaseContent v = Ok v' ->
  content v' = content v /\ typeName v' = typeName v /\ meta v' = meta v.
Proof.
  unfold TycoValue_renderBaseContent, fail.
  destruct (typeName v) eqn:Et;
    repeat match goal with
           | |- context [if ?c then _ else _] => destruct c
           end;
    try discriminate; intros [= <-]; cbn; auto.
Qed.

(** X12: a copy taken after renderBaseContent is the copy taken before:
    copies of the defaults of a struct do not carry rendered values. *)
Theorem makeCopy_forgets_rendering (n n' : Node) :
  renderBaseContent n = Ok n' -> makeCopy n' = makeCopy n.
Proof.
  revert n'.
  induction n as [v|tn m elems IH|tn m kws IH|tn m args t IH]
    using Node_induction; intros n'; cbn [renderBaseContent].
  - destruct (TycoValue_renderBaseContent v) as [v'| |] eqn:E;
      try discriminate.
    intros [= <-]. apply TycoValue_renderBaseContent_shape in E
      as (Hc & Ht & Hm).
    cbn [makeCopy]. now rewrite Hc, Ht, Hm.
  - destruct (mapM renderBaseContent elems) as [elems'| |] eqn:E;
      try discriminate.
    intros [= <-]. cbn [makeCopy]. f_equal.
    apply mapM_length in E. revert IH.
    induction E as [|e e' elems elems' He _ IHl]; intros IH; [reflexivity|].
    cbn [map]. rewrite (Forall_inv IH e' He), IHl;
      [reflexivity|exact (Forall_inv_tail IH)].
  - destruct (mapM _ kws) as [kws'| |] eqn:E; try discriminate.
    intros [= <-]. cbn [makeCopy]. f_equal.
    apply mapM_length in E. revert IH.
    induction E as [|[a c] [a' c'] kws kws' He _ IHl]; intros IH;
      [reflexivity|].
    destruct (renderBaseContent c) as [c1| |] eqn:Ec; try discriminate.
    injection He as <- <-.
    cbn [map]. rewrite (Forall_inv IH c1 Ec), IHl;
      [reflexivity|exact (Forall_inv_tail IH)].
  - now intros [= <-].
Qed.

Lemma TycoValue_renderBaseContent_again (v v' : TycoValue) :
  TycoValue_renderBaseContent v = Ok v' ->
  TycoValue_renderBaseContent v' = Ok v'.
Proof.
  unfold TycoValue_renderBaseContent at 1. unfold fail.
  destruct (typeName v) eqn:Et;
    repeat match goal with
           | |- context [if ?c then _ else _] => destruct c eqn:?
           end;
    try discriminate; intros [= <-];
    unfold TycoValue_renderBaseContent;
    cbn [set_rendered content typeName meta isLiteralStr rendered];
    rewrite ?Et;
    repeat match goal with
           | E : ?c = _ |- context [if ?c then _ else _] => rewrite E
           end;
    reflexivity.
Qed.

(** X13: renderBaseContent is idempotent: on its own result it succeeds
    and changes nothing. *)
Theorem renderBaseContent_idempotent (n n' : Node) :
  renderBaseContent n = Ok n' -> renderBaseContent n' = Ok n'.
Proof.
  revert n'.
  induction n as [v|tn m elems IH|tn m kws IH|tn m args t IH]
    using Node_induction; intros n'; cbn [renderBaseContent].
  - destruct (TycoValue_renderBaseContent v) as [v'| |] eqn:E;
      try discriminate.
    intros [= <-]. cbn [renderBaseContent].
    now rewrite (TycoValue_renderBaseContent_again v v' E).
  - destruct (mapM renderBaseContent elems) as [elems'| |] eqn:E;
      try discriminate.
    intros [= <-]. cbn [renderBaseContent].
    rewrite (mapM_Forall2 renderBaseContent elems' elems'); [reflexivity|].
    apply mapM_length in E. revert IH.
    induction E as [|e e' elems elems' He _ IHl]; intros IH; constructor.
    + exact (Forall_inv IH e' He).
    + exact (IHl (Forall_inv_tail IH)).
  - destruct (mapM _ kws) as [kws'| |] eqn:E; try discriminate.
    intros [= <-]. cbn [renderBaseContent].
    rewrite (mapM_Forall2 _ kws' kws'); [reflexivity|].
    apply mapM_length in E. revert IH.
    induction E as [|[a c] [a' c'] kws kws' He _ IHl]; intros IH; constructor.
    + destruct (renderBaseContent c) as [c1| |] eqn:Ec; try discriminate.
      injection He as <- <-. now rewrite (Forall_inv IH c1 Ec).
    + exact (IHl (Forall_inv_tail IH)).
  - now intros [= <-].
Qed.

End NodeFacts.

Lemma renderBaseContent_idempotent_witness :
  renderBaseContent (H := sample_platform)
    (NValue (set_rendered (typed "time" "at" (js "10:30:00.5")) false
               (VStr (js "10:30:00.500000"))))
  = Ok (NValue (set_rendered (typed "time" "at" (js "10:30:00.5")) false
                  (VStr (js "10:30:00.500000")))).
Proof.
  apply (renderBaseContent_idempotent (H := sample_platform)
           (NValue (typed "time" "at" (js "10:30:00.5")))).
  vm_compute. reflexivity.
Defined.

Lemma makeCopy_forgets_rendering_witness :
  makeCopy
    (NArray (JVal (js "int")) new_Meta
       [NValue (set_rendered (typed "int" "ports" (js "0x50")) false
                  (VNum (ofZ 80)))])
  = makeCopy (NArray (JVal (js "int")) new_Meta
                [NValue (typed "int" "ports" (js "0x50"))]).
Proof.
  apply (makeCopy_forgets_rendering (H := sample_platform)).
  vm_compute. reflexivity.
Defined.

(** ** applySchemaInfo *)

Section SchemaFacts.

Lemma jseqb_eq (a b : jsstring) : jseqb a b = true -> a = b.
Proof.
  unfold jseqb. intros Hb. now apply bool_decide_eq_true in Hb.
Qed.

Lemma same_typeName_eq (tn : jsstring) (kw : SchemaInfo) (t : JSOpt jsstring) :
  same_typeName tn kw = true -> kw_typeName kw = Some t -> t = JVal tn.
Proof.
  unfold same_typeName. intros Hs Hk. rewrite Hk in Hs.
  destruct t as [| |t']; try discriminate. now rewrite (jseqb_eq _ _ Hs).
Qed.

(** What a successful [applySchemaInfo] leaves. *)
Lemma applySchemaInfo_ok (kw : SchemaInfo) (n n' : Node) :
  applySchemaInfo kw n = Ok n' ->
  node_meta n' = assign_meta kw (node_meta n) /\
  node_typeName n'
  = match kw_typeName kw with Some t => t | None => node_typeName n end /\
  is_array_node n' = is_array_node n /\
  (if is_array_node n' then isArray (node_meta n') <> Some false
   else isArray (node_meta n') = Some true ->
        is_null_value n' = true /\ isNullable (node_meta n') = Some true) /\
  match n' with
  | NValue v => typeName v = JNull \/ is_base_type (typeName v) = true
  | _ => True
  end.
Proof.
  destruct n as [v|tn m elems|tn m kws|tn m args t]; cbn [applySchemaInfo].
  - unfold TycoValue_applySchemaInfo, fail.
    cbn [content typeName meta isLiteralStr rendered].
    destruct (is_true _ && _) eqn:E1; [discriminate|].
    destruct (negb (is_null _) && _) eqn:E2; [discriminate|].
    cbn [bind]. intros [= <-].
    cbn [node_meta node_typeName is_array_node is_null_value meta typeName
           content].
    split; [reflexivity|]. split; [now destruct (kw_typeName kw)|].
    split; [reflexivity|]. split.
    + intros Ha. rewrite Ha in E1. cbn [is_true andb] in E1.
      apply negb_false_iff in E1. apply andb_prop in E1 as [E1 ->].
      split; [reflexivity|].
      now destruct (isNullable (assign_meta kw (meta v))) as [[|]|].
    + destruct (default (typeName v) (kw_typeName kw)) as [| |t] eqn:Et;
        [now left| |]; right; cbn in E2 |- *; [discriminate|].
      now destruct (bool_decide _).
  - destruct (mapM _ elems) as [elems'| |]; try discriminate. cbn [bind].
    unfold fail. case_bool_decide as Ea; [discriminate|].
    intros [= <-].
    cbn [node_meta node_typeName is_array_node is_null_value].
    split; [reflexivity|]. split; [now destruct (kw_typeName kw)|].
    split; [reflexivity|]. split; [exact Ea|exact I].
  - unfold fail. destruct (same_typeName tn kw) eqn:Es; [|discriminate].
    cbn [negb]. destruct (is_true _) eqn:Ea; [discriminate|].
    intros [= <-].
    cbn [node_meta node_typeName is_array_node is_null_value].
    split; [reflexivity|]. split.
    { destruct (kw_typeName kw) as [t|] eqn:Ek; [|reflexivity].
      symmetry. now apply (same_typeName_eq tn kw). }
    split; [reflexivity|]. split; [|exact I].
    intros Ha. unfold is_true in Ea. now rewrite Ha in Ea.
  - unfold fail. destruct (same_typeName tn kw) eqn:Es; [|discriminate].
    cbn [negb]. destruct (is_true _) eqn:Ea; [discriminate|].
    intros [= <-].
    cbn [node_meta node_typeName is_array_node is_null_value].
    split; [reflexivity|]. split.
    { destruct (kw_typeName kw) as [t'|] eqn:Ek; [|reflexivity].
      symmetry. now apply (same_typeName_eq tn kw). }
    split; [reflexivity|]. split; [|exact I].
    intros Ha. unfold is_true in Ea. now rewrite Ha in Ea.
Qed.

(** X14: when applySchemaInfo succeeds, the node carries the schema
    properties it was given and the type name it was given; it is an array
    exactly when it was one; a node declared as array is an array, or the
    value null of a nullable attribute; an array is never declared as no
    array; and a value has a base type or none yet. *)
Theorem applySchemaInfo_checks (kw : SchemaInfo) (n n' : Node) :
  applySchemaInfo kw n = Ok n' ->
  node_meta n' = assign_meta kw (node_meta n) /\
  (forall t, kw_typeName kw = Some t -> node_typeName n' = t) /\
  is_array_node n' = is_array_node n /\
  (is_array_node n' = true -> isArray (node_meta n') <> Some false) /\
  (is_array_node n' = false -> isArray (node_meta n') = Some true ->
   is_null_value n' = true /\ isNullable (node_meta n') = Some true) /\
  (forall v, n' = NValue v ->
             typeName v = JNull \/ is_base_type (typeName v) = true).
Proof.
  intros Hok.
  destruct (applySchemaInfo_ok kw n n' Hok) as (Hm & Ht & Ha & Hf & Hv).
  split; [exact Hm|]. split; [intros t Hk; now rewrite Ht, Hk|].
  split; [exact Ha|]. split; [intros Hn; now rewrite Hn in Hf|].
  split; [intros Hn; rewrite Hn in Hf; exact Hf|].
  intros v ->. exact Hv.
Qed.

Lemma applySchemaInfo_checks_witness :
  let n' := NValue {| content := js "80"; typeName := JVal (js "int");
                      meta := {| attrName := JVal (js "port");
                                 isNullable := Some false;
                                 isArray := Some false; parent := PNull |};
                      isLiteralStr := false; rendered := UNRENDERED |} in
  node_meta n' = assign_meta (scalar_schema "int" "port") (node_meta (raw (js "80")))
  /\ node_typeName n' = JVal (js "int").
Proof.
  intro n'.
  destruct (applySchemaInfo_checks (scalar_schema "int" "port") (raw (js "80")) n')
    as (Hm & Ht & _).
  - vm_compute. reflexivity.
  - split; [exact Hm|]. apply Ht. reflexivity.
Defined.

Lemma array_elements_ok (kw : SchemaInfo) (tn : JSOpt jsstring) (m : Meta)
  (elems : list Node) (n' : Node) :
  applySchemaInfo kw (NArray tn m elems) = Ok n' ->
  exists elems',
    n' = NArray (default tn (kw_typeName kw)) (assign_meta kw m) elems' /\
    Forall2 (fun e e' =>
               applySchemaInfo
                 (item_SchemaInfo (default tn (kw_typeName kw))
                                  (assign_meta kw m)) e = Ok e') elems elems'.
Proof.
  cbn [applySchemaInfo].
  destruct (mapM _ elems) as [elems'| |] eqn:E; try discriminate. cbn [bind].
  unfold fail. case_bool_decide; [discriminate|].
  intros [= <-]. exists elems'. split; [reflexivity|].
  now apply mapM_length.
Qed.

(** X15: when applySchemaInfo succeeds on an array, the array keeps its
    length, no element is an array, every element is declared not nullable
    and no array, and the elements have the type name and the attribute
    name of the array, when the array has one. *)
Theorem array_elements_consistent (kw : SchemaInfo) (tn : JSOpt jsstring)
  (m : Meta) (elems : list Node) (n' : Node) :
  applySchemaInfo kw (NArray tn m elems) = Ok n' ->
  exists elems',
    n' = NArray (default tn (kw_typeName kw)) (assign_meta kw m) elems' /\
    length elems' = length elems /\
    Forall (fun e =>
              is_array_node e = false /\
              isNullable (node_meta e) = Some false /\
              isArray (node_meta e) = Some false /\
              (node_typeName n' <> JNull -> node_typeName e = node_typeName n') /\
              (attrName (node_meta n') <> JNull ->
               attrName (node_meta e) = attrName (node_meta n'))) elems'.
Proof.
  intros Hok.
  destruct (array_elements_ok kw tn m elems n' Hok) as (elems' & -> & Hall).
  exists elems'. split; [reflexivity|].
  split; [symmetry; exact (Forall2_length _ _ _ Hall)|].
  cbn [node_typeName node_meta]. clear Hok.
  induction Hall as [|e e' elems elems' He _ IH]; [constructor|].
  constructor; [|exact IH].
  destruct (applySchemaInfo_ok _ e e' He) as (Hm & Ht & _ & Hf & _).
  assert (Hflags : isNullable (node_meta e') = Some false /\
                   isArray (node_meta e') = Some false)
    by (rewrite Hm; split; reflexivity).
  destruct Hflags as [Hn Ha].
  split; [|split; [exact Hn|split; [exact Ha|split]]].
  - destruct (is_array_node e'); [now apply Hf in Ha|reflexivity].
  - intros Hne. rewrite Ht. cbn [item_SchemaInfo kw_typeName].
    destruct (default tn (kw_typeName kw)); [congruence|reflexivity..].
  - intros Hne. rewrite Hm. unfold assign_meta at 1.
    cbn [attrName item_SchemaInfo kw_attrName].
    destruct (attrName (assign_meta kw m)); [congruence|reflexivity..].
Qed.

Lemma array_elements_consistent_witness :
  exists elems',
    length elems' = 2%nat /\
    Forall (fun e => node_typeName e = JVal (js "int") /\
                     isArray (node_meta e) = Some false) elems'.
Proof.
  destruct (array_elements_consistent
              {| kw_typeName := Some (JVal (js "int"));
                 kw_attrName := Some (JVal (js "ports"));
                 kw_isNullable := Some false; kw_isArray := Some true |}
              JNull new_Meta [raw (js "80"); raw (js "443")]
              (NArray (JVal (js "int"))
                 {| attrName := JVal (js "ports"); isNullable := Some false;
                    isArray := Some true; parent := PNull |}
                 [NValue {| content := js "80"; typeName := JVal (js "int");
                            meta := {| attrName := JVal (js "ports");
                                       isNullable := Some false;
                                       isArray := Some false; parent := PNull |};
                            isLiteralStr := false; rendered := UNRENDERED |};
                  NValue {| content := js "443"; typeName := JVal (js "int");
                            meta := {| attrName := JVal (js "ports");
                                       isNullable := Some false;
                                       isArray := Some false; parent := PNull |};
                            isLiteralStr := false; rendered := UNRENDERED |}]))
    as (elems' & _ & Hlen & Hall).
  - vm_compute. reflexivity.
  - exists elems'. split; [exact Hlen|].
    eapply Forall_impl; [exact Hall|].
    intros e (_ & _ & Ha & Ht & _). split; [|exact Ha].
    apply Ht. discriminate.
Defined.

(** X16: an array that holds an array as an element is accepted under no
    schema: applySchemaInfo never succeeds on it. *)
Theorem nested_array_rejected (kw : SchemaInfo) (tn tn1 : JSOpt jsstring)
  (m m1 : Meta) (elems l1 : list Node) (n' : Node) :
  In (NArray tn1 m1 l1) elems ->
  applySchemaInfo kw (NArray tn m elems) <> Ok n'.
Proof.
  intros Hin Hok.
  destruct (array_elements_ok kw tn m elems n' Hok) as (elems' & _ & Hall).
  clear Hok. induction Hall as [|e e' elems elems' He _ IH]; [contradiction|].
  destruct Hin as [->|Hin]; [|now apply IH].
  destruct (applySchemaInfo_ok _ _ e' He) as (Hm & _ & Ha & Hf & _).
  cbn [is_array_node] in Ha. rewrite Ha in Hf. apply Hf.
  now rewrite Hm.
Qed.

Lemma nested_array_rejected_witness :
  applySchemaInfo
    {| kw_typeName := Some (JVal (js "int")); kw_attrName := None;
       kw_isNullable := Some false; kw_isArray := Some true |}
    (NArray JNull new_Meta [raw (js "1"); NArray JNull new_Meta [raw (js "2")]])
  <> Ok (NArray JNull new_Meta []).
Proof.
  apply (nested_array_rejected _ JNull JNull new_Meta new_Meta _ [raw (js "2")]).
  right. left. reflexivity.
Defined.

End SchemaFacts.

(** ** Creating instances *)

Section InstanceFacts.

Lemma map_set_elem_of {V} (m : list (jsstring * V)) (k k' : jsstring) (v v' : V) :
  (k', v') ∈ map_set m k v -> (k', v') ∈ m \/ (k' = k /\ v' = v).
Proof.
  induction m as [|[k0 v0] m IH]; cbn [map_set].
  - intros Hin. apply list_elem_of_singleton in Hin. injection Hin as -> ->.
    now right.
  - case_bool_decide.
    + intros Hin. apply elem_of_cons in Hin as [Hin|Hin].
      * injection Hin as -> ->. now right.
      * left. now right.
    + intros Hin. apply elem_of_cons in Hin as [Hin|Hin].
      * left. rewrite Hin. now left.
      * destruct (IH Hin) as [?|?]; [left; now right|now right].
Qed.

Lemma map_get_key {V} (m : list (jsstring * V)) (k : jsstring) :
  k ∈ map_keys m -> exists v, map_get m k = Some v.
Proof.
  unfold map_keys. induction m as [|[k0 v0] m IH]; cbn [map_get].
  - intros Hin. now apply elem_of_nil in Hin.
  - rewrite fmap_cons. cbn [fst]. intros Hin. case_bool_decide; [eauto|].
    apply elem_of_cons in Hin as [Hin|Hin]; [congruence|auto].
Qed.

(** The loop of [resolveCompleteKwargs] from the Map [acc] on. *)
Lemma resolve_fold (s : TycoStruct) (ik : list (JSOpt jsstring * Node))
  (dk : list (jsstring * Node)) (l : list jsstring) :
  forall acc kws,
    foldM (complete_attr s ik dk) l acc = Ok kws ->
    NoDup (map_keys acc ++ l) ->
    map_keys kws = map_keys acc ++ l /\
    forall a n, (a, n) ∈ kws ->
      (a, n) ∈ acc \/
      (a ∈ l /\
       exists n0, applySchemaInfo (schema_of s (JVal a)) n0 = Ok n /\
         match map_get ik (JVal a) with
         | Some given => n0 = given
         | None => exists d, map_get dk a = Some d /\ n0 = makeCopy d
         end).
Proof.
  induction l as [|a l IH]; intros acc kws.
  - intros [= <-] _. rewrite app_nil_r. auto.
  - cbn [foldM]. unfold complete_attr at 1.
    set (given := match map_get ik (JVal a) with
                  | Some attr => Ok attr
                  | None => match map_get dk a with
                            | Some val => Ok (makeCopy val)
                            | None => fail MissingAttr
                            end
                  end).
    destruct given as [n0| |] eqn:En0; try discriminate. cbn [bind].
    destruct (applySchemaInfo (schema_of s (JVal a)) n0) as [n1| |] eqn:En1;
      try discriminate.
    cbn [bind]. intros Hfold Hnd.
    assert (Hfresh : map_has acc a = false).
    { unfold map_has. destruct (map_get acc a) as [x|] eqn:E; [|reflexivity].
      apply map_get_elem_of in E. apply NoDup_app in Hnd as (_ & Hdis & _).
      exfalso. apply (Hdis a).
      - apply list_elem_of_fmap. now exists (a, x).
      - now left. }
    pose proof (map_set_keys acc a n1) as Hkeys. rewrite Hfresh in Hkeys.
    destruct (IH _ _ Hfold) as [Hk Hin].
    { rewrite Hkeys, <- app_assoc. exact Hnd. }
    split; [rewrite Hk, Hkeys, <- app_assoc; reflexivity|].
    intros a' n Hn. destruct (Hin a' n Hn) as [Hacc|(Hl & n0' & Hn0' & Hsrc)].
    + apply map_set_elem_of in Hacc as [Hacc|[-> ->]]; [now left|].
      right. split; [now left|]. exists n0. split; [exact En1|].
      subst given. destruct (map_get ik (JVal a)) as [g|].
      * now injection En0 as ->.
      * destruct (map_get dk a) as [d|]; [|discriminate].
        injection En0 as <-. now exists d.
    + right. split; [now right|]. now exists n0'.
Qed.

(** X17: an instance that createInlineInstance returns has the type name
    of the struct and exactly the attributes of the schema, in the order of
    the schema; each attribute carries its own name, the declared type and
    the nullable and array flags of the schema. *)
Theorem createInlineInstance_complete (s : TycoStruct) (instArgs : list Node)
  (defaultKwargs : list (jsstring * Node)) (inst : Node) :
  NoDup (map_keys (attrTypes s)) ->
  createInlineInstance s instArgs defaultKwargs = Ok inst ->
  exists kws,
    inst = NInstance (struct_typeName s) new_Meta kws /\
    map_keys kws = map_keys (attrTypes s) /\
    forall a n, (a, n) ∈ kws ->
      exists t,
        map_get (attrTypes s) a = Some t /\
        node_typeName n = JVal t /\
        attrName (node_meta n) = JVal a /\
        isNullable (node_meta n) = Some (bool_decide (a ∈ nullableKeys s)) /\
        isArray (node_meta n) = Some (bool_decide (a ∈ arrayKeys s)).
Proof.
  intros Hnd. unfold createInlineInstance.
  destruct (foldM (instance_arg s) _ _) as [[b ik]| |]; try discriminate.
  cbn [bind]. unfold resolveCompleteKwargs.
  destruct (foldM (complete_attr s ik defaultKwargs) _ _) as [kws| |] eqn:E;
    try discriminate.
  cbn [bind]. intros [= <-]. exists kws. split; [reflexivity|].
  destruct (resolve_fold s ik defaultKwargs _ _ _ E Hnd) as [Hk Hin].
  split; [exact Hk|].
  intros a n Hn. destruct (Hin a n Hn) as [Hnil|(Ha & n0 & Hn0 & _)].
  { now apply elem_of_nil in Hnil. }
  destruct (map_get_key _ a Ha) as [t Ht]. exists t.
  destruct (applySchemaInfo_ok _ n0 n Hn0) as (Hm & Htn & _).
  split; [exact Ht|]. split.
  - rewrite Htn. cbn [schema_of kw_typeName struct_typeOf]. now rewrite Ht.
  - rewrite Hm. repeat split.
Qed.

Lemma createInlineInstance_complete_witness :
  exists kws,
    createInlineInstance Service_schema
      [raw (js "api"); named "url" (js "http://api")] []
    = Ok (NInstance (js "Service") new_Meta kws) /\
    map_keys kws = map_keys (attrTypes Service_schema).
Proof.
  destruct (createInlineInstance Service_schema
              [raw (js "api"); named "url" (js "http://api")] []) as [inst| |] eqn:E;
    try (vm_compute in E; discriminate).
  destruct (createInlineInstance_complete Service_schema
              [raw (js "api"); named "url" (js "http://api")] [] inst)
    as (kws & -> & Hk & _).
  - apply (bool_decide_unpack _). vm_compute. exact I.
  - exact E.
  - now exists kws.
Defined.

Lemma instance_arg_cases (s : TycoStruct) (b : bool)
  (ik : list (JSOpt jsstring * Node)) (i : nat) (x : Node) :
  (is_falsy_name (attrName (node_meta x)) = true /\ b = true /\
   instance_arg s (b, ik) (i, x) = Throw (TycoError PositionalAfterKeyword)) \/
  (is_falsy_name (attrName (node_meta x)) = true /\ b = false /\
   exists ik', instance_arg s (b, ik) (i, x) = Ok (false, ik')) \/
  (is_falsy_name (attrName (node_meta x)) = false /\
   exists ik', instance_arg s (b, ik) (i, x) = Ok (true, ik')).
Proof.
  unfold instance_arg.
  destruct (is_falsy_name (attrName (node_meta x))); [destruct b|].
  - left. auto.
  - right. left. repeat split. eexists. reflexivity.
  - right. right. split; [reflexivity|]. eexists. reflexivity.
Qed.

(** Once a named argument was read, a positional one ends the loop. *)
Lemma instance_args_keyed (s : TycoStruct) (l : list Node) :
  forall (a : nat) (ik : list (JSOpt jsstring * Node)),
    Exists (fun x => is_falsy_name (attrName (node_meta x)) = true) l ->
    foldM (instance_arg s) (zip (seq a (length l)) l) (true, ik)
    = Throw (TycoError PositionalAfterKeyword).
Proof.
  induction l as [|x l IH]; intros a ik Hex; [now apply Exists_nil in Hex|].
  cbn [length seq zip zip_with foldM].
  destruct (instance_arg_cases s true ik a x)
    as [(_ & _ & ->)|[(_ & Hb & _)|(Hx & ik' & ->)]];
    [reflexivity|discriminate|].
  cbn [bind]. apply IH. apply Exists_cons in Hex as [Hex|Hex]; [|exact Hex].
  congruence.
Qed.

Lemma instance_args_mixed (s : TycoStruct) (pre rest : list Node) (named : Node) :
  forall (a : nat) (b : bool) (ik : list (JSOpt jsstring * Node)),
    is_falsy_name (attrName (node_meta named)) = false ->
    Exists (fun x => is_falsy_name (attrName (node_meta x)) = true) rest ->
    foldM (instance_arg s)
      (zip (seq a (length (pre ++ named :: rest))) (pre ++ named :: rest)) (b, ik)
    = Throw (TycoError PositionalAfterKeyword).
Proof.
  induction pre as [|x pre IH]; intros a b ik Hnamed Hex.
  - cbn [app length seq zip zip_with foldM].
    destruct (instance_arg_cases s b ik a named)
      as [(Hx & _)|[(Hx & _)|(_ & ik' & ->)]]; try congruence.
    cbn [bind]. now apply instance_args_keyed.
  - cbn [app length seq zip zip_with foldM].
    destruct (instance_arg_cases s b ik a x)
      as [(_ & _ & ->)|[(_ & _ & ik' & ->)|(_ & ik' & ->)]];
      [reflexivity| |]; cbn [bind]; now apply IH.
Qed.

(** X18: when a positional argument follows a named one, however far, no
    instance is created: createInlineInstance fails with
    PositionalAfterKeyword, whatever the schema and the defaults. *)
Theorem positional_after_keyword (s : TycoStruct)
  (pre mid post : list Node) (named positional : Node)
  (defaultKwargs : list (jsstring * Node)) :
  is_falsy_name (attrName (node_meta named)) = false ->
  is_falsy_name (attrName (node_meta positional)) = true ->
  createInlineInstance s (pre ++ named :: mid ++ positional :: post)
    defaultKwargs
  = Throw (TycoError PositionalAfterKeyword).
Proof.
  intros Hn Hp. unfold createInlineInstance, indexed.
  rewrite (instance_args_mixed s pre (mid ++ positional :: post) named);
    [reflexivity|exact Hn|].
  apply Exists_app. right. now left.
Qed.

Lemma positional_after_keyword_witness :
  createInlineInstance Service_schema
    [named "name" (js "api"); raw (js "8080")] []
  = Throw (TycoError PositionalAfterKeyword).
Proof.
  apply (positional_after_keyword Service_schema [] [] []
           (named "name" (js "api")) (raw (js "8080")) []); reflexivity.
Defined.

End InstanceFacts.

(** ** The index of a struct and the references *)

Section ResolutionFacts.
Context `{Platform}.



Lemma renderReferences_elems (ctx ctx' : TycoContext) (l l' : list Node) :
  Forall2 (fun e e' => renderReferences ctx e = Ok e') l l' ->
  Forall (fun e => forall e',
            renderReferences ctx e = Ok e' ->
            renderReferences ctx' e'
            = (if has_reference e then Throw (TycoError DoubleRender)
               else Ok e') /\
            (has_reference e = false -> e' = e)) l ->
  mapM (renderReferences ctx') l'
  = (if existsb has_reference l then Throw (TycoError DoubleRender)
     else Ok l') /\
  (existsb has_reference l = false -> l' = l).
Proof.
  induction 1 as [|e e' l l' He _ IH]; intros Hall; [split; reflexivity|].
  destruct (Forall_inv Hall e' He) as [He' Hsame].
  destruct (IH (Forall_inv_tail Hall)) as [Hl' Hlsame].
  rewrite mapM_cons. cbn [existsb]. rewrite He'.
  destruct (has_reference e); cbn [orb bind]; [split; [reflexivity|discriminate]|].
  rewrite Hl'. destruct (existsb has_reference l); cbn [bind].
  - split; [reflexivity|discriminate].
  - split; [reflexivity|]. intros _. now rewrite Hsame, Hlsame.
Qed.

Lemma renderReferences_kwargs (ctx ctx' : TycoContext)
  (l l' : list (jsstring * Node)) :
  Forall2 (fun e e' => (let '(a, i) := e in
                        let! i' := renderReferences ctx i in Ok (a, i'))
                       = Ok e') l l' ->
  Forall (fun e => forall e',
            renderReferences ctx e.2 = Ok e' ->
            renderReferences ctx' e'
            = (if has_reference e.2 then Throw (TycoError DoubleRender)
               else Ok e') /\
            (has_reference e.2 = false -> e' = e.2)) l ->
  mapM (fun '(a, i) => let! i' := renderReferences ctx' i in Ok (a, i')) l'
  = (if existsb (fun e => has_reference e.2) l
     then Throw (TycoError DoubleRender) else Ok l') /\
  (existsb (fun e => has_reference e.2) l = false -> l' = l).
Proof.
  induction 1 as [|[a c] [a' c'] l l' He _ IH]; intros Hall;
    [split; reflexivity|].
  destruct (renderReferences ctx c) as [c1| |] eqn:Ec; try discriminate.
  injection He as <- <-.
  destruct (Forall_inv Hall c1 Ec) as [He' Hsame]. cbn [snd] in He', Hsame.
  destruct (IH (Forall_inv_tail Hall)) as [Hl' Hlsame].
  rewrite mapM_cons. cbn [existsb snd]. rewrite He'.
  destruct (has_reference c); cbn [orb bind]; [split; [reflexivity|discriminate]|].
  rewrite Hl'. destruct (existsb _ l); cbn [bind].
  - split; [reflexivity|discriminate].
  - split; [reflexivity|]. intros _. now rewrite Hsame, Hlsame.
Qed.

Lemma renderReferences_again (ctx ctx' : TycoContext) (n : Node) :
  forall n',
    renderReferences ctx n = Ok n' ->
    renderReferences ctx' n'
    = (if has_reference n then Throw (TycoError DoubleRender) else Ok n') /\
    (has_reference n = false -> n' = n).
Proof.
  induction n as [v|tn m elems IH|tn m kws IH|tn m args t IH]
    using Node_induction; intros n'; cbn [renderReferences has_reference].
  - intros [= <-]. split; reflexivity.
  - destruct (mapM (renderReferences ctx) elems) as [elems'| |] eqn:E;
      try discriminate.
    cbn [bind]. intros [= <-]. apply mapM_length in E.
    destruct (renderReferences_elems ctx ctx' elems elems' E IH) as [Hl Hsame].
    cbn [renderReferences]. rewrite Hl.
    destruct (existsb has_reference elems); cbn [bind].
    + split; [reflexivity|discriminate].
    + split; [reflexivity|]. intros _. now rewrite Hsame.
  - destruct (mapM _ kws) as [kws'| |] eqn:E; try discriminate.
    cbn [bind]. intros [= <-]. apply mapM_length in E.
    destruct (renderReferences_kwargs ctx ctx' kws kws' E IH) as [Hl Hsame].
    cbn [renderReferences]. rewrite Hl.
    destruct (existsb _ kws); cbn [bind].
    + split; [reflexivity|discriminate].
    + split; [reflexivity|]. intros _. now rewrite Hsame.
  - unfold TycoReference_renderReferences, fail.
    destruct t as [r|]; [discriminate|].
    destruct (map_get (structs ctx) tn) as [s|]; [|discriminate].
    destruct (loadReference s args) as [[args' i]| |]; try discriminate.
    cbn [bind]. intros [= <-]. split; [reflexivity|discriminate].
Qed.

(** X20: the references are resolved once.  On the result of a successful
    renderReferences, a second renderReferences, in whatever context, fails
    with DoubleRender when the node holds a reference; a node without
    reference is left as it is by both. *)
Theorem renderReferences_once (ctx ctx' : TycoContext) (n n' : Node) :
  renderReferences ctx n = Ok n' ->
  (has_reference n = true ->
   renderReferences ctx' n' = Throw (TycoError DoubleRender)) /\
  (has_reference n = false ->
   n' = n /\ renderReferences ctx' n' = Ok n').
Proof.
  intros Hok.
  destruct (renderReferences_again ctx ctx' n n' Hok) as [Hagain Hsame].
  split; intros Hr; rewrite Hr in Hagain; auto.
Qed.

End ResolutionFacts.


Lemma renderReferences_once_witness :
  renderReferences (H := sample_platform) new_TycoContext
    (NArray JNull new_Meta
       [NReference (js "Database") new_Meta
          [NValue (set_rendered (typed "str" "name" (js "replica")) false
                     (VStr (js "replica")))]
          (Some (js "Database", 1%nat))])
  = Throw (TycoError DoubleRender).
Proof.
  apply (proj1 (renderReferences_once (H := sample_platform)
                  Database_context new_TycoContext
                  (NArray JNull new_Meta
                     [NReference (js "Database") new_Meta
                        [raw (js "replica")] None]) _ eq_refl)).
  reflexivity.
Defined.

(** ** Globals *)

Section GlobalFacts.

Lemma map_set_fresh {V} (m : list (jsstring * V)) (k : jsstring) (v : V) :
  map_get m k = None -> map_set m k v = m ++ [(k, v)].
Proof.
  induction m as [|[k0 v0] m IH]; cbn [map_get map_set]; [reflexivity|].
  case_bool_decide; [discriminate|]. intros Hm. now rewrite IH.
Qed.

(** X21: declaring globals one after the other, in a context whose globals
    have distinct names, succeeds exactly when the names stay distinct; the
    globals then are the old ones followed by the new ones in the order of
    their declaration, and otherwise the call for the first repeated name
    fails with DuplicateGlobal. *)
Theorem setGlobalAttr_sequence (ctx : TycoContext)
  (l : list (jsstring * Node)) :
  NoDup (map_keys (globals ctx)) ->
  foldM (fun ctx '(a, n) => setGlobalAttr ctx a n) l ctx
  = if bool_decide (NoDup (map_keys (globals ctx) ++ map_keys l))
    then Ok (set_globals ctx (globals ctx ++ l))
    else Throw (TycoError DuplicateGlobal).
Proof.
  revert ctx.
  induction l as [|[a n] l IH]; intros ctx Hnd.
  - cbn [foldM]. case_bool_decide as Hd.
    + rewrite (app_nil_r (globals ctx)). now destruct ctx.
    + exfalso. apply Hd. unfold map_keys at 2. cbn [fmap list_fmap].
      now rewrite app_nil_r.
  - cbn [foldM]. unfold setGlobalAttr at 1, map_has, fail.
    destruct (map_get (globals ctx) a) as [x|] eqn:E.
    + cbn [bind]. rewrite bool_decide_eq_false_2; [reflexivity|].
      intros Hall. apply NoDup_app in Hall as (_ & Hdis & _).
      apply (Hdis a).
      * apply list_elem_of_fmap. exists (a, x).
        split; [reflexivity|now apply map_get_elem_of].
      * unfold map_keys. rewrite fmap_cons. now left.
    + cbn [bind]. rewrite (map_set_fresh _ _ n E).
      pose proof (map_get_None_keys _ _ E) as Hfresh.
      assert (Hkeys : map_keys (globals ctx ++ [(a, n)]) ++ map_keys l
                      = map_keys (globals ctx) ++ map_keys ((a, n) :: l)).
      { unfold map_keys. rewrite fmap_app, fmap_cons, <- app_assoc.
        reflexivity. }
      rewrite IH; cbn [globals set_globals].
      * case_bool_decide as H1; case_bool_decide as H2;
          rewrite Hkeys in H1; try contradiction; [|reflexivity].
        now rewrite <- app_assoc.
      * unfold map_keys. rewrite fmap_app. apply NoDup_app.
        split; [exact Hnd|]. split; [|apply NoDup_singleton].
        intros x Hx Hin. apply list_elem_of_singleton in Hin. now subst x.
Qed.

Lemma setGlobalAttr_sequence_witness :
  foldM (fun ctx '(a, n) => setGlobalAttr ctx a n)
    [(js "env", raw (js "prod")); (js "region", raw (js "eu"));
     (js "env", raw (js "test"))] new_TycoContext
  = Throw (TycoError DuplicateGlobal).
Proof.
  rewrite (setGlobalAttr_sequence new_TycoContext).
  - reflexivity.
  - apply NoDup_nil_2.
Defined.

End GlobalFacts.

(** ** Templates and parents *)

Section ParentFacts.
Context `{Platform}.

Lemma map_get_map {V W} (g : jsstring -> V -> W) (l : list (jsstring * V))
  (k : jsstring) :
  map_get (map (fun '(k, v) => (k, g k v)) l) k = g k <$> map_get l k.
Proof.
  induction l as [|[k0 v0] l IH]; cbn [map map_get]; [reflexivity|].
  case_bool_decide; [now subst|exact IH].
Qed.

Lemma indexed_lookup {A} (l : list A) :
  forall (a i : nat),
    zip (seq a (length l)) l !! i = (fun x => ((a + i)%nat, x)) <$> l !! i.
Proof.
  induction l as [|x l IH]; intros a i; [reflexivity|].
  cbn [length seq zip zip_with]. destruct i as [|i]; cbn [lookup list_lookup].
  - now rewrite Nat.add_0_r.
  - rewrite IH. now rewrite Nat.add_succ_r.
Qed.

Lemma setParent_parent (self : Path) (par : ParentRef) (n : Node) :
  parent (node_meta (setParent self par n)) = par.
Proof.
  now destruct n.
Qed.

(** A declared instance after [setParents]. *)
Lemma setParents_instance (ctx : TycoContext) (k : jsstring) (i : nat)
  (inst : Node) :
  instance_at ctx (k, i) = Some inst ->
  instance_at (Context_setParents ctx) (k, i)
  = Some (setParent (RInstance (k, i), []) PNull inst).
Proof.
  unfold instance_at, Context_setParents. cbn [fst snd structs set_structs].
  pose proof (map_get_map
                (fun k s => set_instances s
                   (map (fun '(i, inst) =>
                           setParent (RInstance (k, i), []) PNull inst)
                        (indexed (instances s))))
                (structs ctx) k) as Hg.
  cbv beta in Hg. rewrite Hg. clear Hg.
  destruct (map_get (structs ctx) k) as [s|]; [|discriminate].
  cbn [fmap option_fmap option_map instances set_instances]. intros Hi.
  rewrite list_lookup_fmap. unfold indexed. rewrite indexed_lookup, Hi.
  reflexivity.
Qed.

(** X22: after setParents a declared instance has no parent, and its
    attributes have the instance as parent; so in a value of the instance a
    template that starts with two dots, which asks for the parent of the
    instance, fails with ParentOverflow. *)
Theorem top_level_parent_overflow (ctx : TycoContext) (k : jsstring) (i : nat)
  (inst : Node) (rest : jsstring) :
  instance_at ctx (k, i) = Some inst ->
  let ctx' := Context_setParents ctx in
  let self := (RInstance (k, i), []) in
  (exists inst', lookup_path ctx' self = Some inst' /\
                 parent (node_meta inst') = PNull) /\
  (forall a n, lookup_path ctx' (RInstance (k, i), [SField a]) = Some n ->
               parent (node_meta n) = PNode self) /\
  templateRender ctx' (PNode self) ([DOT; DOT] ++ rest)
  = Throw (TycoError ParentOverflow).
Proof.
  intros Hi ctx' self. subst self.
  pose proof (setParents_instance ctx k i inst Hi) as Hi'.
  assert (Hself : lookup_path ctx' (RInstance (k, i), [])
                  = Some (setParent (RInstance (k, i), []) PNull inst)).
  { unfold lookup_path. cbn [fst snd root_at]. fold ctx' in Hi'.
    now rewrite Hi'. }
  split; [|split].
  - eexists. split; [exact Hself|]. apply setParent_parent.
  - intros a n. unfold lookup_path. cbn [fst snd root_at].
    fold ctx' in Hi'. rewrite Hi'.
    destruct inst as [v|tn m elems|tn m kws|tn m args t]; try discriminate.
    cbn [setParent node_at fst snd app].
    pose proof (map_get_map
                  (fun a c => setParent (RInstance (k, i), [SField a])
                                        (PNode (RInstance (k, i), [])) c)
                  kws a) as Hg.
    cbv beta in Hg. rewrite Hg. clear Hg.
    destruct (map_get kws a) as [c|]; [|discriminate].
    cbn [fmap option_fmap option_map node_at]. intros [= <-].
    apply setParent_parent.
  - unfold templateRender, deref. rewrite Hself.
    change (startsWith ([DOT; DOT] ++ rest) (js "..")) with true. cbv iota.
    change ([DOT; DOT] ++ rest) with (DOT :: DOT :: rest).
    rewrite substring_tail. cbn [hop_parents].
    rewrite N.eqb_refl. cbn [obj_parent bind].
    rewrite setParent_parent. reflexivity.
Qed.


End ParentFacts.

Lemma top_level_parent_overflow_witness :
  templateRender (H := sample_platform)
    (Context_setParents (set_structs new_TycoContext [(js "T", two_rows)]))
    (PNode (RInstance (js "T", 1%nat), [])) (js "..id")
  = Throw (TycoError ParentOverflow).
Proof.
  apply (top_level_parent_overflow (H := sample_platform)
           (set_structs new_TycoContext [(js "T", two_rows)])
           (js "T") 1%nat (keyed_row "b") (js "id")).
  reflexivity.
Defined.


(** What String makes of a number: an integer up to 2^53 has all its
    digits; above, it has the fewest digits that read back as the same
    double, and zeros after them. *)
Example Number_toString_examples :
  Number_toString (H := sample_platform) (ofZ 5433) = js "5433" /\
  Number_toString (H := sample_platform) (ofZ (-31)) = js "-31" /\
  Number_toString (H := sample_platform) (ofZ (2 ^ 53)) = js "9007199254740992" /\
  Number_toString (H := sample_platform) (ofZ (2 ^ 60))
  = js "1152921504606847000" /\
  Number_toString (H := sample_platform) (round_double (-123456789012345678901))
  = js "-123456789012345680000" /\
  Number_toString (H := sample_platform) NaN = js "NaN".
Proof.
  repeat split.
Qed.

(** A template that names an int attribute of 2^60. *)
Example template_large_int :
  templateRender (H := sample_platform)
    (set_structs new_TycoContext
       [(js "T",
         set_instances (new_TycoStruct (js "T"))
           [NInstance (js "T") new_Meta
              [(js "n",
                NValue (set_rendered (typed "int" "n" (js "1152921504606846976"))
                          false
                          (VNum (render_int (js "1152921504606846976")))))]])])
    (PNode (RInstance (js "T", 0%nat), [])) (js "n")
  = Ok (js "1152921504606847000").
Proof.
  vm_compute. reflexivity.
Qed.

(** ** The globals in the object of toObject *)

Section GlobalsObjectFacts.

(** The second loop of [toObject] writes under the names of the structs
    with primary keys only. *)
Lemma struct_loop_keeps (fuel : nat) (ctx : TycoContext)
  (l : list (jsstring * TycoStruct)) :
  forall (o r : JSValue),
    foldM (struct_entry fuel ctx) l o = Ok r ->
    forall T, (forall s, (T, s) ∈ l -> primaryKeys s = []) ->
              own_property r T = own_property o T.
Proof.
  induction l as [|[T0 s0] l IH]; intros o r Hf T Hzero.
  - now injection Hf as <-.
  - cbn [foldM] in Hf.
    destruct (struct_entry fuel ctx o (T0, s0)) as [o1| |] eqn:E;
      try discriminate.
    cbn [bind] in Hf.
    rewrite (IH o1 r Hf T)
      by (intros s Hin; apply Hzero; now apply elem_of_cons; right).
    unfold struct_entry in E. cbn [fst snd] in E.
    destruct (primaryKeys s0) eqn:Epk; [now injection E as <-|].
    destruct (mapM _ _); try discriminate. cbn [bind] in E.
    injection E as <-. apply own_property_set_ne.
    intros ->. specialize (Hzero s0 ltac:(now apply elem_of_cons; left)).
    congruence.
Qed.

(** X24: when toObject returns, every global, whose name is not __proto__
    and not the name of a struct with primary keys, is an own property of the
    returned object under its name, with the toJSON of the global as value;
    reading the property gives that value. *)
Theorem toObject_globals (fuel : nat) (ctx : TycoContext) (result : JSValue)
  (name : jsstring) (attr : Node) :
  NoDup (map_keys (globals ctx)) ->
  toObject fuel ctx = Ok result ->
  (name, attr) ∈ globals ctx ->
  name <> proto_key ->
  (forall s, (name, s) ∈ structs ctx -> primaryKeys s = []) ->
  exists j,
    toJSON fuel ctx attr = Ok j /\
    own_property result name = Some j /\
    obj_get result name = Some j.
Proof.
  intros Hnd Hto Hin Hname Hstruct. unfold toObject in Hto.
  destruct (globals_object fuel ctx) as [g| |] eqn:Eg; try discriminate.
  cbn [bind] in Hto. unfold globals_object in Eg.
  destruct (globals_loop fuel ctx (globals ctx) empty_object g I Hnd Eg)
    as [Hg _].
  destruct (Hg name attr Hin Hname) as (j & Hj & Hown).
  exists j. split; [exact Hj|].
  assert (Hres : own_property result name = Some j).
  { rewrite (struct_loop_keeps fuel ctx (structs ctx) g result Hto name Hstruct).
    exact Hown. }
  split; [exact Hres|now apply obj_get_own].
Qed.

End GlobalsObjectFacts.

Lemma toObject_globals_witness :
  exists j,
    toJSON 3 (set_globals new_TycoContext
                [(js "env", NValue (set_rendered (typed "str" "env" (js "prod"))
                                      false (VStr (js "prod"))))])
      (NValue (set_rendered (typed "str" "env" (js "prod")) false
                 (VStr (js "prod")))) = Ok j /\
    j = VStr (js "prod").
Proof.
  destruct (toObject_globals 3
              (set_globals new_TycoContext
                 [(js "env", NValue (set_rendered (typed "str" "env" (js "prod"))
                                       false (VStr (js "prod"))))])
              (VObj (Some VObjectPrototype) [(js "env", VStr (js "prod"))])
              (js "env")
              (NValue (set_rendered (typed "str" "env" (js "prod")) false
                         (VStr (js "prod")))))
    as (j & Hj & Hown & _).
  - apply (bool_decide_unpack _). vm_compute. exact I.
  - reflexivity.
  - now left.
  - discriminate.
  - intros s Hin. now apply elem_of_nil in Hin.
  - exists j. split; [exact Hj|]. vm_compute in Hown.
    injection Hown as <-. reflexivity.
Defined.

(** ** The lexer: lines, cache and defaults *)

Section LexerFacts.
Variable fs : jsstring -> option jsstring.
Variable resolve_include : option jsstring -> jsstring -> jsstring.
Variable handle_line :
  TycoContext -> TycoLexer -> SourceFragment -> Outcome (TycoContext * TycoLexer).

Abbreviation process_lines := (process fs resolve_include handle_line).
Abbreviation lexer_of_path := (fromPath fs resolve_include handle_line).

(** [process] returns only when the lexer has no line left, whatever the
    handling of the lines that are no include does. *)
Lemma process_drains (fuel : nat) (ctx ctx' : TycoContext)
  (this this' : TycoLexer) :
  process_lines fuel ctx this = Ok (ctx', this') -> lines this' = [].
Proof.
  revert ctx this.
  induction fuel as [|fuel IH]; intros ctx this; [discriminate|].
  cbn [process]. destruct (lines this) as [|line rest] eqn:El.
  - intros [= <- <-]. exact El.
  - destruct (include_match (text line)) as [p|].
    + destruct (fromPath_with fs _ _ _) as [[ctx1 lexer]| |];
        try discriminate. cbn [bind].
      destruct (process_lines fuel ctx1 lexer) as [[ctx2 lexer2]| |];
        try discriminate. cbn [bind].
      destruct (merge_defaults _ lexer2) as [this1| |]; try discriminate.
      cbn [bind]. apply IH.
    + destruct (handle_line ctx _ line) as [[ctx1 this1]| |];
        try discriminate. cbn [bind]. apply IH.
Qed.

(** X25: when fromPath returns a lexer, the cache of the context it leaves
    holds that lexer under the path, so every later fromPath of the path
    returns the same lexer and leaves the context as it is; a lexer that was
    not in the cache before has no line left. *)
Theorem fromPath_caches_lexer (fuel : nat) (ctx ctx' : TycoContext)
  (p : jsstring) (lexer : TycoLexer) :
  lexer_of_path fuel ctx p = Ok (ctx', lexer) ->
  pathCache ctx' !! p = Some lexer /\
  (forall fuel', lexer_of_path fuel' ctx' p = Ok (ctx', lexer)) /\
  (pathCache ctx !! p = None -> lines lexer = []).
Proof.
  unfold fromPath, fromPath_with.
  destruct (pathCache ctx !! p) as [cached|] eqn:Ec.
  - intros [= <- <-]. split; [exact Ec|]. split; [|discriminate].
    intros fuel'. now rewrite Ec.
  - destruct (fs p) as [content|]; [|discriminate].
    destruct (process_lines fuel ctx _) as [[ctx1 lexer1]| |] eqn:Ep;
      try discriminate.
    cbn [bind]. intros [= <- <-]. cbn [pathCache set_pathCache].
    assert (Hl : <[p:=lexer1]> (pathCache ctx1) !! p = Some lexer1)
      by apply lookup_insert_eq.
    split; [exact Hl|]. split.
    + intros fuel'. now rewrite Hl.
    + intros _. exact (process_drains _ _ _ _ _ Ep).
Qed.

Lemma map_has_set {V} (m : list (jsstring * V)) (k k' : jsstring) (v : V) :
  k = k' \/ map_has m k' = true -> map_has (map_set m k v) k' = true.
Proof.
  unfold map_has. destruct (decide (k = k')) as [->|Hne].
  - intros _. now rewrite map_get_set_eq.
  - intros [?|Hm]; [contradiction|]. now rewrite map_get_set_ne.
Qed.

(** The loop that copies defaults stops with ShouldNotHappen or leaves
    every type name it read in the defaults of the lexer. *)
Lemma merge_defaults_fold (ds : list (jsstring * list (jsstring * Node))) :
  forall this : TycoLexer,
    foldM (fun this '(tn, attrDefaults) =>
             if map_has (defaults this) tn then fail ShouldNotHappen
             else Ok (set_defaults this (map_set (defaults this) tn attrDefaults)))
          ds this = Throw (TycoError ShouldNotHappen) \/
    exists this1,
      foldM (fun this '(tn, attrDefaults) =>
               if map_has (defaults this) tn then fail ShouldNotHappen
               else Ok (set_defaults this (map_set (defaults this) tn attrDefaults)))
            ds this = Ok this1 /\
      lines this1 = lines this /\ path this1 = path this /\
      forall k, k ∈ map_keys ds \/ map_has (defaults this) k = true ->
                map_has (defaults this1) k = true.
Proof.
  induction ds as [|[tn d] ds IH]; intros this.
  - right. exists this. repeat split; auto.
    intros k [Hk|Hk]; [now apply elem_of_nil in Hk|exact Hk].
  - cbn [foldM]. destruct (map_has (defaults this) tn) eqn:Eh; [now left|].
    cbn [bind].
    destruct (IH (set_defaults this (map_set (defaults this) tn d)))
      as [->|(this1 & -> & Hl & Hp & Hk)]; [now left|].
    right. exists this1. split; [reflexivity|].
    split; [exact Hl|]. split; [exact Hp|].
    intros k Hin. apply Hk. cbn [defaults set_defaults].
    unfold map_keys in Hin. rewrite fmap_cons in Hin. cbn [fst] in Hin.
    destruct Hin as [Hin|Hin].
    + apply elem_of_cons in Hin as [->|Hin]; [|now left].
      right. apply map_has_set. now left.
    + right. apply map_has_set. now right.
Qed.

(** X26: a file whose first two lines include the same file, which is in
    the cache with no line left and with defaults for at least one struct,
    is not processed to the end: the second include, at the latest, finds the
    type name in the defaults and process fails with ShouldNotHappen. *)
Theorem include_twice_conflict (fuel : nat) (ctx : TycoContext)
  (this lexer : TycoLexer) (l1 l2 : SourceFragment)
  (rest : list SourceFragment) (p1 p2 q tn : jsstring)
  (d : list (jsstring * Node)) (ds : list (jsstring * list (jsstring * Node))) :
  lines this = l1 :: l2 :: rest ->
  include_match (text l1) = Some p1 ->
  include_match (text l2) = Some p2 ->
  resolve_include (path this) p1 = q ->
  resolve_include (path this) p2 = q ->
  pathCache ctx !! q = Some lexer ->
  lines lexer = [] ->
  defaults lexer = (tn, d) :: ds ->
  process_lines (S (S (S fuel))) ctx this = Throw (TycoError ShouldNotHappen).
Proof.
  intros Hlines H1 H2 Hq1 Hq2 Hc Hdone Hd.
  assert (Hfrom : forall f this0,
             path this0 = path this ->
             forall p, resolve_include (path this) p = q ->
             fromPath_with fs f ctx (resolve_include (path this0) p)
             = Ok (ctx, lexer)).
  { intros f this0 Hp p Hq. unfold fromPath_with. now rewrite Hp, Hq, Hc. }
  assert (Hproc : forall f, process_lines (S f) ctx lexer = Ok (ctx, lexer)).
  { intros f. cbn [process]. now rewrite Hdone. }
  change (process_lines (S (S (S fuel))) ctx this)
    with (match lines this with
          | [] => Ok (ctx, this)
          | line :: rest =>
              let this := set_lines this rest in
              match include_match (text line) with
              | Some p =>
                  let includePath := resolve_include (path this) p in
                  let! (ctx, lexer) :=
                    fromPath_with fs (process_lines (S (S fuel))) ctx includePath in
                  let! (ctx, lexer) := process_lines (S (S fuel)) ctx lexer in
                  let! this := merge_defaults this lexer in
                  process_lines (S (S fuel)) ctx this
              | None =>
                  let! (ctx, this) := handle_line ctx this line in
                  process_lines (S (S fuel)) ctx this
              end
          end).
  rewrite Hlines, H1. cbv zeta.
  rewrite (Hfrom _ (set_lines this (l2 :: rest)) eq_refl p1 Hq1). cbn [bind].
  rewrite Hproc. cbn [bind]. unfold merge_defaults at 1.
  destruct (merge_defaults_fold (defaults lexer) (set_lines this (l2 :: rest)))
    as [->|(this1 & -> & Hl & Hp & Hk)]; [reflexivity|].
  cbn [bind]. cbn [lines path set_lines] in Hl, Hp.
  change (process_lines (S (S fuel)) ctx this1)
    with (match lines this1 with
          | [] => Ok (ctx, this1)
          | line :: rest =>
              let this := set_lines this1 rest in
              match include_match (text line) with
              | Some p =>
                  let includePath := resolve_include (path this) p in
                  let! (ctx, lexer) :=
                    fromPath_with fs (process_lines (S fuel)) ctx includePath in
                  let! (ctx, lexer) := process_lines (S fuel) ctx lexer in
                  let! this := merge_defaults this lexer in
                  process_lines (S fuel) ctx this
              | None =>
                  let! (ctx, this) := handle_line ctx this line in
                  process_lines (S fuel) ctx this
              end
          end).
  rewrite Hl, H2. cbv zeta.
  rewrite (Hfrom _ (set_lines this1 rest) Hp p2 Hq2). cbn [bind].
  rewrite Hproc. cbn [bind]. unfold merge_defaults. rewrite Hd. cbn [foldM].
  cbn [defaults set_lines].
  rewrite (Hk tn); [reflexivity|]. left. rewrite Hd.
  unfold map_keys. rewrite fmap_cons. now left.
Qed.

End LexerFacts.

Lemma fromPath_caches_lexer_witness :
  exists ctx' lexer,
    fromPath sample_fs absolute_include no_other_line 4 new_TycoContext path_c
    = Ok (ctx', lexer) /\
    pathCache ctx' !! path_c = Some lexer /\ lines lexer = [].
Proof.
  destruct (fromPath sample_fs absolute_include no_other_line 4
              new_TycoContext path_c) as [[ctx' lexer]| |] eqn:E;
    try (vm_compute in E; discriminate).
  destruct (fromPath_caches_lexer sample_fs absolute_include no_other_line
              4 new_TycoContext ctx' path_c lexer E) as (Hc & _ & Hl).
  exists ctx', lexer. split; [reflexivity|]. split; [exact Hc|].
  apply Hl. reflexivity.
Defined.

Lemma include_twice_conflict_witness :
  process sample_fs absolute_include no_other_line 3
    (set_pathCache new_TycoContext
       {[ path_d := set_defaults (new_TycoLexer [] (Some path_d))
                      [(js "Service", [])] ]})
    (new_TycoLexer (coerceContentToFragments
                      (js "#include /etc/d.tyco" ++ [LF]
                       ++ js "#include /etc/d.tyco" ++ [LF]) (Some path_c))
                   (Some path_c))
  = Throw (TycoError ShouldNotHappen).
Proof.
  eapply (include_twice_conflict sample_fs absolute_include no_other_line 0
            _ _ (set_defaults (new_TycoLexer [] (Some path_d))
                   [(js "Service", [])])
            _ _ _ (js "/etc/d.tyco") (js "/etc/d.tyco") path_d
            (js "Service") [] []).
  - reflexivity.
  - vm_compute. reflexivity.
  - vm_compute. reflexivity.
  - reflexivity.
  - reflexivity.
  - apply lookup_singleton_eq.
  - reflexivity.
  - reflexivity.
Defined.

(** ** Time literals *)

Section TimeFacts.

Lemma digit_not_ws (c : N) : isDigit c = true -> isWhiteSpace c = false.
Proof.
  unfold isDigit. intros Hc. apply andb_prop in Hc as [H1 H2].
  apply N.leb_le in H1, H2.
  unfold isWhiteSpace. simpl existsb.
  repeat rewrite (proj2 (N.eqb_neq _ _)) by lia.
  now rewrite (proj2 (N.leb_gt _ _)) by lia.
Qed.

Lemma trimStart_padded (w s : jsstring) (c : N) :
  forallb isWhiteSpace w = true -> isWhiteSpace c = false ->
  trimStart (w ++ c :: s) = c :: s.
Proof.
  intros Hw Hc. induction w as [|x w IH]; cbn [app trimStart].
  - now rewrite Hc.
  - cbn [forallb] in Hw. apply andb_prop in Hw as [-> Hw]. now apply IH.
Qed.

Lemma trimEnd_padded (w s : jsstring) (z : N) :
  forallb isWhiteSpace w = true -> isWhiteSpace z = false ->
  trimEnd ((s ++ [z]) ++ w) = s ++ [z].
Proof.
  intros Hw Hz. unfold trimEnd.
  rewrite !rev_app_distr. cbn [rev app].
  rewrite trimStart_padded by (auto using forallb_reverse).
  cbn [rev]. now rewrite rev_involutive.
Qed.

Lemma trim_padded (w1 w2 s : jsstring) (c z : N) :
  forallb isWhiteSpace w1 = true -> forallb isWhiteSpace w2 = true ->
  isWhiteSpace c = false -> isWhiteSpace z = false ->
  trim (w1 ++ (c :: s ++ [z]) ++ w2) = c :: s ++ [z].
Proof.
  intros Hw1 Hw2 Hc Hz. unfold trim.
  change ((c :: s ++ [z]) ++ w2) with (c :: (s ++ [z]) ++ w2).
  rewrite trimStart_padded by assumption.
  change (c :: (s ++ [z]) ++ w2) with (((c :: s) ++ [z]) ++ w2).
  now rewrite trimEnd_padded.
Qed.

Lemma pad6_length (s : jsstring) : length (pad6 s) = 6%nat.
Proof.
  unfold pad6. rewrite length_firstn, length_app. simpl length. lia.
Qed.

Lemma forallb_firstn {A} (p : A -> bool) (n : nat) (l : list A) :
  forallb p l = true -> forallb p (firstn n l) = true.
Proof.
  revert l. induction n as [|n IH]; intros [|x l]; cbn [firstn forallb]; auto.
  intros Hl. apply andb_prop in Hl as [-> Hl]. now apply IH.
Qed.

Lemma pad6_digits (s : jsstring) :
  forallb isDigit s = true -> forallb isDigit (pad6 s) = true.
Proof.
  intros Hs. unfold pad6. apply forallb_firstn.
  rewrite forallb_app, Hs. reflexivity.
Qed.

Lemma pad6_long (s : jsstring) : (6 <= length s)%nat -> pad6 s = firstn 6 s.
Proof.
  intros Hs. unfold pad6. rewrite firstn_app.
  replace (6 - length s)%nat with 0%nat by lia. cbn [firstn].
  now rewrite app_nil_r.
Qed.

(** A time with a fraction, between white space. *)
Lemma normalizeTimeLiteral_padded (w1 base frac w2 : jsstring) :
  forallb isWhiteSpace w1 = true -> forallb isWhiteSpace w2 = true ->
  is_hms base = true -> is_digits frac = true ->
  normalizeTimeLiteral (w1 ++ (base ++ [DOT] ++ frac) ++ w2)
  = base ++ [DOT] ++ pad6 frac.
Proof.
  intros Hw1 Hw2 Hb Hf.
  destruct base as [|a [|b [|c1 [|d [|e [|c2 [|f [|g [|x base]]]]]]]]];
    try discriminate.
  pose proof Hb as Ha. cbn [is_hms] in Ha.
  do 7 (apply andb_prop in Ha as [Ha _]).
  assert (Hne : frac <> []) by (intros ->; cbn in Hf; discriminate).
  destruct (exists_last Hne) as (frac0 & z & ->).
  assert (Hz : isDigit z = true).
  { unfold is_digits in Hf. destruct (frac0 ++ [z]) eqn:E; [discriminate|].
    rewrite <- E, forallb_app in Hf. apply andb_prop in Hf as [_ Hf].
    cbn [forallb] in Hf. now apply andb_prop in Hf as [Hf _]. }
  unfold normalizeTimeLiteral.
  change ([a; b; c1; d; e; c2; f; g] ++ [DOT] ++ frac0 ++ [z])
    with (a :: ([b; c1; d; e; c2; f; g] ++ [DOT] ++ frac0) ++ [z]).
  rewrite (trim_padded w1 w2 _ a z Hw1 Hw2 (digit_not_ws a Ha)
             (digit_not_ws z Hz)).
  change (firstn 8 (a :: ([b; c1; d; e; c2; f; g] ++ [DOT] ++ frac0) ++ [z]))
    with [a; b; c1; d; e; c2; f; g].
  change (skipn 8 (a :: ([b; c1; d; e; c2; f; g] ++ [DOT] ++ frac0) ++ [z]))
    with (DOT :: frac0 ++ [z]).
  rewrite Hb, N.eqb_refl, Hf. reflexivity.
Qed.

(** X27: a time [hh:mm:ss.f], between any white space, is normalized to
    the time with exactly six fraction digits: the digits of [f] followed by
    zeros, or the first six of them, cut and not rounded.  The result is a
    fixed point of normalizeTimeLiteral. *)
Theorem normalizeTimeLiteral_fraction (w1 base frac w2 : jsstring) :
  forallb isWhiteSpace w1 = true -> forallb isWhiteSpace w2 = true ->
  is_hms base = true -> is_digits frac = true ->
  normalizeTimeLiteral (w1 ++ (base ++ [DOT] ++ frac) ++ w2)
  = base ++ [DOT] ++ pad6 frac /\
  length (pad6 frac) = 6%nat /\
  forallb isDigit (pad6 frac) = true /\
  ((6 <= length frac)%nat -> pad6 frac = firstn 6 frac) /\
  normalizeTimeLiteral (base ++ [DOT] ++ pad6 frac)
  = base ++ [DOT] ++ pad6 frac.
Proof.
  intros Hw1 Hw2 Hb Hf.
  assert (Hd : forallb isDigit frac = true)
    by (unfold is_digits in Hf; now destruct frac).
  pose proof (pad6_digits frac Hd) as Hp.
  split; [now apply normalizeTimeLiteral_padded|].
  split; [apply pad6_length|]. split; [exact Hp|].
  split; [apply pad6_long|].
  pose proof (normalizeTimeLiteral_padded [] base (pad6 frac) [] eq_refl eq_refl
                Hb) as Hfix.
  cbn [app] in Hfix |- *. rewrite app_nil_r in Hfix.
  rewrite Hfix.
  - rewrite (pad6_long (pad6 frac)) by (rewrite pad6_length; lia).
    rewrite firstn_all2; [reflexivity|]. rewrite pad6_length. lia.
  - unfold is_digits. pose proof (pad6_length frac) as Hl.
    destruct (pad6 frac); [discriminate|exact Hp].
Qed.

Lemma normalizeTimeLiteral_fraction_witness :
  normalizeTimeLiteral (js " " ++ (js "10:30:00" ++ [DOT] ++ js "1234567") ++ js " ")
  = js "10:30:00" ++ [DOT] ++ js "123456".
Proof.
  apply (normalizeTimeLiteral_fraction (js " ") (js "10:30:00") (js "1234567")
           (js " ")); reflexivity.
Defined.

End TimeFacts.

(** ** Serialization of references *)

Section SerializationFacts.

Lemma toJSON_eq (fuel : nat) (ctx : TycoContext) (tn : jsstring) (m : Meta)
  (kws : list (jsstring * Node)) :
  toJSON (S fuel) ctx (NInstance tn m kws)
  = foldM (fun o '(a, i) => let! j := toJSON fuel ctx i in Ok (obj_set o a j))
          kws empty_object.
Proof. reflexivity. Qed.

(** The loop over the attributes of an instance stops without outcome at an
    attribute whose [toJSON] has none, when the attributes before it are
    values. *)
Lemma attributes_out_of_fuel (fuel : nat) (ctx : TycoContext)
  (pre post : list (jsstring * Node)) (a : jsstring) (x : Node) :
  Forall (fun e => exists v, e.2 = NValue v) pre ->
  toJSON fuel ctx x = OutOfFuel ->
  forall o,
    foldM (fun o '(a, i) => let! j := toJSON fuel ctx i in Ok (obj_set o a j))
          (pre ++ (a, x) :: post) o = OutOfFuel.
Proof.
  intros Hpre Hx. induction Hpre as [|[b n] pre [v Hv] _ IH]; intros o.
  - cbn [app foldM]. now rewrite Hx.
  - cbn [app foldM]. cbn [snd] in Hv. subst n.
    destruct fuel as [|fuel]; [reflexivity|]. cbn [toJSON bind]. apply IH.
Qed.

(** X28: an instance that refers to itself, by a resolved reference that
    comes after attributes that are values, has no JSON form: toJSON has no
    outcome within any bound on the depth of its calls (in JavaScript the
    recursion ends by exhausting the call stack); and toObject has none when
    the instance is the first one of the first struct, which has primary
    keys, and there are no globals. *)
Theorem toJSON_self_reference (ctx : TycoContext) (r : InstanceRef)
  (tn tn' : jsstring) (m m' : Meta) (pre post : list (jsstring * Node))
  (a : jsstring) (args : list Node) :
  let inst := NInstance tn m
                (pre ++ (a, NReference tn' m' args (Some r)) :: post) in
  instance_at ctx r = Some inst ->
  Forall (fun e => exists v, e.2 = NValue v) pre ->
  (forall fuel, toJSON fuel ctx inst = OutOfFuel) /\
  (forall T s more others,
      globals ctx = [] ->
      structs ctx = (T, s) :: others ->
      primaryKeys s <> [] ->
      instances s = inst :: more ->
      forall fuel, toObject fuel ctx = OutOfFuel).
Proof.
  intros inst Hr Hpre.
  assert (Hloop : forall fuel, toJSON fuel ctx inst = OutOfFuel).
  { induction fuel as [fuel IH] using lt_wf_ind.
    destruct fuel as [|fuel]; [reflexivity|].
    unfold inst. rewrite toJSON_eq.
    apply attributes_out_of_fuel; [exact Hpre|].
    destruct fuel as [|fuel]; [reflexivity|].
    cbn [toJSON]. rewrite Hr. apply IH. lia. }
  split; [exact Hloop|].
  intros T s more others Hg Hs Hpk Hi fuel.
  unfold toObject, globals_object. rewrite Hg, Hs. cbn [foldM bind].
  unfold struct_entry at 1. cbn [fst snd].
  destruct (primaryKeys s) as [|k ks]; [congruence|].
  rewrite Hi. cbn [mapM]. unfold instance_entry at 1. unfold inst at 1.
  rewrite attributes_out_of_fuel; [reflexivity|exact Hpre|].
  destruct fuel as [|fuel]; [reflexivity|].
  cbn [toJSON]. rewrite Hr. apply Hloop.
Qed.

End SerializationFacts.

Lemma toJSON_self_reference_witness :
  toObject 1000 self_reference_context = OutOfFuel.
Proof.
  destruct (toJSON_self_reference self_reference_context (js "P", 0%nat)
              (js "P") (js "P") new_Meta
              {| attrName := JVal (js "next"); isNullable := Some false;
                 isArray := Some false;
                 parent := PNode (RInstance (js "P", 0%nat), []) |}
              [(js "id", P_id (PNode (RInstance (js "P", 0%nat), [])))]
              [] (js "next") [P_id PNull])
    as [_ H2].
  - vm_compute. reflexivity.
  - constructor; [|constructor]. eexists. reflexivity.
  - eapply H2.
    + reflexivity.
    + vm_compute. reflexivity.
    + discriminate.
    + vm_compute. reflexivity.
Defined.

(** ** Single-line strings *)

Section StringFacts.

Lemma closing_quote_Some (lit : bool) (ch : N) (s : jsstring) :
  forall (prev : N) (i e : nat),
    closing_quote lit ch prev s i = Some e ->
    exists mid tail,
      s = mid ++ ch :: tail /\ e = (i + length mid)%nat /\
      (lit = true \/ last (prev :: mid) <> Some BACKSLASH) /\
      (forall k, mid !! k = Some ch ->
                 lit = false /\ (prev :: mid) !! k = Some BACKSLASH).
Proof.
  induction s as [|c s IH]; intros prev i e; cbn [closing_quote];
    [discriminate|].
  destruct (N.eqb c ch && (lit || negb (N.eqb prev BACKSLASH))) eqn:E.
  - intros [= <-]. apply andb_prop in E as [Ec Ea].
    apply N.eqb_eq in Ec. subst c. exists [], s.
    split; [reflexivity|]. split; [cbn; lia|]. split.
    + destruct lit; [now left|right]. cbn in Ea |- *.
      apply negb_true_iff, N.eqb_neq in Ea. congruence.
    + intros k Hk. destruct k; discriminate.
  - intros He. destruct (IH c (S i) e He) as (mid & tail & -> & -> & Hlast & Hq).
    exists (c :: mid), tail. split; [reflexivity|].
    split; [cbn [length]; lia|]. split.
    + destruct Hlast as [?|Hlast]; [now left|right]. exact Hlast.
    + intros [|k] Hk.
      * injection Hk as ->. rewrite N.eqb_refl in E. cbn [andb] in E.
        destruct lit; [discriminate|]. cbn [orb] in E.
        apply negb_false_iff, N.eqb_eq in E. now subst prev.
      * exact (Hq k Hk).
Qed.

Lemma closing_quote_None (ch : N) (s : jsstring) :
  forall (prev : N) (i : nat),
    (forall k, s !! k = Some ch -> (prev :: s) !! k = Some BACKSLASH) ->
    closing_quote false ch prev s i = None.
Proof.
  induction s as [|c s IH]; intros prev i Hq; [reflexivity|].
  cbn [closing_quote orb].
  assert (N.eqb c ch && negb (N.eqb prev BACKSLASH) = false) as ->.
  { destruct (N.eqb_spec c ch) as [->|]; [|reflexivity].
    specialize (Hq 0%nat eq_refl). injection Hq as ->.
    now rewrite N.eqb_refl. }
  apply IH. intros k Hk. exact (Hq (S k) Hk).
Qed.

(** X29: when loadSingleString returns, the text it returns is the line
    up to and with the closing quote, and the rest of the line is put back in
    front of the lines, at the position after the quote; the text holds no
    control character other than the tab.  For a literal string the closing
    quote is the first quote after the opening one; for a basic string it is
    the first quote not preceded by a backslash. *)
Theorem loadSingleString_closed (ch : N) (this this' : TycoLexer)
  (txt : jsstring) (frag : SourceFragment) :
  loadSingleString ch this = inr (txt, frag, this') ->
  exists line rest c0 mid tail remainder,
    lines this = line :: rest /\ frag = line /\
    text line = c0 :: mid ++ ch :: tail /\
    txt = c0 :: mid ++ [ch] /\
    lines this' = remainder :: rest /\
    remainder = slice line (Some (ofZ (jslength txt))) None /\
    text remainder = tail /\
    existsb isIllegalStrChar txt = false /\
    (ch = QUOTE -> ~ In ch mid) /\
    (ch <> QUOTE ->
     last (c0 :: mid) <> Some BACKSLASH /\
     forall k, mid !! k = Some ch -> (c0 :: mid) !! k = Some BACKSLASH).
Proof.
  unfold loadSingleString.
  destruct (lines this) as [|line rest] eqn:El; [discriminate|].
  destruct (text line) as [|c0 tl] eqn:Et; [discriminate|].
  destruct (closing_quote _ ch c0 tl 1) as [e|] eqn:Ec; [|discriminate].
  destruct (closing_quote_Some _ _ _ _ _ _ Ec)
    as (mid & tail & -> & -> & Hlast & Hq).
  assert (Htxt : firstn (S (1 + length mid)) (c0 :: mid ++ ch :: tail)
                 = c0 :: mid ++ [ch]).
  { change (c0 :: mid ++ ch :: tail) with ((c0 :: mid) ++ [ch] ++ tail).
    rewrite app_assoc. apply take_app_length'.
    cbn [app length]. rewrite length_app. cbn [length]. lia. }
  assert (Hlen : Z.of_nat (1 + length mid) + 1 = jslength (c0 :: mid ++ [ch])).
  { unfold jslength. cbn [length]. rewrite length_app. cbn [length]. lia. }
  cbv zeta. rewrite Htxt, Hlen.
  destruct (existsb _ _) eqn:Ei; [discriminate|].
  intros [= <- <- <-].
  exists line, rest, c0, mid, tail,
    (slice line (Some (ofZ (jslength (c0 :: mid ++ [ch])))) None).
  split; [reflexivity|]. split; [reflexivity|]. split; [exact Et|].
  split; [reflexivity|]. split; [reflexivity|]. split; [reflexivity|].
  split.
  { rewrite slice_from.
    - cbn [text]. rewrite Et.
      replace (c0 :: mid ++ ch :: tail) with ((c0 :: mid ++ [ch]) ++ tail)
        by (cbn [app]; now rewrite <- app_assoc).
      apply drop_app_length'.
      unfold jslength. now rewrite Nat2Z.id.
    - rewrite Et. unfold jslength. cbn [length]. rewrite !length_app.
      cbn [length]. lia. }
  split; [exact Ei|]. split.
  - intros -> Hin. apply list_elem_of_In, list_elem_of_lookup in Hin as [k Hk].
    destruct (Hq k Hk) as [Hlit _]. discriminate.
  - intros Hne. assert (N.eqb ch QUOTE = false) as Hf by now apply N.eqb_neq.
    rewrite Hf in Hlast, Hq. split.
    + destruct Hlast as [?|?]; [discriminate|assumption].
    + intros k Hk. exact (proj2 (Hq k Hk)).
Qed.

(** X30: a basic string is closed by no quote that follows a backslash,
    the backslash of an escaped backslash included: when every quote of the
    line after its first character follows a backslash, loadSingleString
    reports the string as unclosed. *)
Theorem loadSingleString_escaped_quotes (ch : N) (this : TycoLexer)
  (line : SourceFragment) (rest : list SourceFragment) (c0 : N) (tl : jsstring) :
  lines this = line :: rest ->
  text line = c0 :: tl ->
  ch <> QUOTE ->
  (forall k, tl !! k = Some ch -> (c0 :: tl) !! k = Some BACKSLASH) ->
  loadSingleString ch this = inl UnclosedSingleString.
Proof.
  intros Hl Ht Hne Hq. unfold loadSingleString. rewrite Hl, Ht.
  rewrite (proj2 (N.eqb_neq ch QUOTE) Hne).
  now rewrite closing_quote_None.
Qed.

End StringFacts.

Lemma loadSingleString_closed_witness :
  exists line rest c0 mid tail remainder,
    lines (new_TycoLexer [new_SourceFragment (js "'a b', 2")
                            (mkInit None None None None)] None)
    = line :: rest /\
    text line = c0 :: mid ++ QUOTE :: tail /\
    js "'a b'" = c0 :: mid ++ [QUOTE] /\
    text remainder = tail.
Proof.
  destruct (loadSingleString_closed QUOTE
              (new_TycoLexer [new_SourceFragment (js "'a b', 2")
                                (mkInit None None None None)] None)
              (set_lines
                 (new_TycoLexer [new_SourceFragment (js "'a b', 2")
                                   (mkInit None None None None)] None)
                 [slice (new_SourceFragment (js "'a b', 2")
                           (mkInit None None None None))
                        (Some (ofZ 5)) None])
              (js "'a b'")
              (new_SourceFragment (js "'a b', 2") (mkInit None None None None)))
    as (line & rest & c0 & mid & tail & remainder & Hl & _ & Ht & Hx & _ & _
        & Hr & _).
  - vm_compute. reflexivity.
  - exists line, rest, c0, mid, tail, remainder. auto.
Defined.

Lemma loadSingleString_escaped_quotes_witness :
  loadSingleString DQUOTE
    (new_TycoLexer
       [new_SourceFragment ([DQUOTE] ++ js "C:" ++ [BACKSLASH; BACKSLASH; DQUOTE])
          (mkInit None None None None)] None)
  = inl UnclosedSingleString.
Proof.
  eapply (loadSingleString_escaped_quotes DQUOTE _ _ [] DQUOTE
            (js "C:" ++ [BACKSLASH; BACKSLASH; DQUOTE])).
  - reflexivity.
  - reflexivity.
  - discriminate.
  - intros k Hk.
    do 5 (destruct k as [|k]; [try discriminate; reflexivity|]).
    discriminate.
Defined.
